(** * Knowledge-graph engine, relationship detector and data sampler

    A shallow embedding of
      - backend/core/models/graph_models.py
      - backend/core/engines/graph_engine.py
      - backend/core/platform/metadata/models.py (Table, Column)
      - backend/core/platform/graph/relationship_detector.py
      - backend/core/platform/graph/data_sampler.py
    together with the properties the specification states about them.

    Conventions of the embedding.
      - Python [str] is [string]; Python [int] is [Z]; [Optional[T]] is
        [option T]; a [dict] with string keys is a [gmap string _]; a [set]
        of strings is a [gset string].
      - Python [float] quantities (edge strength, confidence, cardinality
        ratio, overlap) are exact rationals [Q].  Every float operation the
        embedded code performs is a sum or product of a handful of short
        decimals, a quotient of two counters, or a comparison.
      - A [while] loop over a work queue is a [Fixpoint] on an iteration
        budget; the outer [option] of its result is [None] only when the
        budget is exhausted, and the development proves that the budget
        computed from the graph never is.
      - A Python exception is a value of [exn] carried by [result]. *)

From Stdlib Require Import QArith Qminmax ZArith String Ascii List Lia.
From Stdlib Require Import Permutation Sorted.
From stdpp Require Import gmap strings list fin_maps pretty.

Local Open Scope string_scope.
Local Open Scope Z_scope.
Local Open Scope list_scope.
Local Open Scope stdpp_scope.

(** ** Python values, exceptions and built-ins *)

Inductive Any : Type :=
  | AStr (s : string)
  | AInt (z : Z)
  | AFloat (q : Q)
  | ABool (b : bool)
  | ANone.

Inductive exn : Type :=
  | KeyError (key : string)
  | Exception (msg : string).

Inductive result (A : Type) : Type :=
  | Ok (a : A)
  | Raise (e : exn).
Arguments Ok {A} a.
Arguments Raise {A} e.

Definition bind {A B} (r : result A) (k : A → result B) : result B :=
  match r with
  | Ok a => k a
  | Raise e => Raise e
  end.

(** [try: body except Exception as e: handler e] *)
Definition try_except {A} (body : result A) (handler : exn → result A) : result A :=
  match body with
  | Ok a => Ok a
  | Raise e => handler e
  end.

(** [str(e)] of an exception. *)
Definition str_of_exn (e : exn) : string :=
  match e with
  | KeyError k => k
  | Exception m => m
  end.

(** [x > y] on numbers. *)
Definition Qgtb (x y : Q) : bool := if Qlt_le_dec y x then true else false.

(** [max(iterable)]: the first maximal element; the caller guarantees the
    iterable is not empty ([x] is its first element). *)
Definition py_max (x : Q) (xs : list Q) : Q :=
  foldl (λ m y, if Qgtb y m then y else m) x xs.

(** [min(x, y)]: [y] only when it is strictly smaller. *)
Definition py_min (x y : Q) : Q := if Qgtb x y then y else x.

(** ** graph_models.py *)

Inductive RelationType : Type :=
  | CUSTOMER_INVOICE
  | CUSTOMER_CONTACT
  | CUSTOMER_INTERACTION
  | CONTACT_INTERACTION
  | INVOICE_PAYMENT.

Inductive EntityType : Type :=
  | CUSTOMER
  | INVOICE
  | CONTACT
  | INTERACTION.

#[global] Instance RelationType_eq_dec : EqDecision RelationType.
Proof. solve_decision. Defined.

#[global] Instance EntityType_eq_dec : EqDecision EntityType.
Proof. solve_decision. Defined.

Record GraphNode : Type := mkGraphNode {
  node_id : string;
  entity_type : EntityType;
  node_properties : gmap string Any;
  node_created_at : option Z
}.

Record GraphEdge : Type := mkGraphEdge {
  from_node : string;
  to_node : string;
  relation_type : RelationType;
  strength : Q;
  edge_properties : gmap string Any;
  edge_created_at : option Z
}.

(** [GraphEdge.reverse] *)
Definition reverse (self : GraphEdge) : GraphEdge :=
  {| from_node := to_node self;
     to_node := from_node self;
     relation_type := relation_type self;
     strength := strength self;
     edge_properties := edge_properties self;
     edge_created_at := edge_created_at self |}.

Record GraphPath : Type := mkGraphPath {
  start_node : string;
  end_node : string;
  path_nodes : list string;
  path_edges : list GraphEdge;
  total_strength : Q
}.

(** ** graph_engine.py *)

Record GraphEngine : Type := mkGraphEngine {
  nodes : gmap string GraphNode;
  edges : gmap string (list GraphEdge);
  reverse_edges : gmap string (list GraphEdge)
}.

(** [GraphEngine.__init__] *)
Definition init : GraphEngine :=
  {| nodes := ∅; edges := ∅; reverse_edges := ∅ |}.

(** [d[k].append(e)] on a [defaultdict(list)]. *)
Definition append_at (d : gmap string (list GraphEdge)) (k : string) (e : GraphEdge)
  : gmap string (list GraphEdge) :=
  <[k := default [] (d !! k) ++ [e]]> d.

Definition add_node (self : GraphEngine) (node : GraphNode) : GraphEngine :=
  {| nodes := <[node_id node := node]> (nodes self);
     edges := edges self;
     reverse_edges := reverse_edges self |}.

Definition add_edge (self : GraphEngine) (edge : GraphEdge) (bidirectional : bool)
  : GraphEngine :=
  let self1 :=
    {| nodes := nodes self;
       edges := append_at (edges self) (from_node edge) edge;
       reverse_edges := append_at (reverse_edges self) (to_node edge) edge |} in
  if bidirectional then
    let reverse_edge := reverse edge in
    {| nodes := nodes self1;
       edges := append_at (edges self1) (from_node reverse_edge) reverse_edge;
       reverse_edges :=
         append_at (reverse_edges self1) (to_node reverse_edge) reverse_edge |}
  else self1.

Definition get_node (self : GraphEngine) (id : string) : option GraphNode :=
  nodes self !! id.

Definition get_outgoing_edges (self : GraphEngine) (id : string) : list GraphEdge :=
  default [] (edges self !! id).

Definition get_incoming_edges (self : GraphEngine) (id : string) : list GraphEdge :=
  default [] (reverse_edges self !! id).

Definition get_all_edges (self : GraphEngine) (id : string) : list GraphEdge :=
  get_outgoing_edges self id ++ get_incoming_edges self id.

(** The loop of [get_neighbors] that fills the [neighbors] set. *)
Definition collect_neighbors (id : string) (es : list GraphEdge) : gset string :=
  foldl (λ (neighbors : gset string) edge,
           if decide (from_node edge = id)
           then {[to_node edge]} ∪ neighbors
           else {[from_node edge]} ∪ neighbors) ∅ es.

Definition get_neighbors (self : GraphEngine) (id : string)
    (rel : option RelationType) : list string :=
  let es := get_all_edges self id in
  let es := match rel with
            | Some rt => filter (λ e, relation_type e = rt) es
            | None => es
            end in
  (* [list(neighbors)]: the elements, in the order the set keeps them *)
  elements (collect_neighbors id es).

(** Every edge stored in an adjacency map, in one list. *)
Definition stored (d : gmap string (list GraphEdge)) : list GraphEdge :=
  concat (map snd (map_to_list d)).

(** The ids a traversal from [id] can ever put on its queue. *)
Definition universe (self : GraphEngine) (id : string) : gset string :=
  {[id]} ∪ list_to_set (map from_node (stored (edges self) ++ stored (reverse_edges self)))
         ∪ list_to_set (map to_node (stored (edges self) ++ stored (reverse_edges self))).

(** Iteration budget of the two traversals: each id of the universe is
    expanded at most once, and an expansion enqueues at most one entry per
    stored edge. *)
Definition budget (self : GraphEngine) (id : string) : nat :=
  S (S (size (universe self id)
        * S (length (stored (edges self)) + length (stored (reverse_edges self))))).

(** The [while queue:] loop of [get_related_entities]. *)
Fixpoint related_loop (fuel : nat) (self : GraphEngine) (id : string)
    (ety : option EntityType) (rel : option RelationType) (max_depth : Z)
    (queue : list (string * Z)) (visited : gset string) (related : list GraphNode)
  : option (result (list GraphNode)) :=
  match fuel with
  | O => None
  | S fuel =>
    match queue with
    | [] => Some (Ok related)
    | (current_id, depth) :: queue =>
      if decide (current_id ∈ visited) then
        related_loop fuel self id ety rel max_depth queue visited related
      else
        let visited := {[current_id]} ∪ visited in
        let related' :=
          if decide (current_id ≠ id) then
            match nodes self !! current_id with
            | None => Raise (KeyError current_id)
            | Some node =>
              match ety with
              | None => Ok (related ++ [node])
              | Some t =>
                if decide (entity_type node = t)
                then Ok (related ++ [node]) else Ok related
              end
            end
          else Ok related in
        match related' with
        | Raise e => Some (Raise e)
        | Ok related =>
          let queue :=
            if decide (depth < max_depth) then
              queue ++ map (λ n, (n, depth + 1))
                           (filter (λ n, n ∉ visited)
                                   (get_neighbors self current_id rel))
            else queue in
          related_loop fuel self id ety rel max_depth queue visited related
        end
    end
  end.

Definition get_related_entities (self : GraphEngine) (id : string)
    (ety : option EntityType) (rel : option RelationType) (max_depth : Z)
  : option (result (list GraphNode)) :=
  if decide (id ∈ dom (nodes self)) then
    related_loop (budget self id) self id ety rel max_depth [(id, 0)] ∅ []
  else Some (Ok []).

Definition calculate_relationship_strength (self : GraphEngine)
    (from_node_id to_node_id : string) : Q :=
  let direct_edges :=
    filter (λ e, to_node e = to_node_id) (get_outgoing_edges self from_node_id) in
  match direct_edges with
  | e :: rest => py_max (strength e) (map strength rest)
  | [] =>
    let from_neighbors : gset string :=
      list_to_set (get_neighbors self from_node_id None) in
    let to_neighbors : gset string :=
      list_to_set (get_neighbors self to_node_id None) in
    let shared_neighbors := from_neighbors ∩ to_neighbors in
    if decide (shared_neighbors = ∅) then 0%Q
    else py_min (inject_Z (Z.of_nat (size shared_neighbors)) / 10)%Q 0.5%Q
  end.

(** A queue entry of [find_path]: (node, path, edges, strength). *)
Definition entry : Type := string * list string * list GraphEdge * Q.

(** The [while queue:] loop of [find_path]. *)
Fixpoint find_path_loop (fuel : nat) (self : GraphEngine)
    (start_node_id end_node_id : string) (max_depth : Z)
    (queue : list entry) (visited : gset string) : option (option GraphPath) :=
  match fuel with
  | O => None
  | S fuel =>
    match queue with
    | [] => Some None
    | (current_id, path, pedges, pstrength) :: queue =>
      if decide (current_id = end_node_id) then
        Some (Some {| start_node := start_node_id;
                      end_node := end_node_id;
                      path_nodes := path;
                      path_edges := pedges;
                      total_strength := pstrength |})
      else if decide (Z.of_nat (length path) > max_depth ∨ current_id ∈ visited) then
        find_path_loop fuel self start_node_id end_node_id max_depth queue visited
      else
        let visited := {[current_id]} ∪ visited in
        let queue :=
          queue ++ map (λ edge, (to_node edge, path ++ [to_node edge],
                                 pedges ++ [edge], (pstrength * strength edge)%Q))
                       (filter (λ edge, to_node edge ∉ visited)
                               (get_outgoing_edges self current_id)) in
        find_path_loop fuel self start_node_id end_node_id max_depth queue visited
    end
  end.

Definition find_path (self : GraphEngine) (start_node_id end_node_id : string)
    (max_depth : Z) : option (option GraphPath) :=
  if decide (start_node_id ∉ dom (nodes self) ∨ end_node_id ∉ dom (nodes self)) then
    Some None
  else
    find_path_loop (budget self start_node_id) self start_node_id end_node_id
      max_depth [(start_node_id, [start_node_id], [], 1%Q)] ∅.

(** A graph is what a sequence of calls builds from [GraphEngine()]. *)
Inductive call : Type :=
  | AddNode (node : GraphNode)
  | AddEdge (edge : GraphEdge) (bidirectional : bool).

Definition run_call (self : GraphEngine) (c : call) : GraphEngine :=
  match c with
  | AddNode n => add_node self n
  | AddEdge e b => add_edge self e b
  end.

Definition build (calls : list call) : GraphEngine := foldl run_call init calls.

(** ** metadata/models.py *)

Record Table : Type := mkTable {
  tbl_id : string;
  tbl_name : string;
  tbl_dataset_id : string;
  tbl_datasource_id : string;
  tbl_description : option string;
  tbl_num_rows : option Z;
  tbl_type : string
}.

Record Column : Type := mkColumn {
  col_id : string;
  col_name : string;
  col_table_id : string;
  col_datatype : string;
  col_is_nullable : bool;
  col_is_primary_key : bool;
  col_is_foreign_key : bool;
  col_foreign_key_ref : option string;
  col_description : option string
}.

(** ** relationship_detector.py *)

Record DetectedRelationship : Type := mkDetectedRelationship {
  from_table_id : string;
  from_column : string;
  to_table_id : string;
  to_column : string;
  confidence : Q;
  detection_method : string;
  metadata : gmap string Any
}.

(** [s.split(sep)] for a one-character separator: never empty. *)
Fixpoint split (sep : ascii) (s : string) : list string :=
  match s with
  | EmptyString => [""]
  | String c rest =>
    if decide (c = sep) then "" :: split sep rest
    else match split sep rest with
         | [] => [String c ""]
         | piece :: pieces => String c piece :: pieces
         end
  end.

(** [sep.join(parts)] *)
Fixpoint join (sep : string) (parts : list string) : string :=
  match parts with
  | [] => ""
  | [p] => p
  | p :: rest => p +:+ sep +:+ join sep rest
  end.

(** The key of the [seen] dictionary of [_deduplicate_relationships]. *)
Definition endpoints : Type := string * string * string * string.

Definition key_of (rel : DetectedRelationship) : endpoints :=
  (from_table_id rel, from_column rel, to_table_id rel, to_column rel).

(** A [dict] that remembers insertion order: [d.get(k)] and [d[k] = v]
    (an existing key keeps its position). *)
Fixpoint dict_get {V} (k : endpoints) (d : list (endpoints * V)) : option V :=
  match d with
  | [] => None
  | (k', v) :: d' => if decide (k = k') then Some v else dict_get k d'
  end.

Fixpoint dict_set {V} (k : endpoints) (v : V) (d : list (endpoints * V))
  : list (endpoints * V) :=
  match d with
  | [] => [(k, v)]
  | (k', v') :: d' =>
    if decide (k = k') then (k, v) :: d' else (k', v') :: dict_set k v d'
  end.

Definition id_patterns : list string :=
  ["^id$"; "^(.+)_id$"; "^(.+)id$"; "^fk_(.+)$"].

Definition pk_patterns : list string :=
  ["^id$"; "^(.+)_id$"; "^pk_(.+)$"].

Definition int_types : list string :=
  ["INTEGER"; "INT64"; "BIGINT"; "INT"; "SMALLINT"; "TINYINT"].

Definition string_types : list string :=
  ["STRING"; "VARCHAR"; "TEXT"; "CHAR"; "BPCHAR"].

Section RelationshipDetector.

(** The string library the detector calls: [re.match pattern s] gives the
    tuple of groups of a match, [str.lower] and [str.upper]. *)
Variable re_match : string → string → option (list string).
Variable lower : string → string.
Variable upper : string → string.

Definition _create_fk_relationship (from_table_id : string)
    (from_column : Column) (fk_ref : string) : DetectedRelationship :=
  let parts := split "." fk_ref in
  let to_table_id := join "." (removelast parts) in
  let to_column := List.last parts "" in
  {| from_table_id := from_table_id;
     from_column := col_name from_column;
     to_table_id := to_table_id;
     to_column := to_column;
     confidence := 1.0%Q;
     detection_method := "explicit_fk";
     metadata := {[ "datatype" := AStr (col_datatype from_column) ]} |}.

Definition _are_types_compatible (type1 type2 : string) : bool :=
  let t1 := upper type1 in
  let t2 := upper type2 in
  if bool_decide (t1 ∈ int_types) && bool_decide (t2 ∈ int_types) then true
  else if bool_decide (t1 ∈ string_types) && bool_decide (t2 ∈ string_types)
  then true
  else if decide (t1 = t2) then true
  else false.

Definition _calculate_confidence (from_column to_column : Column)
    (entity_name table_name : string) : Q :=
  let confidence := 0.5%Q in
  let confidence :=
    if col_is_primary_key to_column then (confidence + 0.3)%Q else confidence in
  let confidence :=
    if decide (upper (col_datatype from_column) = upper (col_datatype to_column))
    then (confidence + 0.1)%Q else confidence in
  let confidence :=
    if decide (table_name = entity_name +:+ "s")
    then (confidence + 0.1)%Q else confidence in
  py_min confidence 1.0%Q.

Definition _detect_by_naming_convention (from_table : Table) (from_column : Column)
    (table_by_name : gmap string Table)
    (columns_by_table : gmap string (list Column)) : list DetectedRelationship :=
  let column_name := lower (col_name from_column) in
  flat_map (λ pattern,
    match re_match pattern column_name with
    | None => []
    | Some [] => []
    | Some (entity_name :: _) =>
      let candidate_tables :=
        [entity_name +:+ "s"; entity_name; entity_name +:+ "es"] in
      flat_map (λ candidate_name,
        match table_by_name !! candidate_name with
        | None => []
        | Some target_table =>
          let target_columns :=
            default [] (columns_by_table !! tbl_id target_table) in
          flat_map (λ target_col,
            if col_is_primary_key target_col
               || bool_decide (lower (col_name target_col)
                                 ∈ ["id"; entity_name +:+ "_id"])
            then
              if _are_types_compatible (col_datatype from_column)
                                       (col_datatype target_col)
              then
                [ {| from_table_id := tbl_id from_table;
                     from_column := col_name from_column;
                     to_table_id := tbl_id target_table;
                     to_column := col_name target_col;
                     confidence :=
                       _calculate_confidence from_column target_col
                                             entity_name candidate_name;
                     detection_method := "naming_convention";
                     metadata :=
                       <[ "pattern" := AStr pattern ]>
                       (<[ "entity_name" := AStr entity_name ]>
                       (<[ "to_datatype" := AStr (col_datatype target_col) ]>
                       {[ "from_datatype" := AStr (col_datatype from_column) ]}))
                  |} ]
              else []
            else []) target_columns
        end) candidate_tables
    end) id_patterns.

(** The body of the [for rel in relationships] loop of
    [_deduplicate_relationships]. *)
Definition dedup_step (seen : list (endpoints * DetectedRelationship))
    (rel : DetectedRelationship) : list (endpoints * DetectedRelationship) :=
  let key := key_of rel in
  match dict_get key seen with
  | None => dict_set key rel seen
  | Some kept =>
    if Qgtb (confidence rel) (confidence kept)
    then dict_set key rel seen else seen
  end.

Definition _deduplicate_relationships (relationships : list DetectedRelationship)
  : list DetectedRelationship :=
  let seen := foldl dedup_step [] relationships in
  map snd seen.

(** [relationships.sort(key=lambda r: r.confidence, reverse=True)]:
    a stable sort, highest confidence first. *)
Fixpoint insert_by_confidence (rel : DetectedRelationship)
    (sorted : list DetectedRelationship) : list DetectedRelationship :=
  match sorted with
  | [] => [rel]
  | r :: rest =>
    if Qgtb (confidence r) (confidence rel)
    then r :: insert_by_confidence rel rest
    else rel :: r :: rest
  end.

Definition sort_by_confidence (relationships : list DetectedRelationship)
  : list DetectedRelationship :=
  foldr insert_by_confidence [] relationships.

(** What one iteration of the column loop of [detect_relationships]
    appends to [relationships]. *)
Definition detect_column (table : Table) (column : Column)
    (table_by_name : gmap string Table)
    (columns_by_table : gmap string (list Column)) : list DetectedRelationship :=
  match col_is_foreign_key column, col_foreign_key_ref column with
  | true, Some (String c ref) =>
    [_create_fk_relationship (tbl_id table) column (String c ref)]
  | _, _ =>
    _detect_by_naming_convention table column table_by_name columns_by_table
  end.

(** The candidates [detect_relationships] collects before it
    de-duplicates and sorts them. *)
Definition candidates (tables : list Table)
    (columns_by_table : gmap string (list Column)) : list DetectedRelationship :=
  let table_by_name : gmap string Table :=
    foldl (λ d t, <[tbl_name t := t]> d) ∅ tables in
  flat_map (λ table,
    let table_columns := default [] (columns_by_table !! tbl_id table) in
    flat_map (λ column,
                detect_column table column table_by_name columns_by_table)
             table_columns) tables.

Definition detect_relationships (tables : list Table)
    (columns_by_table : gmap string (list Column)) : list DetectedRelationship :=
  let relationships := candidates tables columns_by_table in
  let relationships := _deduplicate_relationships relationships in
  sort_by_confidence relationships.

End RelationshipDetector.

(** The string library on ASCII text. *)

Definition lower_char (c : ascii) : ascii :=
  let n := nat_of_ascii c in
  if ((65 <=? n) && (n <=? 90))%nat then ascii_of_nat (n + 32) else c.

Definition upper_char (c : ascii) : ascii :=
  let n := nat_of_ascii c in
  if ((97 <=? n) && (n <=? 122))%nat then ascii_of_nat (n - 32) else c.

Fixpoint map_string (f : ascii → ascii) (s : string) : string :=
  match s with
  | EmptyString => EmptyString
  | String c rest => String (f c) (map_string f rest)
  end.

Definition str_lower : string → string := map_string lower_char.
Definition str_upper : string → string := map_string upper_char.

Definition newline : ascii := ascii_of_nat 10.

Fixpoint strip_prefix (p s : string) : option string :=
  match p, s with
  | EmptyString, _ => Some s
  | String a p', String b s' => if decide (a = b) then strip_prefix p' s' else None
  | String _ _, EmptyString => None
  end.

Definition strip_suffix (p s : string) : option string :=
  String.rev <$> strip_prefix (String.rev p) (String.rev s).

(** [$] also matches just before a newline that ends the text. *)
Definition before_final_newline (s : string) : string :=
  match strip_suffix (String newline "") s with
  | Some body => body
  | None => s
  end.

Fixpoint no_newline (s : string) : bool :=
  match s with
  | EmptyString => true
  | String c rest => if decide (c = newline) then false else no_newline rest
  end.

(** What [(.+)] may capture: at least one character, none a newline. *)
Definition group_of (captured : option string) : option (list string) :=
  match captured with
  | Some (String c rest) =>
    if no_newline (String c rest) then Some [String c rest] else None
  | _ => None
  end.

(** [re.match] on the patterns of [id_patterns] and [pk_patterns]. *)
Definition py_re_match (pattern s : string) : option (list string) :=
  let body := before_final_newline s in
  if decide (pattern = "^id$") then
    if decide (body = "id") then Some [] else None
  else if decide (pattern = "^(.+)_id$") then group_of (strip_suffix "_id" body)
  else if decide (pattern = "^(.+)id$") then group_of (strip_suffix "id" body)
  else if decide (pattern = "^fk_(.+)$") then group_of (strip_prefix "fk_" body)
  else if decide (pattern = "^pk_(.+)$") then group_of (strip_prefix "pk_" body)
  else None.

(** ** data_sampler.py *)

(** A sampled (non-null, hashable) column value. *)
Inductive Value : Type :=
  | VInt (z : Z)
  | VStr (s : string).

#[global] Instance Value_eq_dec : EqDecision Value.
Proof. solve_decision. Defined.

#[global] Instance Value_countable : Countable Value.
Proof.
  refine (inj_countable'
            (λ v, match v with VInt z => inl z | VStr s => inr s end)
            (λ x, match x with inl z => VInt z | inr s => VStr s end) _).
  intros []; reflexivity.
Defined.

Record DataSampleResult : Type := mkDataSampleResult {
  table_id : string;
  column_name : string;
  sample_values : list Value;
  distinct_count : Z;
  null_count : Z;
  total_count : Z;
  cardinality_ratio : Q
}.

(** A row of the statistics query; [None] is a missing key, which
    [row.get(key, default)] replaces by the default. *)
Record Row : Type := mkRow {
  row_total_count : option Z;
  row_distinct_count : option Z;
  row_null_count : option Z;
  row_sample_values : option (list Value)
}.

(** [DataSampler.__init__]: the connector is its [execute_query]. *)
Record DataSampler : Type := mkDataSampler {
  connector : string → result (list Row);
  sample_size : Z
}.

(** The f-string of [sample_column]. *)
Definition sample_query (sample_size : Z)
    (dataset_id table_name column_name : string) : string :=
  "
            WITH stats AS (
                SELECT
                    COUNT(*) as total_count,
                    COUNT(DISTINCT `" +:+ column_name +:+ "`) as distinct_count,
                    COUNTIF(`" +:+ column_name +:+ "` IS NULL) as null_count
                FROM `" +:+ dataset_id +:+ "." +:+ table_name +:+ "`
            ),
            samples AS (
                SELECT DISTINCT `" +:+ column_name +:+ "` as value
                FROM `" +:+ dataset_id +:+ "." +:+ table_name +:+ "`
                WHERE `" +:+ column_name +:+ "` IS NOT NULL
                LIMIT " +:+ pretty sample_size +:+ "
            )
            SELECT
                stats.total_count,
                stats.distinct_count,
                stats.null_count,
                ARRAY_AGG(samples.value LIMIT "
    +:+ pretty (Z.min 100 sample_size) +:+ ") as sample_values
            FROM stats
            CROSS JOIN samples
            GROUP BY stats.total_count, stats.distinct_count, stats.null_count
            ".

(** The [try] block of [sample_column]. *)
Definition sample_column_body (self : DataSampler)
    (dataset_id table_name column_name : string)
  : result (option DataSampleResult) :=
  let table_id := dataset_id +:+ "." +:+ table_name in
  let query :=
    sample_query (sample_size self) dataset_id table_name column_name in
  bind (connector self query) (λ results,
    match results with
    | [] => Ok None
    | row :: _ =>
      let total_count := default 0 (row_total_count row) in
      let distinct_count := default 0 (row_distinct_count row) in
      let null_count := default 0 (row_null_count row) in
      let sample_values := default [] (row_sample_values row) in
      let cardinality_ratio :=
        if decide (total_count > 0)
        then (inject_Z distinct_count / inject_Z total_count)%Q else 0%Q in
      Ok (Some {| table_id := table_id;
                  column_name := column_name;
                  sample_values := sample_values;
                  distinct_count := distinct_count;
                  null_count := null_count;
                  total_count := total_count;
                  cardinality_ratio := cardinality_ratio |})
    end).

Definition sample_column (self : DataSampler)
    (dataset_id table_name column_name : string)
  : result (option DataSampleResult) :=
  try_except (sample_column_body self dataset_id table_name column_name)
             (λ e, Ok None).

Definition detect_value_overlap (sample1 sample2 : DataSampleResult) : Q :=
  match sample_values sample1, sample_values sample2 with
  | [], _ => 0.0%Q
  | _, [] => 0.0%Q
  | _, _ =>
    let set1 : gset Value := list_to_set (sample_values sample1) in
    let set2 : gset Value := list_to_set (sample_values sample2) in
    let intersection := Z.of_nat (size (set1 ∩ set2)) in
    let union := Z.of_nat (size (set1 ∪ set2)) in
    if decide (union > 0)
    then (inject_Z intersection / inject_Z union)%Q else 0.0%Q
  end.

Definition analyze_cardinality (from_sample to_sample : DataSampleResult) : string :=
  let from_is_unique := Qgtb (cardinality_ratio from_sample) 0.95%Q in
  let to_is_unique := Qgtb (cardinality_ratio to_sample) 0.95%Q in
  if from_is_unique && to_is_unique then "1:1"
  else if from_is_unique && negb to_is_unique then "N:1"
  else if negb from_is_unique && to_is_unique then "1:N"
  else "N:M".

(** The per-side statistics of a validation result. *)
Record Stats : Type := mkStats {
  stats_distinct_count : Z;
  stats_total_count : Z;
  stats_cardinality_ratio : Q
}.

(** The dictionary [validate_relationship] returns: either
    [{"valid": False, "error": ...}] or the full judgment. *)
Inductive Validation : Type :=
  | Invalid (error : string)
  | Judged (valid : bool) (overlap_ratio : Q) (cardinality : string)
           (from_stats to_stats : Stats).

(** [result["valid"]] *)
Definition valid_of (v : Validation) : bool :=
  match v with
  | Invalid _ => false
  | Judged valid _ _ _ _ => valid
  end.

Definition stats_of (sample : DataSampleResult) : Stats :=
  {| stats_distinct_count := distinct_count sample;
     stats_total_count := total_count sample;
     stats_cardinality_ratio := cardinality_ratio sample |}.

(** The [try] block of [validate_relationship]. *)
Definition validate_relationship_body (self : DataSampler)
    (dataset_id from_table from_column to_table to_column : string)
  : result Validation :=
  bind (sample_column self dataset_id from_table from_column) (λ from_sample,
  bind (sample_column self dataset_id to_table to_column) (λ to_sample,
    match from_sample, to_sample with
    | Some from_sample, Some to_sample =>
      let overlap := detect_value_overlap from_sample to_sample in
      let cardinality := analyze_cardinality from_sample to_sample in
      let is_valid := Qgtb overlap 0.1%Q in
      Ok (Judged is_valid overlap cardinality
                 (stats_of from_sample) (stats_of to_sample))
    | _, _ => Ok (Invalid "Could not sample columns")
    end)).

Definition validate_relationship (self : DataSampler)
    (dataset_id from_table from_column to_table to_column : string)
  : result Validation :=
  try_except
    (validate_relationship_body self dataset_id from_table from_column
                                to_table to_column)
    (λ e, Ok (Invalid (str_of_exn e))).

(** ** Notions of the specification *)

(** The directed edges a sequence of calls puts in the graph: a
    bidirectional insertion materialises the edge and its mirror. *)
Definition edges_of (calls : list call) : list GraphEdge :=
  flat_map (λ c, match c with
                 | AddNode _ => []
                 | AddEdge e false => [e]
                 | AddEdge e true => [e; reverse e]
                 end) calls.

(** A directed path of the graph with edges [E]: [dpath E a es b] when
    the edges [es], each leaving the node the previous one reached, lead
    from [a] to [b]. *)
Inductive dpath (E : list GraphEdge) (a : string) : list GraphEdge → string → Prop :=
  | dpath_nil : dpath E a [] a
  | dpath_snoc es x e :
      dpath E a es x →
      e ∈ E →
      from_node e = x →
      dpath E a (es ++ [e]) (to_node e).

(** [y] is one hop from [x]: an edge (of the relation type asked for, if
    any) joins them, in either direction. *)
Definition adjacent (E : list GraphEdge) (rel : option RelationType)
    (x y : string) : Prop :=
  ∃ e, e ∈ E
       ∧ (∀ rt, rel = Some rt → relation_type e = rt)
       ∧ ((from_node e = x ∧ to_node e = y) ∨ (to_node e = x ∧ from_node e = y)).

(** [walk E rel a n x]: [x] is [n] hops away from [a]. *)
Inductive walk (E : list GraphEdge) (rel : option RelationType) (a : string)
  : nat → string → Prop :=
  | walk_O : walk E rel a O a
  | walk_S n x y :
      walk E rel a n x →
      adjacent E rel x y →
      walk E rel a (S n) y.

(** [x] is reachable from [a] within [d] hops. *)
Definition within (E : list GraphEdge) (rel : option RelationType) (a : string)
    (d : Z) (x : string) : Prop :=
  ∃ n : nat, (Z.of_nat n ≤ d)%Z ∧ walk E rel a n x.

(** The product of the strengths of a list of edges, in path order. *)
Definition strength_product (es : list GraphEdge) : Q :=
  foldl (λ acc e, (acc * strength e)%Q) 1%Q es.

(** The Jaccard index of two sets of sampled values: [|A∩B| / |A∪B|], and
    [0] when either set is empty. *)
Definition jaccard (A B : gset Value) : Q :=
  if decide (A = ∅ ∨ B = ∅) then 0%Q
  else (inject_Z (Z.of_nat (size (A ∩ B))) / inject_Z (Z.of_nat (size (A ∪ B))))%Q.

(** The character [a] occurs in the text [s]. *)
Fixpoint occurs (a : ascii) (s : string) : bool :=
  match s with
  | EmptyString => false
  | String c rest => if decide (c = a) then true else occurs a rest
  end.

(** The invariant of the [seen] dictionary of [_deduplicate_relationships]
    once the relationships [processed] went through the loop: its keys are
    distinct, every entry is a processed relationship filed under its own
    endpoints, and every processed relationship finds under its endpoints
    an entry of at least its confidence. *)
Definition seen_ok (processed : list DetectedRelationship)
    (seen : list (endpoints * DetectedRelationship)) : Prop :=
  NoDup (map fst seen)
  ∧ (∀ k v, (k, v) ∈ seen → key_of v = k ∧ v ∈ processed)
  ∧ (∀ c, c ∈ processed →
       ∃ r, dict_get (key_of c) seen = Some r ∧ (confidence c <= confidence r)%Q).

(** ** Invariants of the loops *)

(** What is left to do in a traversal over the ids [U]: every id not yet
    visited may still be expanded, enqueuing at most [bound] entries, and
    every queued entry has to be dequeued. *)
Definition measure (U : gset string) (bound : nat) {A} (queue : list A)
    (visited : gset string) : nat :=
  size (U ∖ visited) * S bound + length queue.

(** A queue entry of [find_path] from [a] with depth bound [k]: its edges
    form a path from [a] to its node, its node list and strength are those
    of that path, and the path is empty or within the bound. *)
Definition entry_ok (E : list GraphEdge) (a : string) (k : Z) (en : entry) : Prop :=
  let '(x, path, es, s) := en in
  dpath E a es x
  ∧ path = a :: map to_node es
  ∧ s = strength_product es
  ∧ (es = [] ∨ (Z.of_nat (length es) ≤ k)%Z).

(** The same, for the path [find_path] returns. *)
Definition path_ok (E : list GraphEdge) (a b : string) (k : Z) (p : GraphPath) : Prop :=
  start_node p = a
  ∧ end_node p = b
  ∧ dpath E a (path_edges p) b
  ∧ path_nodes p = a :: map to_node (path_edges p)
  ∧ total_strength p = strength_product (path_edges p)
  ∧ (path_edges p = [] ∨ (Z.of_nat (length (path_edges p)) ≤ k)%Z).

(** An id met at depth [dx] by the traversal from [a] bounded by [d]:
    it is [dx] hops away, and past the start the depth is within the bound. *)
Definition met (E : list GraphEdge) (rel : option RelationType) (a : string)
    (d : Z) (x : string) (dx : Z) : Prop :=
  0 ≤ dx ∧ walk E rel a (Z.to_nat dx) x ∧ (dx = 0 ∨ dx ≤ d).

(** The invariant of the loop of [get_related_entities]; [vd] records the
    depth at which each visited id was dequeued. *)
Record related_inv (g : GraphEngine) (E : list GraphEdge)
    (rel : option RelationType) (a : string) (d : Z)
    (queue : list (string * Z)) (visited : gset string)
    (related : list GraphNode) (vd : gmap string Z) : Prop := {
  inv_dom : dom vd = visited;
  inv_queue_met : ∀ x dx, (x, dx) ∈ queue → met E rel a d x dx;
  inv_visited_met : ∀ x dx, vd !! x = Some dx → met E rel a d x dx;
  inv_sorted : StronglySorted (λ p q : string * Z, p.2 ≤ q.2) queue;
  inv_spread : ∀ p q : string * Z, p ∈ queue → q ∈ queue → q.2 ≤ p.2 + 1;
  inv_behind : ∀ x dx (p : string * Z), vd !! x = Some dx → p ∈ queue → dx ≤ p.2;
  inv_expanded : ∀ z dz w,
    vd !! z = Some dz → dz < d → adjacent E rel z w →
    (∃ dw, vd !! w = Some dw ∧ dw ≤ dz + 1) ∨ (w, dz + 1) ∈ queue;
  inv_start : (∃ ds, vd !! a = Some ds ∧ ds ≤ 0) ∨ (a, 0) ∈ queue;
  inv_related_nodup : NoDup (map node_id related);
  inv_related_ids : ∀ x, x ∈ map node_id related ↔ x ∈ visited ∧ x ≠ a;
  inv_related_nodes : ∀ n, n ∈ related → nodes g !! node_id n = Some n
}.

(** ** Scenarios of the specification *)

(** Scenario A: the tables [orders] and [customers] of a dataset. *)
Definition orders : Table :=
  {| tbl_id := "shop.orders"; tbl_name := "orders"; tbl_dataset_id := "shop";
     tbl_datasource_id := "bq"; tbl_description := None; tbl_num_rows := None;
     tbl_type := "TABLE" |}.

Definition customers : Table :=
  {| tbl_id := "shop.customers"; tbl_name := "customers"; tbl_dataset_id := "shop";
     tbl_datasource_id := "bq"; tbl_description := None; tbl_num_rows := None;
     tbl_type := "TABLE" |}.

Definition customers_id : Column :=
  {| col_id := "shop.customers.id"; col_name := "id";
     col_table_id := "shop.customers"; col_datatype := "INTEGER";
     col_is_nullable := false; col_is_primary_key := true;
     col_is_foreign_key := false; col_foreign_key_ref := None;
     col_description := None |}.

(** [orders.customer_id], with a foreign-key flag and reference to choose. *)
Definition orders_customer_id (flag : bool) (ref : option string) : Column :=
  {| col_id := "shop.orders.customer_id"; col_name := "customer_id";
     col_table_id := "shop.orders"; col_datatype := "INTEGER";
     col_is_nullable := true; col_is_primary_key := false;
     col_is_foreign_key := flag; col_foreign_key_ref := ref;
     col_description := None |}.

Definition shop_columns (flag : bool) (ref : option string)
  : gmap string (list Column) :=
  <[ "shop.orders" := [orders_customer_id flag ref] ]>
  {[ "shop.customers" := [customers_id] ]}.

(** The same columns with [orders.customer_id] listed twice: first without
    a foreign-key flag, then flagged and with the reference [ref]. *)
Definition shop_columns_twice (ref : string) : gmap string (list Column) :=
  <[ "shop.orders" := [orders_customer_id false None;
                       orders_customer_id true (Some ref)] ]>
  {[ "shop.customers" := [customers_id] ]}.

(** A node and an edge with nothing but their ids and strength. *)
Definition node (id : string) : GraphNode :=
  {| node_id := id; entity_type := CUSTOMER;
     node_properties := ∅; node_created_at := None |}.

Definition edge (a b : string) (s : Q) : GraphEdge :=
  {| from_node := a; to_node := b; relation_type := CUSTOMER_CONTACT;
     strength := s; edge_properties := ∅; edge_created_at := None |}.

(** Scenario B: A→B of strength 1.0 and B→C of strength 0.6. *)
Definition scenario_b_calls : list call :=
  [AddNode (node "A"); AddNode (node "B"); AddNode (node "C");
   AddEdge (edge "A" "B" 1.0%Q) false; AddEdge (edge "B" "C" 0.6%Q) false].

Definition scenario_b : GraphEngine := build scenario_b_calls.

(** Scenario C: the chain A–B–C–D. *)
Definition scenario_c_calls : list call :=
  [AddNode (node "A"); AddNode (node "B"); AddNode (node "C");
   AddNode (node "D");
   AddEdge (edge "A" "B" 1.0%Q) false; AddEdge (edge "B" "C" 1.0%Q) false;
   AddEdge (edge "C" "D" 1.0%Q) false].

Definition scenario_c : GraphEngine := build scenario_c_calls.


(** A graph with an edge whose strength is outside the range the data
    model gives it. *)
Definition out_of_range_calls : list call :=
  [AddNode (node "A"); AddNode (node "B"); AddEdge (edge "A" "B" 2%Q) false].

(** Scenario D: a source whose two columns sample to {1,2,3} and {2,3,4}. *)
Definition scenario_d : DataSampler :=
  {| connector := λ query,
       if decide (query = sample_query 1000 "shop" "orders" "customer_id")
       then Ok [ {| row_total_count := Some 3; row_distinct_count := Some 3;
                    row_null_count := Some 0;
                    row_sample_values := Some [VInt 1; VInt 2; VInt 3] |} ]
       else Ok [ {| row_total_count := Some 3; row_distinct_count := Some 3;
                    row_null_count := Some 0;
                    row_sample_values := Some [VInt 2; VInt 3; VInt 4] |} ];
     sample_size := 1000 |}.

(** A source whose every query fails. *)
Definition failing_sampler : DataSampler :=
  {| connector := λ _, Raise (Exception "connection refused");
     sample_size := 1000 |}.

(** ** graph_engine.py: statistics and construction from customer data *)

(** The dictionary [get_stats] returns. *)
Record GraphStats : Type := mkGraphStats {
  stats_nodes : Z;
  stats_edges : Z;
  stats_customers : Z;
  stats_invoices : Z;
  stats_contacts : Z;
  stats_interactions : Z
}.

(** [sum(1 for n in self.nodes.values() if n.entity_type == t)] *)
Definition count_entity_type (self : GraphEngine) (t : EntityType) : Z :=
  Z.of_nat (length (filter (λ n, entity_type n = t)
                           (map snd (map_to_list (nodes self))))).

Definition get_stats (self : GraphEngine) : GraphStats :=
  let total_edges :=
    sum_list (map (λ es : list GraphEdge, length es)
                  (map snd (map_to_list (edges self)))) in
  {| stats_nodes := Z.of_nat (size (nodes self));
     stats_edges := Z.of_nat total_edges;
     stats_customers := count_entity_type self CUSTOMER;
     stats_invoices := count_entity_type self INVOICE;
     stats_contacts := count_entity_type self CONTACT;
     stats_interactions := count_entity_type self INTERACTION |}.

(** core/models/entities.py; a [datetime] is a timestamp. *)
Record Customer : Type := mkCustomer {
  customer_id : string;
  customer_name : string;
  customer_status : option string;
  customer_created_at : option Z;
  customer_mrr : option Q;
  customer_industry : option string;
  customer_country : option string
}.

Record Invoice : Type := mkInvoice {
  invoice_id : string;
  invoice_customer_id : string;
  invoice_amount : Q;
  invoice_currency : option string;
  invoice_due_date : option Z;
  invoice_paid_date : option Z;
  invoice_status : option string;
  invoice_created_at : option Z
}.

Record Contact : Type := mkContact {
  contact_id : string;
  contact_customer_id : string;
  contact_email : string;
  contact_name : string;
  contact_role : option string;
  contact_created_at : option Z
}.

Record Interaction : Type := mkInteraction {
  interaction_id : string;
  interaction_customer_id : string;
  interaction_type : string;
  interaction_channel : option string;
  interaction_subject : option string;
  interaction_sentiment : option string;
  interaction_created_at : option Z
}.

(** An optional string or number as a property value. *)
Definition any_of_str (o : option string) : Any :=
  match o with
  | Some s => AStr s
  | None => ANone
  end.

Definition any_of_float (o : option Q) : Any :=
  match o with
  | Some q => AFloat q
  | None => ANone
  end.

Section CustomerData.

(** [datetime.isoformat] *)
Variable isoformat : Z → string.

Definition customer_node (customer : Customer) : GraphNode :=
  {| node_id := customer_id customer;
     entity_type := CUSTOMER;
     node_properties :=
       <[ "name" := AStr (customer_name customer) ]>
       (<[ "status" := any_of_str (customer_status customer) ]>
       (<[ "mrr" := any_of_float (customer_mrr customer) ]>
       (<[ "industry" := any_of_str (customer_industry customer) ]>
       {[ "country" := any_of_str (customer_country customer) ]})));
     node_created_at := customer_created_at customer |}.

Definition invoice_node (invoice : Invoice) : GraphNode :=
  {| node_id := invoice_id invoice;
     entity_type := INVOICE;
     node_properties :=
       <[ "amount" := AFloat (invoice_amount invoice) ]>
       (<[ "currency" := any_of_str (invoice_currency invoice) ]>
       {[ "status" := any_of_str (invoice_status invoice) ]});
     node_created_at := invoice_created_at invoice |}.

(** Edge strength based on payment status. *)
Definition invoice_edge (customer : Customer) (invoice : Invoice) : GraphEdge :=
  let strength :=
    if decide (invoice_status invoice = Some "paid") then 1.0%Q else 0.5%Q in
  {| from_node := customer_id customer;
     to_node := invoice_id invoice;
     relation_type := CUSTOMER_INVOICE;
     strength := strength;
     edge_properties := {[ "status" := any_of_str (invoice_status invoice) ]};
     edge_created_at := None |}.

Definition contact_node (contact : Contact) : GraphNode :=
  {| node_id := contact_id contact;
     entity_type := CONTACT;
     node_properties :=
       <[ "name" := AStr (contact_name contact) ]>
       (<[ "email" := AStr (contact_email contact) ]>
       {[ "role" := any_of_str (contact_role contact) ]});
     node_created_at := contact_created_at contact |}.

Definition contact_edge (customer : Customer) (contact : Contact) : GraphEdge :=
  {| from_node := customer_id customer;
     to_node := contact_id contact;
     relation_type := CUSTOMER_CONTACT;
     strength := 0.8%Q;
     edge_properties := {[ "role" := any_of_str (contact_role contact) ]};
     edge_created_at := None |}.

Definition interaction_node (interaction : Interaction) : GraphNode :=
  {| node_id := interaction_id interaction;
     entity_type := INTERACTION;
     node_properties :=
       <[ "type" := AStr (interaction_type interaction) ]>
       (<[ "channel" := any_of_str (interaction_channel interaction) ]>
       {[ "sentiment" := any_of_str (interaction_sentiment interaction) ]});
     node_created_at := interaction_created_at interaction |}.

(** [sentiment_strength.get(interaction.sentiment, 0.5)] *)
Definition sentiment_strength (sentiment : option string) : Q :=
  match sentiment with
  | Some s =>
    if decide (s = "positive") then 1.0%Q
    else if decide (s = "neutral") then 0.7%Q
    else if decide (s = "negative") then 0.4%Q
    else 0.5%Q
  | None => 0.5%Q
  end.

Definition interaction_edge (customer : Customer) (interaction : Interaction)
  : GraphEdge :=
  {| from_node := customer_id customer;
     to_node := interaction_id interaction;
     relation_type := CUSTOMER_INTERACTION;
     strength := sentiment_strength (interaction_sentiment interaction);
     edge_properties :=
       <[ "sentiment" := any_of_str (interaction_sentiment interaction) ]>
       {[ "created_at" :=
            any_of_str (isoformat <$> interaction_created_at interaction) ]};
     edge_created_at := None |}.

Definition build_from_customer_data (self : GraphEngine) (customer : Customer)
    (invoices : list Invoice) (contacts : list Contact)
    (interactions : list Interaction) : GraphEngine :=
  let self := add_node self (customer_node customer) in
  let self :=
    foldl (λ self invoice,
             let self := add_node self (invoice_node invoice) in
             add_edge self (invoice_edge customer invoice) true)
          self invoices in
  let self :=
    foldl (λ self contact,
             let self := add_node self (contact_node contact) in
             add_edge self (contact_edge customer contact) true)
          self contacts in
  foldl (λ self interaction,
           let self := add_node self (interaction_node interaction) in
           add_edge self (interaction_edge customer interaction) true)
        self interactions.

(** The calls [build_from_customer_data] makes, in order. *)
Definition customer_data_calls (customer : Customer) (invoices : list Invoice)
    (contacts : list Contact) (interactions : list Interaction) : list call :=
  AddNode (customer_node customer)
  :: flat_map (λ invoice, [AddNode (invoice_node invoice);
                           AddEdge (invoice_edge customer invoice) true])
              invoices
  ++ flat_map (λ contact, [AddNode (contact_node contact);
                           AddEdge (contact_edge customer contact) true])
              contacts
  ++ flat_map (λ interaction,
                 [AddNode (interaction_node interaction);
                  AddEdge (interaction_edge customer interaction) true])
              interactions.

End CustomerData.

(** The ids of the entities attached to a customer. *)
Definition entity_ids (invoices : list Invoice) (contacts : list Contact)
    (interactions : list Interaction) : list string :=
  map invoice_id invoices ++ map contact_id contacts
  ++ map interaction_id interactions.

(** ** data_sampler.py: column profiles *)

(** The dictionary [get_column_profile] returns: either
    [{"error": ...}] or the profile. *)
Inductive ColumnProfile : Type :=
  | ProfileError (error : string)
  | Profile (table_id column_name : string)
            (total_count distinct_count null_count : Z)
            (cardinality_ratio : Q) (is_likely_key is_likely_fk : bool)
            (sample_values : list Value).

Definition get_column_profile (self : DataSampler)
    (dataset table column : string) : result ColumnProfile :=
  bind (sample_column self dataset table column) (λ sample,
    match sample with
    | None => Ok (ProfileError "Could not sample column")
    | Some sample =>
      let is_likely_key :=
        Qgtb (cardinality_ratio sample) 0.95%Q
        && bool_decide (null_count sample = 0) in
      let is_likely_fk :=
        (Qgtb (cardinality_ratio sample) 0.3%Q
         && Qgtb 0.95%Q (cardinality_ratio sample))
        && Qgtb (inject_Z (total_count sample) * 0.1)%Q
                (inject_Z (null_count sample)) in
      Ok (Profile (table_id sample) (column_name sample)
                  (total_count sample) (distinct_count sample)
                  (null_count sample) (cardinality_ratio sample)
                  is_likely_key is_likely_fk
                  (take 10 (sample_values sample)))
    end).

(** ** Invariant of the path search *)

(** The number of edges of a queue entry of [find_path]. *)
Definition depth (en : entry) : nat := length en.1.2.

(** The invariant of the loop of [find_path] that makes the search
    breadth-first; [vd] records the depth at which each visited id was
    dequeued. *)
Record path_inv (E : list GraphEdge) (a b : string) (k : Z)
    (queue : list entry) (visited : gset string) (vd : gmap string nat)
  : Prop := {
  pinv_dom : dom vd = visited;
  pinv_target : b ∉ visited;
  pinv_len : ∀ en : entry, en ∈ queue → length en.1.1.2 = S (depth en);
  pinv_bound : ∀ en : entry,
    en ∈ queue → depth en = O ∨ (Z.of_nat (depth en) ≤ k)%Z;
  pinv_sorted : StronglySorted (λ p q : entry, (depth p ≤ depth q)%nat) queue;
  pinv_spread : ∀ p q : entry,
    p ∈ queue → q ∈ queue → (depth q ≤ S (depth p))%nat;
  pinv_behind : ∀ x dx (p : entry),
    vd !! x = Some dx → p ∈ queue → (dx ≤ depth p)%nat;
  pinv_expanded : ∀ z dz e,
    vd !! z = Some dz → e ∈ E → from_node e = z →
    ((Z.of_nat dz + 1 < k)%Z ∨ to_node e = b) →
    (∃ dw, vd !! to_node e = Some dw ∧ (dw ≤ S dz)%nat)
    ∨ (∃ en : entry, en ∈ queue ∧ en.1.1.1 = to_node e ∧ depth en = S dz);
  pinv_start : (0 < k)%Z →
    vd !! a = Some O
    ∨ (∃ en : entry, en ∈ queue ∧ en.1.1.1 = a ∧ depth en = O)
}.

(** ** Helpers of the statements *)

(** A function applied to the value a computation returns. *)
Definition result_map {A B} (f : A → B) (r : result A) : result B :=
  match r with
  | Ok a => Ok (f a)
  | Raise e => Raise e
  end.

(** The ids [add_node] was called with. *)
Definition node_ids_of (calls : list call) : list string :=
  flat_map (λ c, match c with
                 | AddNode n => [node_id n]
                 | AddEdge _ _ => []
                 end) calls.

(** ** Order of a traversal *)

(** [x] is at most as far from [a] as [y]: every walk to [y] is matched
    by a walk to [x] that is no longer. *)
Definition nearer (E : list GraphEdge) (rel : option RelationType) (a : string)
    (x y : string) : Prop :=
  ∀ j, walk E rel a j y → ∃ i, (i ≤ j)%nat ∧ walk E rel a i x.

(** The order of the nodes collected so far: by the depth at which they
    were visited. *)
Definition by_depth (vd : gmap string Z) (n m : GraphNode) : Prop :=
  ∀ dn dm, vd !! node_id n = Some dn → vd !! node_id m = Some dm → dn ≤ dm.

(** * Properties *)

(** ** Comparisons on rationals *)

Lemma Qgtb_true x y : Qgtb x y = true ↔ (y < x)%Q.
Proof.
  unfold Qgtb. destruct (Qlt_le_dec y x) as [H|H]; split; intros; try done.
  exfalso. eapply Qlt_not_le; eauto.
Qed.

Lemma Qgtb_false x y : Qgtb x y = false ↔ (x <= y)%Q.
Proof.
  unfold Qgtb. destruct (Qlt_le_dec y x) as [H|H]; split; intros; try done.
  exfalso. eapply Qlt_not_le; eauto.
Qed.

Lemma Qgtb_Qeq x x' y : (x == x')%Q → Qgtb x y = Qgtb x' y.
Proof.
  intros E. destruct (Qgtb x' y) eqn:H.
  - apply Qgtb_true. rewrite E. by apply Qgtb_true.
  - apply Qgtb_false. rewrite E. by apply Qgtb_false.
Qed.

(** ** The graph engine *)


(** C10. [add_node] always succeeds and the last write wins: the node
    stored under the id is the one just added, whether or not the id was
    present; every other id keeps its node, and both adjacency maps, hence
    the outgoing and incoming edge lists of every node, are unchanged. *)
Theorem add_node_last_write_wins (g : GraphEngine) (n : GraphNode) :
  get_node (add_node g n) (node_id n) = Some n
  ∧ (∀ id, id ≠ node_id n → get_node (add_node g n) id = get_node g id)
  ∧ edges (add_node g n) = edges g
  ∧ reverse_edges (add_node g n) = reverse_edges g
  ∧ (∀ id, get_outgoing_edges (add_node g n) id = get_outgoing_edges g id
           ∧ get_incoming_edges (add_node g n) id = get_incoming_edges g id).
Proof.
  unfold get_node, add_node; simpl. split_and!; try done.
  - apply lookup_insert_eq.
  - intros id Hne. by rewrite lookup_insert_ne.
Qed.

(** C9. For a node [a] of the graph and any depth bound [k] (zero and
    negative bounds included, with or without edges at [a]),
    [find_path a a k] returns the path with nodes [[a]], no edge and total
    strength 1. *)
Theorem find_path_to_itself (g : GraphEngine) (a : string) (k : Z) :
  a ∈ dom (nodes g) →
  find_path g a a k
  = Some (Some {| start_node := a; end_node := a; path_nodes := [a];
                  path_edges := []; total_strength := 1%Q |}).
Proof.
  intros Ha. unfold find_path.
  rewrite decide_False by tauto.
  unfold budget. simpl. by rewrite decide_True.
Qed.

Lemma find_path_to_itself_witness :
  "B" ∈ dom (nodes scenario_b)
  ∧ find_path scenario_b "B" "B" 0
    = Some (Some {| start_node := "B"; end_node := "B"; path_nodes := ["B"];
                    path_edges := []; total_strength := 1%Q |}).
Proof.
  assert (H : "B" ∈ dom (nodes scenario_b)).
  { apply elem_of_dom. vm_compute. eauto. }
  split; [exact H | exact (find_path_to_itself scenario_b "B" 0 H)].
Defined.


(** *** How the adjacency maps represent the edges *)

Lemma build_snoc (calls : list call) (c : call) :
  build (calls ++ [c]) = run_call (build calls) c.
Proof. unfold build. by rewrite foldl_app. Qed.

Lemma edges_of_snoc (calls : list call) (c : call) :
  edges_of (calls ++ [c]) = edges_of calls ++ edges_of [c].
Proof. unfold edges_of. by rewrite flat_map_app. Qed.

Lemma lookup_append_at (d : gmap string (list GraphEdge)) (k k' : string)
    (e : GraphEdge) :
  default [] (append_at d k e !! k')
  = default [] (d !! k') ++ (if decide (k = k') then [e] else []).
Proof.
  unfold append_at. destruct (decide (k = k')) as [->|Hne].
  - by rewrite lookup_insert_eq.
  - rewrite lookup_insert_ne by done. by rewrite app_nil_r.
Qed.

Lemma outgoing_build (calls : list call) (k : string) :
  get_outgoing_edges (build calls) k
  = filter (λ e, from_node e = k) (edges_of calls).
Proof.
  unfold get_outgoing_edges.
  induction calls as [|c calls IH] using rev_ind; [done|].
  rewrite build_snoc, edges_of_snoc, filter_app, <- IH.
  destruct c as [n|e [|]]; cbn [run_call add_node add_edge edges reverse_edges
                                  edges_of flat_map app reverse from_node to_node].
  - by rewrite filter_nil, app_nil_r.
  - rewrite !lookup_append_at, <- app_assoc.
    rewrite filter_cons, filter_cons, filter_nil.
    cbn [from_node to_node].
    by repeat case_decide.
  - rewrite lookup_append_at.
    rewrite filter_cons, filter_nil. by repeat case_decide.
Qed.

Lemma incoming_build (calls : list call) (k : string) :
  get_incoming_edges (build calls) k
  = filter (λ e, to_node e = k) (edges_of calls).
Proof.
  unfold get_incoming_edges.
  induction calls as [|c calls IH] using rev_ind; [done|].
  rewrite build_snoc, edges_of_snoc, filter_app, <- IH.
  destruct c as [n|e [|]]; cbn [run_call add_node add_edge edges reverse_edges
                                  edges_of flat_map app reverse from_node to_node].
  - by rewrite filter_nil, app_nil_r.
  - rewrite !lookup_append_at, <- app_assoc.
    rewrite filter_cons, filter_cons, filter_nil.
    cbn [from_node to_node].
    by repeat case_decide.
  - rewrite lookup_append_at.
    rewrite filter_cons, filter_nil. by repeat case_decide.
Qed.

Lemma elem_of_flat_map {A B} (f : A → list B) (l : list A) (x : B) :
  x ∈ flat_map f l ↔ ∃ y, y ∈ l ∧ x ∈ f y.
Proof.
  rewrite list_elem_of_In, in_flat_map. by setoid_rewrite list_elem_of_In.
Qed.

Lemma edges_of_provenance (calls : list call) (e : GraphEdge) :
  e ∈ edges_of calls →
  ∃ e0 b, AddEdge e0 b ∈ calls ∧ (e = e0 ∨ (b = true ∧ e = reverse e0)).
Proof.
  unfold edges_of. rewrite elem_of_flat_map. intros (c & Hc & He).
  destruct c as [n|e0 [|]]; [by apply elem_of_nil in He| |].
  - exists e0, true. split; [done|].
    apply elem_of_cons in He as [->|He]; [by left|].
    apply list_elem_of_singleton in He as ->. by right.
  - exists e0, false. split; [done|].
    apply list_elem_of_singleton in He as ->. by left.
Qed.

Lemma nodes_build_keyed (calls : list call) (id : string) (n : GraphNode) :
  nodes (build calls) !! id = Some n → node_id n = id.
Proof.
  revert id n. induction calls as [|c calls IH] using rev_ind; intros id n.
  - cbn. by rewrite lookup_empty.
  - rewrite build_snoc. destruct c as [m|e b]; simpl.
    + destruct (decide (node_id m = id)) as [<-|Hne].
      * rewrite lookup_insert_eq. by intros [= ->].
      * rewrite lookup_insert_ne by done. apply IH.
    + destruct b; apply IH.
Qed.

(** *** Neighbours *)

Lemma elem_of_collect_neighbors (id x : string) (es : list GraphEdge) :
  x ∈ collect_neighbors id es
  ↔ ∃ e, e ∈ es ∧ ((from_node e = id ∧ x = to_node e)
                   ∨ (from_node e ≠ id ∧ x = from_node e)).
Proof.
  unfold collect_neighbors.
  assert (G : ∀ acc : gset string,
    x ∈ foldl (λ (neighbors : gset string) edge,
                 if decide (from_node edge = id)
                 then {[to_node edge]} ∪ neighbors
                 else {[from_node edge]} ∪ neighbors) acc es
    ↔ x ∈ acc ∨ ∃ e, e ∈ es ∧ ((from_node e = id ∧ x = to_node e)
                              ∨ (from_node e ≠ id ∧ x = from_node e))).
  { induction es as [|e es IH]; intros acc; simpl.
    - split; [by left | intros [?|(e & He & _)]; [done | by apply elem_of_nil in He]].
    - rewrite IH. split.
      + intros [Hx|(e' & He' & H)].
        * case_decide; apply elem_of_union in Hx as [Hx|Hx];
            try (by left); apply elem_of_singleton in Hx;
            right; exists e; split; [left| |left|]; auto.
        * right. exists e'. split; [by right | done].
      + intros [Hx|(e' & He' & H)].
        * left. case_decide; apply elem_of_union; by right.
        * apply elem_of_cons in He' as [->|He'].
          -- left. destruct H as [[? ->]|[? ->]]; case_decide; try done;
               apply elem_of_union; left; by apply elem_of_singleton.
          -- right. by exists e'. }
  rewrite G. split; [intros [Hx|?]; [set_solver | done] | by right].
Qed.

Lemma size_collect_neighbors (id : string) (es : list GraphEdge) :
  (size (collect_neighbors id es) ≤ length es)%nat.
Proof.
  unfold collect_neighbors.
  assert (G : ∀ acc : gset string,
    (size (foldl (λ (neighbors : gset string) edge,
                 if decide (from_node edge = id)
                 then {[to_node edge]} ∪ neighbors
                 else {[from_node edge]} ∪ neighbors) acc es)
     ≤ size acc + length es)%nat).
  { induction es as [|e es IH]; intros acc; simpl; [lia|].
    etrans; [apply IH|].
    assert (∀ y : string, (size ({[y]} ∪ acc) ≤ S (size acc))%nat).
    { intros y. rewrite size_union_alt, size_singleton.
      assert (size (acc ∖ {[y]}) ≤ size acc)%nat
        by (apply subseteq_size, subseteq_difference_l; done).
      lia. }
    case_decide; match goal with |- (size ({[?y]} ∪ _) + _ ≤ _)%nat =>
      specialize (H y) end; lia. }
  specialize (G ∅). rewrite size_empty in G. lia.
Qed.

Lemma elem_of_get_neighbors (calls : list call) (rel : option RelationType)
    (x y : string) :
  y ∈ get_neighbors (build calls) x rel ↔ adjacent (edges_of calls) rel x y.
Proof.
  unfold get_neighbors, adjacent.
  rewrite elem_of_elements, elem_of_collect_neighbors.
  assert (Hin : ∀ e,
    e ∈ match rel with
        | Some rt => filter (λ e, relation_type e = rt) (get_all_edges (build calls) x)
        | None => get_all_edges (build calls) x
        end
    ↔ e ∈ edges_of calls ∧ (∀ rt, rel = Some rt → relation_type e = rt)
      ∧ (from_node e = x ∨ to_node e = x)).
  { intros e. unfold get_all_edges. rewrite outgoing_build, incoming_build.
    destruct rel as [rt|].
    - rewrite list_elem_of_filter, elem_of_app, !list_elem_of_filter.
      split.
      + intros (Hrt & [[? ?]|[? ?]]); split_and!; auto; by intros ? [= <-].
      + intros (? & Hrt & [?|?]); split; auto.
    - rewrite elem_of_app, !list_elem_of_filter.
      split; [intros [[? ?]|[? ?]]; split_and!; auto; done | intros (? & _ & [?|?]); auto]. }
  split.
  - intros (e & He & Hcase). apply Hin in He as (He & Hrt & Hend).
    exists e. split_and!; auto.
    destruct Hcase as [[Hf ->]|[Hf ->]]; [by left|].
    right. destruct Hend; [done | by split].
  - intros (e & He & Hrt & Hcase). exists e. split.
    + apply Hin. split_and!; auto. destruct Hcase as [[? ?]|[? ?]]; auto.
    + destruct Hcase as [[? ?]|[? ?]]; [by left|].
      destruct (decide (from_node e = x)) as [Heq|Hne].
      * left. split; [done|]. congruence.
      * right. by split.
Qed.

(** C8. In every graph built by [add_node] and [add_edge] calls, the list
    [get_neighbors id] has no duplicate, and it contains [id] itself only
    if one of the calls added an edge from [id] to [id]. *)
Theorem get_neighbors_distinct_and_self_only_by_loop (calls : list call)
    (id : string) (rel : option RelationType) :
  NoDup (get_neighbors (build calls) id rel)
  ∧ (id ∈ get_neighbors (build calls) id rel →
     ∃ e b, AddEdge e b ∈ calls ∧ from_node e = id ∧ to_node e = id).
Proof.
  split; [apply NoDup_elements|].
  intros Hin. apply elem_of_get_neighbors in Hin as (e & He & _ & Hself).
  assert (from_node e = id ∧ to_node e = id) as [Hf Ht] by (destruct Hself; tauto).
  apply edges_of_provenance in He as (e0 & b & Hcall & [->|[_ ->]]).
  - by exists e0, b.
  - exists e0, b. by split.
Qed.

(** *** Relationship strength *)

Lemma elem_of_map {A B} (f : A → B) (l : list A) (y : B) :
  y ∈ map f l ↔ ∃ x, y = f x ∧ x ∈ l.
Proof.
  rewrite list_elem_of_In, in_map_iff. setoid_rewrite list_elem_of_In.
  split; intros (x & ? & ?); exists x; auto.
Qed.

Lemma py_max_spec (x : Q) (xs : list Q) :
  py_max x xs ∈ x :: xs ∧ ∀ y, y ∈ x :: xs → (y <= py_max x xs)%Q.
Proof.
  unfold py_max. revert x.
  induction xs as [|z xs IH]; intros x; simpl.
  - split; [by left|]. intros y Hy. apply list_elem_of_singleton in Hy as ->.
    apply Qle_refl.
  - destruct (IH (if Qgtb z x then z else x)) as [Hin Hmax]. split.
    + apply elem_of_cons in Hin as [->|Hin].
      * destruct (Qgtb z x); [right; by left | by left].
      * by do 2 right.
    + intros y Hy. apply elem_of_cons in Hy as [->|Hy].
      * eapply Qle_trans; [|apply Hmax; by left].
        destruct (Qgtb z x) eqn:E; [|apply Qle_refl].
        apply Qgtb_true in E. by apply Qlt_le_weak.
      * apply elem_of_cons in Hy as [->|Hy].
        -- eapply Qle_trans; [|apply Hmax; by left].
           destruct (Qgtb z x) eqn:E; [apply Qle_refl|]. by apply Qgtb_false.
        -- apply Hmax. by right.
Qed.

Lemma py_min_Qmin (x y : Q) : (py_min x y == Qmin x y)%Q.
Proof.
  unfold py_min. destruct (Qgtb x y) eqn:E.
  - apply Qgtb_true in E. symmetry. apply Q.min_r. by apply Qlt_le_weak.
  - apply Qgtb_false in E. symmetry. by apply Q.min_l.
Qed.

Lemma direct_edges_build (calls : list call) (a b : string) :
  filter (λ e, to_node e = b) (get_outgoing_edges (build calls) a)
  = filter (λ e, from_node e = a ∧ to_node e = b) (edges_of calls).
Proof.
  rewrite outgoing_build. induction (edges_of calls) as [|e es IH]; [done|].
  rewrite !filter_cons. repeat case_decide; rewrite ?filter_cons;
    repeat case_decide; try tauto; by rewrite IH.
Qed.

(** C3. In every graph built by [add_node] and [add_edge] calls:
    when direct edges from [a] to [b] exist,
    [calculate_relationship_strength] returns the largest of their
    strengths; otherwise, when the neighbour sets of [a] and [b]
    intersect, it returns the smaller of a tenth of the number of shared
    neighbours and 0.5; otherwise it returns 0.  With every edge strength
    in [0,1], which is the range the data model gives a strength, the
    result is in [0,1]. *)
Theorem calculate_relationship_strength_cases (calls : list call) (a b : string) :
  let g := build calls in
  let direct := filter (λ e, from_node e = a ∧ to_node e = b) (edges_of calls) in
  let shared : gset string :=
    list_to_set (get_neighbors g a None) ∩ list_to_set (get_neighbors g b None) in
  let r := calculate_relationship_strength g a b in
  (direct ≠ [] →
   (∃ e, e ∈ direct ∧ r = strength e) ∧ (∀ e, e ∈ direct → (strength e <= r)%Q))
  ∧ (direct = [] → shared ≠ ∅ →
     (r == Qmin (inject_Z (Z.of_nat (size shared)) / 10) 0.5)%Q)
  ∧ (direct = [] → shared = ∅ → r = 0%Q)
  ∧ ((∀ e, e ∈ edges_of calls → (0 <= strength e <= 1)%Q) → (0 <= r <= 1)%Q).
Proof.
  intros g direct shared r.
  assert (Hr : r = match direct with
                   | e :: rest => py_max (strength e) (map strength rest)
                   | [] => if decide (shared = ∅) then 0%Q
                           else py_min (inject_Z (Z.of_nat (size shared)) / 10)%Q 0.5%Q
                   end).
  { unfold r, g, calculate_relationship_strength.
    rewrite (direct_edges_build calls a b). reflexivity. }
  assert (Hmax : direct ≠ [] →
    (∃ e, e ∈ direct ∧ r = strength e) ∧ (∀ e, e ∈ direct → (strength e <= r)%Q)).
  { intros Hne. rewrite Hr. destruct direct as [|e rest]; [done|].
    destruct (py_max_spec (strength e) (map strength rest)) as [Hin Hle]. split.
    - change (strength e :: map strength rest) with (map strength (e :: rest)) in Hin.
      apply elem_of_map in Hin as (e' & He' & Hin). by exists e'.
    - intros e' He'. apply Hle.
      change (strength e :: map strength rest) with (map strength (e :: rest)).
      apply elem_of_map. by exists e'. }
  assert (Hmin : direct = [] → shared ≠ ∅ →
    (r == Qmin (inject_Z (Z.of_nat (size shared)) / 10) 0.5)%Q).
  { intros Hd Hs. rewrite Hr, Hd. rewrite decide_False by done. apply py_min_Qmin. }
  assert (Hzero : direct = [] → shared = ∅ → r = 0%Q).
  { intros Hd Hs. rewrite Hr, Hd. by rewrite decide_True. }
  split_and!; try done.
  intros Hunit. destruct (decide (direct = [])) as [Hd|Hd].
  - destruct (decide (shared = ∅)) as [Hs|Hs].
    + rewrite (Hzero Hd Hs). split; [apply Qle_refl | done].
    + rewrite (Hmin Hd Hs).
      assert (0 <= inject_Z (Z.of_nat (size shared)) / 10)%Q as Hpos.
      { apply Qle_shift_div_l; [done|]. rewrite Qmult_0_l.
        change 0%Q with (inject_Z 0). rewrite <- Zle_Qle. lia. }
      split.
      * apply Q.min_glb; [done | done].
      * eapply Qle_trans; [apply Q.le_min_r | done].
  - destruct (Hmax Hd) as [(e & He & ->) _].
    apply Hunit. apply list_elem_of_filter in He. tauto.
Qed.

Lemma calculate_relationship_strength_cases_witness :
  (0 <= calculate_relationship_strength (build scenario_c_calls) "A" "C" <= 1)%Q.
Proof.
  destruct (calculate_relationship_strength_cases scenario_c_calls "A" "C")
    as (_ & _ & _ & Hrange).
  apply Hrange. apply Forall_forall.
  repeat constructor; vm_compute; discriminate.
Defined.

(** Outside the data model the range is not kept: [add_edge] stores a
    strength as it is given and a direct edge's strength is returned
    unchanged, so an edge of strength 2 gives 2. *)
Example strength_outside_data_model :
  calculate_relationship_strength (build out_of_range_calls) "A" "B" = 2%Q
  ∧ ¬ (0 <= calculate_relationship_strength (build out_of_range_calls) "A" "B"
       <= 1)%Q.
Proof.
  split; [reflexivity|]. intros [_ Hle]. vm_compute in Hle. by apply Hle.
Qed.

Example scenario_c_strengths :
  calculate_relationship_strength scenario_c "A" "B" = 1.0%Q
  ∧ (calculate_relationship_strength scenario_c "A" "C" == 0.1)%Q
  ∧ calculate_relationship_strength scenario_c "A" "D" = 0%Q.
Proof. split_and!; reflexivity. Qed.


(** *** The iteration budget *)

Lemma elem_of_concat {A} (ls : list (list A)) (l : list A) (x : A) :
  l ∈ ls → x ∈ l → x ∈ concat ls.
Proof.
  induction ls as [|l' ls IH]; intros Hl Hx; [by apply elem_of_nil in Hl|].
  simpl. apply elem_of_app. apply elem_of_cons in Hl as [->|Hl]; [by left|].
  right. by apply IH.
Qed.

Lemma length_concat_ge {A} (ls : list (list A)) (l : list A) :
  l ∈ ls → (length l ≤ length (concat ls))%nat.
Proof.
  induction ls as [|l' ls IH]; intros Hl; [by apply elem_of_nil in Hl|].
  simpl. rewrite length_app. apply elem_of_cons in Hl as [->|Hl]; [lia|].
  specialize (IH Hl). lia.
Qed.

Lemma stored_lookup (d : gmap string (list GraphEdge)) (k : string) :
  (∀ e, e ∈ default [] (d !! k) → e ∈ stored d)
  ∧ (length (default [] (d !! k)) ≤ length (stored d))%nat.
Proof.
  destruct (d !! k) as [l|] eqn:Hk; simpl.
  - assert (l ∈ map snd (map_to_list d)).
    { apply elem_of_map. exists (k, l). split; [done|].
      by apply elem_of_map_to_list. }
    split; [intros e He; by eapply elem_of_concat | by apply length_concat_ge].
  - split; [intros e He; by apply elem_of_nil in He | lia].
Qed.

Lemma universe_start (g : GraphEngine) (a : string) : a ∈ universe g a.
Proof. unfold universe. apply elem_of_union; left. apply elem_of_union; left.
  by apply elem_of_singleton. Qed.

Lemma universe_outgoing (g : GraphEngine) (a x : string) (e : GraphEdge) :
  e ∈ get_outgoing_edges g x → to_node e ∈ universe g a.
Proof.
  intros He. apply (proj1 (stored_lookup (edges g) x)) in He.
  unfold universe. apply elem_of_union; right.
  apply elem_of_list_to_set, elem_of_map. exists e. split; [done|].
  apply elem_of_app. by left.
Qed.

Lemma universe_incoming (g : GraphEngine) (a x : string) (e : GraphEdge) :
  e ∈ get_incoming_edges g x → from_node e ∈ universe g a.
Proof.
  intros He. apply (proj1 (stored_lookup (reverse_edges g) x)) in He.
  unfold universe. apply elem_of_union; left. apply elem_of_union; right.
  apply elem_of_list_to_set, elem_of_map. exists e. split; [done|].
  apply elem_of_app. by right.
Qed.

Lemma measure_skip (U : gset string) (bound : nat) {A} (x : A) (queue : list A)
    (visited : gset string) :
  (measure U bound queue visited < measure U bound (x :: queue) visited)%nat.
Proof. unfold measure. simpl. lia. Qed.

Lemma measure_expand (U : gset string) (bound : nat) {A} (x : A)
    (queue new : list A) (visited : gset string) (id : string) :
  id ∈ U → id ∉ visited → (length new ≤ bound)%nat →
  (measure U bound (queue ++ new) ({[id]} ∪ visited)
   < measure U bound (x :: queue) visited)%nat.
Proof.
  intros HU Hv Hnew. unfold measure. rewrite length_app. simpl.
  assert (size (U ∖ ({[id]} ∪ visited)) < size (U ∖ visited))%nat.
  { apply subset_size. split.
    - intros y Hy. apply elem_of_difference in Hy as [? Hy].
      apply elem_of_difference. split; [done|]. intros ?. apply Hy.
      apply elem_of_union. by right.
    - intros Hsub. assert (id ∈ U ∖ visited) as Hid by (by apply elem_of_difference).
      apply Hsub in Hid. apply elem_of_difference in Hid as [_ Hid]. apply Hid.
      apply elem_of_union. left. by apply elem_of_singleton. }
  nia.
Qed.

Lemma find_path_loop_returns (g : GraphEngine) (a b : string) (k : Z)
    (fuel : nat) (queue : list entry) (visited : gset string) :
  Forall (λ en : entry, en.1.1.1 ∈ universe g a) queue →
  (measure (universe g a)
           (length (stored (edges g)) + length (stored (reverse_edges g)))
           queue visited < fuel)%nat →
  ∃ r, find_path_loop fuel g a b k queue visited = Some r.
Proof.
  revert queue visited. induction fuel as [|fuel IH]; intros queue visited Hq Hm;
    [lia|].
  destruct queue as [|[[[x path] es] s] queue]; simpl; [eauto|].
  destruct (decide (x = b)); [eauto|].
  apply Forall_cons in Hq as [Hx Hq]. simpl in Hx.
  destruct (decide (_ ∨ _)) as [Hskip|Hgo].
  - apply IH; [done|]. eapply Nat.lt_le_trans; [apply measure_skip|]. 
    apply Nat.lt_succ_r. exact Hm.
  - apply IH.
    + apply Forall_app. split; [done|]. apply Forall_forall.
      intros en Hen. apply elem_of_map in Hen as (e & -> & He).
      apply list_elem_of_filter in He as [_ He]. simpl.
      by eapply universe_outgoing.
    + eapply Nat.lt_le_trans; [|apply Nat.lt_succ_r; exact Hm].
      apply measure_expand; [done | tauto |].
      rewrite length_map.
      etrans; [apply length_filter|].
      etrans; [apply (proj2 (stored_lookup (edges g) x))|]. lia.
Qed.

(** *** Paths found *)

Lemma elem_of_outgoing_build (calls : list call) (x : string) (e : GraphEdge) :
  e ∈ get_outgoing_edges (build calls) x ↔ e ∈ edges_of calls ∧ from_node e = x.
Proof. rewrite outgoing_build, list_elem_of_filter. tauto. Qed.

Lemma strength_product_snoc (es : list GraphEdge) (e : GraphEdge) :
  strength_product (es ++ [e]) = (strength_product es * strength e)%Q.
Proof. unfold strength_product. by rewrite foldl_app. Qed.

Lemma find_path_loop_sound (calls : list call) (a b : string) (k : Z)
    (fuel : nat) (queue : list entry) (visited : gset string) (p : GraphPath) :
  Forall (entry_ok (edges_of calls) a k) queue →
  find_path_loop fuel (build calls) a b k queue visited = Some (Some p) →
  path_ok (edges_of calls) a b k p.
Proof.
  revert queue visited. induction fuel as [|fuel IH]; intros queue visited Hq;
    [done|].
  destruct queue as [|[[[x path] es] s] queue]; simpl; [done|].
  apply Forall_cons in Hq as [(Hpath & Hnodes & Hs & Hlen) Hq].
  destruct (decide (x = b)) as [->|Hxb].
  { intros [= <-]. by split_and!. }
  destruct (decide (_ ∨ _)) as [Hskip|Hgo]; [by apply IH|].
  apply IH. apply Forall_app. split; [done|]. apply Forall_forall.
  intros en Hen. apply elem_of_map in Hen as (e & -> & He).
  apply list_elem_of_filter in He as [_ He].
  apply elem_of_outgoing_build in He as [He Hfrom].
  split_and!.
  - by econstructor.
  - rewrite Hnodes, map_app. done.
  - by rewrite strength_product_snoc, Hs.
  - right. rewrite length_app. simpl.
    assert (¬ Z.of_nat (length path) > k) by tauto.
    rewrite Hnodes in H. simpl in H. rewrite length_map in H. lia.
Qed.

(** C1, amended. In every graph built by [add_node] and [add_edge]
    calls, [find_path a b k] returns; for [k >= 0] it returns no path when
    no directed path from [a] to [b] of at most [k] edges exists; and a
    path it returns is a directed path from [a] to [b] whose total
    strength is the product of the strengths of its edges and whose node
    list has one node more than it has edges. *)
Theorem find_path_result (calls : list call) (a b : string) (k : Z) :
  ∃ r,
    find_path (build calls) a b k = Some r
    ∧ (0 ≤ k →
       (¬ ∃ es, dpath (edges_of calls) a es b ∧ (Z.of_nat (length es) ≤ k)%Z) →
       r = None)
    ∧ (∀ p, r = Some p →
         dpath (edges_of calls) a (path_edges p) b
         ∧ total_strength p = strength_product (path_edges p)
         ∧ length (path_nodes p) = S (length (path_edges p))
         ∧ path_nodes p = a :: map to_node (path_edges p)).
Proof.
  assert (Hsound : ∀ p, find_path (build calls) a b k = Some (Some p) →
                        path_ok (edges_of calls) a b k p).
  { unfold find_path. intros p. case_decide; [done|].
    apply find_path_loop_sound. apply Forall_singleton.
    split_and!; [constructor | done | done | by left]. }
  assert (Hret : ∃ r, find_path (build calls) a b k = Some r).
  { unfold find_path. case_decide; [eauto|].
    apply find_path_loop_returns.
    - apply Forall_singleton. apply universe_start.
    - unfold measure, budget. simpl.
      replace (universe (build calls) a ∖ ∅) with (universe (build calls) a)
        by (apply set_eq; intros y; rewrite elem_of_difference;
            split; [intros ?; split; [done | apply not_elem_of_empty] | tauto]).
      lia. }
  destruct Hret as [r Hr]. exists r. split_and!; [done | |].
  - intros Hk Hnone. destruct r as [p|]; [|done]. exfalso. apply Hnone.
    destruct (Hsound p Hr) as (_ & _ & Hpath & _ & _ & Hlen).
    exists (path_edges p). split; [done|].
    destruct Hlen as [->|?]; [simpl; lia | done].
  - intros p ->. destruct (Hsound p Hr) as (_ & _ & Hpath & Hnodes & Hs & _).
    split_and!; try done. rewrite Hnodes. simpl. by rewrite length_map.
Qed.

Lemma find_path_result_witness :
  ∃ r,
    find_path scenario_b "A" "C" 2 = Some r
    ∧ (0 ≤ 2 →
       (¬ ∃ es, dpath (edges_of scenario_b_calls) "A" es "C"
                ∧ (Z.of_nat (length es) ≤ 2)%Z) →
       r = None)
    ∧ (∀ p, r = Some p →
         dpath (edges_of scenario_b_calls) "A" (path_edges p) "C"
         ∧ total_strength p = strength_product (path_edges p)
         ∧ length (path_nodes p) = S (length (path_edges p))
         ∧ path_nodes p = "A" :: map to_node (path_edges p)).
Proof. exact (find_path_result scenario_b_calls "A" "C" 2). Defined.

Example scenario_b_strength :
  ∃ p, find_path scenario_b "A" "C" 2 = Some (Some p)
       ∧ path_nodes p = ["A"; "B"; "C"]
       ∧ (total_strength p == 0.6)%Q.
Proof. eexists. split; [vm_compute; reflexivity|]. by split. Qed.

(** C1 as stated fails for a negative depth bound: no path has at most
    [-1] edges, and yet the search from a node to itself returns the
    empty path. *)
Lemma find_path_negative_depth_counterexample :
  (¬ ∃ es, dpath (edges_of [AddNode (node "A")]) "A" es "A"
           ∧ (Z.of_nat (length es) ≤ -1)%Z)
  ∧ find_path (build [AddNode (node "A")]) "A" "A" (-1)
    = Some (Some {| start_node := "A"; end_node := "A"; path_nodes := ["A"];
                    path_edges := []; total_strength := 1%Q |}).
Proof.
  split; [intros (es & _ & Hlen); lia | reflexivity].
Qed.

(** *** Related entities: the loop returns *)

Lemma universe_all_edges (g : GraphEngine) (a x : string) (e : GraphEdge) :
  e ∈ get_all_edges g x →
  from_node e ∈ universe g a ∧ to_node e ∈ universe g a.
Proof.
  intros He.
  assert (e ∈ stored (edges g) ++ stored (reverse_edges g)) as Hst.
  { apply elem_of_app in He as [He|He]; apply elem_of_app.
    - left. by apply (proj1 (stored_lookup (edges g) x)).
    - right. by apply (proj1 (stored_lookup (reverse_edges g) x)). }
  unfold universe. split.
  - apply elem_of_union; left. apply elem_of_union; right.
    apply elem_of_list_to_set, elem_of_map. by exists e.
  - apply elem_of_union; right.
    apply elem_of_list_to_set, elem_of_map. by exists e.
Qed.

Lemma get_neighbors_universe (g : GraphEngine) (a x y : string)
    (rel : option RelationType) :
  y ∈ get_neighbors g x rel → y ∈ universe g a.
Proof.
  unfold get_neighbors. rewrite elem_of_elements, elem_of_collect_neighbors.
  intros (e & He & Hy).
  assert (e ∈ get_all_edges g x) as Hall.
  { destruct rel; [by apply list_elem_of_filter in He as [_ He] | done]. }
  destruct (universe_all_edges g a x e Hall) as [Hf Ht].
  by destruct Hy as [[_ ->]|[_ ->]].
Qed.

Lemma length_get_neighbors (g : GraphEngine) (x : string)
    (rel : option RelationType) :
  (length (get_neighbors g x rel)
   ≤ length (stored (edges g)) + length (stored (reverse_edges g)))%nat.
Proof.
  unfold get_neighbors.
  change (length (elements ?X)) with (size X).
  etrans; [apply size_collect_neighbors|].
  assert (length (get_all_edges g x)
          ≤ length (stored (edges g)) + length (stored (reverse_edges g)))%nat.
  { unfold get_all_edges. rewrite length_app.
    pose proof (proj2 (stored_lookup (edges g) x)).
    pose proof (proj2 (stored_lookup (reverse_edges g) x)).
    unfold get_outgoing_edges, get_incoming_edges. lia. }
  destruct rel; [|done]. etrans; [apply length_filter | done].
Qed.

Lemma related_loop_returns (g : GraphEngine) (a : string)
    (ety : option EntityType) (rel : option RelationType) (d : Z)
    (fuel : nat) (queue : list (string * Z)) (visited : gset string)
    (related : list GraphNode) :
  Forall (λ p : string * Z, p.1 ∈ universe g a) queue →
  (measure (universe g a)
           (length (stored (edges g)) + length (stored (reverse_edges g)))
           queue visited < fuel)%nat →
  ∃ r, related_loop fuel g a ety rel d queue visited related = Some r.
Proof.
  revert queue visited related.
  induction fuel as [|fuel IH]; intros queue visited related Hq Hm; [lia|].
  destruct queue as [|[x dx] queue]; simpl; [eauto|].
  apply Forall_cons in Hq as [Hx Hq]. simpl in Hx.
  destruct (decide (x ∈ visited)) as [Hv|Hv].
  - apply IH; [done|]. eapply Nat.lt_le_trans; [apply measure_skip|].
    apply Nat.lt_succ_r. exact Hm.
  - match goal with
    | |- ∃ r, match ?b with Ok _ => _ | Raise _ => _ end = _ =>
      destruct b as [related'|err]; [|eauto]
    end.
    destruct (decide (dx < d)).
    + apply IH.
      * apply Forall_app. split; [done|]. apply Forall_forall.
        intros p Hp. apply elem_of_map in Hp as (y & -> & Hy).
        apply list_elem_of_filter in Hy as [_ Hy]. simpl.
        by eapply get_neighbors_universe.
      * eapply Nat.lt_le_trans; [|apply Nat.lt_succ_r; exact Hm].
        apply measure_expand; [done | done |].
        rewrite length_map. etrans; [apply length_filter|].
        apply length_get_neighbors.
    + apply IH; [done|]. eapply Nat.lt_le_trans; [|apply Nat.lt_succ_r; exact Hm].
      pose proof (measure_expand (universe g a)
                    (length (stored (edges g)) + length (stored (reverse_edges g)))
                    (x, dx) queue [] visited x Hx Hv) as Hlt.
      rewrite app_nil_r in Hlt. apply Hlt. simpl. lia.
Qed.

(** *** Related entities: the invariant *)

Lemma walk_O_inv (E : list GraphEdge) (rel : option RelationType) (a x : string) :
  walk E rel a O x → x = a.
Proof. by inversion 1. Qed.

Lemma StronglySorted_app {A} (R : A → A → Prop) (l l' : list A) :
  StronglySorted R l → StronglySorted R l' →
  (∀ x y, x ∈ l → y ∈ l' → R x y) →
  StronglySorted R (l ++ l').
Proof.
  intros Hl Hl' Hcross. induction Hl as [|x l Hl IH Hx]; simpl; [done|].
  constructor.
  - apply IH. intros y z Hy Hz. apply Hcross; [by right | done].
  - apply Forall_app. split; [done|]. apply Forall_forall.
    intros z Hz. apply Hcross; [by left | done].
Qed.

Lemma StronglySorted_same_depth (ns : list string) (c : Z) :
  StronglySorted (λ p q : string * Z, p.2 ≤ q.2) (map (λ n, (n, c)) ns).
Proof.
  induction ns as [|n ns IH]; simpl; constructor; [done|].
  apply Forall_forall. intros p Hp.
  apply elem_of_map in Hp as (m & -> & _). simpl. lia.
Qed.

Section RelatedEntities.

Variable calls : list call.
Variable rel : option RelationType.
Variable a : string.
Variable d : Z.

Lemma related_inv_skip (x : string) (dx : Z) (queue : list (string * Z))
    (visited : gset string) (related : list GraphNode) (vd : gmap string Z) :
  related_inv (build calls) (edges_of calls) rel a d
              ((x, dx) :: queue) visited related vd →
  x ∈ visited →
  related_inv (build calls) (edges_of calls) rel a d queue visited related vd.
Proof.
  intros [Hdom Hq Hv Hsort Hspread Hbehind Hexp Hstart Hnd Hids Hnodes] Hx.
  assert (∃ dv, vd !! x = Some dv ∧ dv ≤ dx) as (dv & Hdv & Hle).
  { rewrite <- Hdom in Hx. apply elem_of_dom in Hx as [dv Hdv].
    exists dv. split; [done|]. apply (Hbehind x dv (x, dx)); [done | by left]. }
  split; try done.
  - intros y dy Hy. apply Hq. by right.
  - by apply StronglySorted_inv in Hsort as [? _].
  - intros p q Hp Hq'. apply Hspread; by right.
  - intros y dy p Hy Hp. apply (Hbehind y dy p); [done | by right].
  - intros z dz w Hz Hlt Hadj.
    destruct (Hexp z dz w Hz Hlt Hadj) as [?|Hin]; [by left|].
    apply elem_of_cons in Hin as [[= -> ->]|Hin]; [|by right].
    left. by exists dv.
  - destruct Hstart as [?|Hin]; [by left|].
    apply elem_of_cons in Hin as [[= -> ->]|Hin]; [|by right].
    left. by exists dv.
Qed.

Lemma related_inv_visit (x : string) (dx : Z) (queue : list (string * Z))
    (visited : gset string) (related : list GraphNode) (vd : gmap string Z)
    (new : list (string * Z)) (related' : list GraphNode) :
  related_inv (build calls) (edges_of calls) rel a d
              ((x, dx) :: queue) visited related vd →
  x ∉ visited →
  new = (if decide (dx < d)
         then map (λ n, (n, dx + 1))
                  (filter (λ n, n ∉ ({[x]} ∪ visited : gset string))
                          (get_neighbors (build calls) x rel))
         else []) →
  (if decide (x ≠ a)
   then ∃ n, nodes (build calls) !! x = Some n ∧ related' = related ++ [n]
   else related' = related) →
  related_inv (build calls) (edges_of calls) rel a d
              (queue ++ new) ({[x]} ∪ visited) related' (<[x := dx]> vd).
Proof.
  intros [Hdom Hq Hv Hsort Hspread Hbehind Hexp Hstart Hnd Hids Hnodes]
         Hx Hnew Hrel.
  assert (Hfront : met (edges_of calls) rel a d x dx) by (apply Hq; by left).
  assert (Hnone : vd !! x = None).
  { apply not_elem_of_dom. by rewrite Hdom. }
  apply StronglySorted_inv in Hsort as [Hsort Hmin].
  rewrite Forall_forall in Hmin.
  assert (Hnew_in : ∀ p, p ∈ new →
            dx < d ∧ p.2 = dx + 1 ∧ (p.1 ∉ ({[x]} ∪ visited : gset string))
            ∧ adjacent (edges_of calls) rel x p.1).
  { intros p Hp. rewrite Hnew in Hp. destruct (decide (dx < d)); [|by apply elem_of_nil in Hp].
    apply elem_of_map in Hp as (n & -> & Hn).
    apply list_elem_of_filter in Hn as [Hn1 Hn2]. simpl.
    split_and!; try done. by apply elem_of_get_neighbors. }
  split.
  - rewrite dom_insert_L. by rewrite Hdom.
  - intros y dy Hy. apply elem_of_app in Hy as [Hy|Hy]; [apply Hq; by right|].
    destruct (Hnew_in _ Hy) as (Hlt & Hd & _ & Hadj). simpl in *. subst dy.
    destruct Hfront as (H0 & Hwalk & _). split_and!; [lia | | right; lia].
    replace (Z.to_nat (dx + 1)) with (S (Z.to_nat dx)) by lia.
    by econstructor.
  - intros y dy Hy. destruct (decide (x = y)) as [<-|Hne].
    + rewrite lookup_insert_eq in Hy. by injection Hy as <-.
    + rewrite lookup_insert_ne in Hy by done. by apply Hv.
  - apply StronglySorted_app; [done | |].
    + rewrite Hnew. destruct (decide (dx < d)); [|constructor].
      apply StronglySorted_same_depth.
    + intros p q Hp Hq'. destruct (Hnew_in _ Hq') as (_ & -> & _).
      apply (Hspread (x, dx) p); [by left | by right].
  - intros p q Hp Hq'.
    apply elem_of_app in Hp as [Hp|Hp]; apply elem_of_app in Hq' as [Hq'|Hq'].
    + apply Hspread; by right.
    + destruct (Hnew_in _ Hq') as (_ & -> & _).
      specialize (Hmin p Hp). simpl in Hmin. lia.
    + destruct (Hnew_in _ Hp) as (_ & -> & _).
      pose proof (Hspread (x, dx) q) as Hs. simpl in Hs.
      assert (q.2 ≤ dx + 1) by (apply Hs; [by left | by right]). lia.
    + destruct (Hnew_in _ Hp) as (_ & -> & _).
      destruct (Hnew_in _ Hq') as (_ & -> & _). lia.
  - intros y dy p Hy Hp.
    assert (dy ≤ dx) as Hdy.
    { destruct (decide (x = y)) as [<-|Hne].
      - rewrite lookup_insert_eq in Hy. injection Hy as <-. lia.
      - rewrite lookup_insert_ne in Hy by done.
        apply (Hbehind y dy (x, dx)); [done | by left]. }
    apply elem_of_app in Hp as [Hp|Hp].
    + specialize (Hmin p Hp). simpl in Hmin. lia.
    + destruct (Hnew_in _ Hp) as (_ & -> & _). lia.
  - intros z dz w Hz Hlt Hadj. destruct (decide (x = z)) as [<-|Hne].
    + rewrite lookup_insert_eq in Hz. injection Hz as <-.
      destruct (decide (w ∈ {[x]} ∪ visited)) as [Hw|Hw].
      * left. apply elem_of_union in Hw as [Hw|Hw].
        -- apply elem_of_singleton in Hw as ->. exists dx.
           rewrite lookup_insert_eq. split; [done | lia].
        -- assert (x ≠ w) by (intros ->; done).
           rewrite <- Hdom in Hw. apply elem_of_dom in Hw as [dw Hdw].
           exists dw. rewrite lookup_insert_ne by done. split; [done|].
           assert (dw ≤ dx) by (apply (Hbehind w dw (x, dx)); [done | by left]).
           lia.
      * right. apply elem_of_app. right. rewrite Hnew.
        rewrite decide_True by done. apply elem_of_map. exists w.
        split; [done|]. apply list_elem_of_filter. split; [done|].
        by apply elem_of_get_neighbors.
    + rewrite lookup_insert_ne in Hz by done.
      destruct (Hexp z dz w Hz Hlt Hadj) as [(dw & Hdw & Hle)|Hin].
      * left. exists dw. split; [|done].
        rewrite lookup_insert_ne; [done|]. intros ->. congruence.
      * apply elem_of_cons in Hin as [[= -> Hd]|Hin].
        -- left. exists dx. rewrite lookup_insert_eq. split; [done | lia].
        -- right. apply elem_of_app. by left.
  - destruct Hstart as [(ds & Hds & Hle)|Hin].
    + left. exists ds. split; [|done].
      rewrite lookup_insert_ne; [done|]. intros ->. congruence.
    + apply elem_of_cons in Hin as [[= Ha Hd]|Hin].
      * left. exists dx. rewrite <- Ha, lookup_insert_eq. split; [done | lia].
      * right. apply elem_of_app. by left.
  - destruct (decide (x ≠ a)) as [Hxa|Hxa].
    + destruct Hrel as (n & Hn & ->). rewrite map_app. simpl.
      rewrite (nodes_build_keyed _ _ _ Hn).
      apply NoDup_app. split_and!; [done | | apply NoDup_singleton].
      intros y Hy Hy'. apply list_elem_of_singleton in Hy' as ->.
      apply Hids in Hy as [? _]. done.
    + by rewrite Hrel.
  - intros y. destruct (decide (x ≠ a)) as [Hxa|Hxa].
    + destruct Hrel as (n & Hn & ->). rewrite map_app. simpl.
      rewrite (nodes_build_keyed _ _ _ Hn).
      rewrite elem_of_app, list_elem_of_singleton, Hids, elem_of_union,
        elem_of_singleton.
      split; [intros [[? ?]| ->]; auto | intros [[->|?] ?]; auto].
    + rewrite Hrel, Hids, elem_of_union, elem_of_singleton.
      assert (x = a) by (destruct (decide (x = a)); [done | contradiction]).
      subst x. split; [intros [? ?]; auto | intros [[->|?] ?]; [done | auto]].
  - intros n Hn. destruct (decide (x ≠ a)) as [Hxa|Hxa].
    + destruct Hrel as (n' & Hn' & ->).
      apply elem_of_app in Hn as [Hn|Hn]; [by apply Hnodes|].
      apply list_elem_of_singleton in Hn as ->.
      by rewrite (nodes_build_keyed _ _ _ Hn').
    + apply Hnodes. by rewrite <- Hrel.
Qed.

Lemma related_inv_final (visited : gset string) (related : list GraphNode)
    (vd : gmap string Z) :
  related_inv (build calls) (edges_of calls) rel a d [] visited related vd →
  NoDup (map node_id related)
  ∧ (∀ n, n ∈ related → nodes (build calls) !! node_id n = Some n)
  ∧ (∀ x, x ∈ map node_id related ↔ x ≠ a ∧ within (edges_of calls) rel a d x).
Proof.
  intros [Hdom Hq Hv Hsort Hspread Hbehind Hexp Hstart Hnd Hids Hnodes].
  split_and!; [done | done |].
  assert (Hcomplete : ∀ n y,
    walk (edges_of calls) rel a n y → Z.of_nat n ≤ d →
    ∃ dy, vd !! y = Some dy ∧ dy ≤ Z.of_nat n).
  { intros n y Hwalk. induction Hwalk as [|n z w Hwalk IH Hadj]; intros Hle.
    - destruct Hstart as [(ds & Hds & ?)|Hin]; [|by apply elem_of_nil in Hin].
      exists ds. split; [done | lia].
    - destruct IH as (dz & Hdz & Hdzn); [lia|].
      destruct (Hexp z dz w Hdz) as [(dw & Hdw & ?)|Hin];
        [lia | done | | by apply elem_of_nil in Hin].
      exists dw. split; [done | lia]. }
  intros x. rewrite Hids. split.
  - intros [Hx Hne]. split; [done|].
    rewrite <- Hdom in Hx. apply elem_of_dom in Hx as [dx Hdx].
    destruct (Hv x dx Hdx) as (H0 & Hwalk & [->|Hle]).
    + apply walk_O_inv in Hwalk. done.
    + exists (Z.to_nat dx). split; [lia | done].
  - intros [Hne (n & Hle & Hwalk)]. split; [|done].
    destruct (Hcomplete n x Hwalk Hle) as (dx & Hdx & _).
    rewrite <- Hdom. apply elem_of_dom. by exists dx.
Qed.

Lemma related_loop_correct (fuel : nat) (queue : list (string * Z))
    (visited : gset string) (related : list GraphNode) (vd : gmap string Z)
    (r : result (list GraphNode)) :
  (∀ x, within (edges_of calls) rel a d x → x ∈ dom (nodes (build calls))) →
  related_inv (build calls) (edges_of calls) rel a d queue visited related vd →
  related_loop fuel (build calls) a None rel d queue visited related = Some r →
  ∃ l, r = Ok l
       ∧ NoDup (map node_id l)
       ∧ (∀ n, n ∈ l → nodes (build calls) !! node_id n = Some n)
       ∧ (∀ x, x ∈ map node_id l ↔ x ≠ a ∧ within (edges_of calls) rel a d x).
Proof.
  intros Hclosed. revert queue visited related vd.
  induction fuel as [|fuel IH]; intros queue visited related vd Hinv; [done|].
  destruct queue as [|[x dx] queue]; simpl.
  { intros [= <-]. exists related. split; [done|]. by eapply related_inv_final. }
  destruct (decide (x ∈ visited)) as [Hx|Hx].
  { apply (IH _ _ _ vd). by eapply related_inv_skip. }
  assert (Hmet : met (edges_of calls) rel a d x dx).
  { apply (inv_queue_met _ _ _ _ _ _ _ _ _ Hinv). by left. }
  assert (Hnext : ∀ related',
    (if decide (x ≠ a)
     then ∃ n, nodes (build calls) !! x = Some n ∧ related' = related ++ [n]
     else related' = related) →
    related_loop fuel (build calls) a None rel d
      (if decide (dx < d)
       then queue ++ map (λ n, (n, dx + 1))
                         (filter (λ n, n ∉ ({[x]} ∪ visited : gset string))
                                 (get_neighbors (build calls) x rel))
       else queue)
      ({[x]} ∪ visited) related' = Some r →
    ∃ l, r = Ok l
         ∧ NoDup (map node_id l)
         ∧ (∀ n, n ∈ l → nodes (build calls) !! node_id n = Some n)
         ∧ (∀ y, y ∈ map node_id l ↔ y ≠ a ∧ within (edges_of calls) rel a d y)).
  { intros related' Hrel. apply (IH _ _ _ (<[x := dx]> vd)).
    pose proof (related_inv_visit x dx queue visited related vd _ related'
                  Hinv Hx eq_refl Hrel) as Hinv'.
    destruct (decide (dx < d)); [done | by rewrite app_nil_r in Hinv']. }
  destruct (decide (x ≠ a)) as [Hxa|Hxa].
  - assert (x ∈ dom (nodes (build calls))) as Hdom.
    { apply Hclosed. destruct Hmet as (H0 & Hwalk & [->|Hle]).
      - apply walk_O_inv in Hwalk. done.
      - exists (Z.to_nat dx). split; [lia | done]. }
    apply elem_of_dom in Hdom as [n Hn]. rewrite Hn.
    apply Hnext. by exists n.
  - by apply Hnext.
Qed.

End RelatedEntities.

Lemma within_closed (E : list GraphEdge) (rel : option RelationType)
    (a : string) (d : Z) (S : gset string) (x : string) :
  a ∈ S →
  Forall (λ e, from_node e ∈ S ∧ to_node e ∈ S) E →
  within E rel a d x → x ∈ S.
Proof.
  intros Ha HE (n & _ & Hwalk). rewrite Forall_forall in HE.
  induction Hwalk as [|n y z _ _ (e & He & _ & Hends)]; [done|].
  destruct (HE e He) as [Hf Ht].
  by destruct Hends as [[_ <-]|[_ <-]].
Qed.


Example scenario_c_related :
  get_related_entities scenario_c "A" None None 2
  = Some (Ok [node "B"; node "C"]).
Proof. vm_compute. reflexivity. Qed.


(** A neighbour that was never added as a node makes the traversal raise
    [KeyError]. *)
Example get_related_entities_dangling_neighbour :
  get_related_entities
    (build [AddNode (node "A"); AddEdge (edge "A" "B" 1.0%Q) false])
    "A" None None 1
  = Some (Raise (KeyError "B")).
Proof. vm_compute. reflexivity. Qed.

(** ** The relationship detector *)

(** *** The insertion-ordered dictionary *)

Lemma dict_get_set_eq {V} (k : endpoints) (v : V) (d : list (endpoints * V)) :
  dict_get k (dict_set k v d) = Some v.
Proof.
  induction d as [|[k' v'] d IH]; simpl.
  - by rewrite decide_True.
  - destruct (decide (k = k')) as [->|Hne]; simpl.
    + by rewrite decide_True.
    + by rewrite decide_False.
Qed.

Lemma dict_get_set_ne {V} (k k0 : endpoints) (v : V) (d : list (endpoints * V)) :
  k0 ≠ k → dict_get k0 (dict_set k v d) = dict_get k0 d.
Proof.
  intros Hne. induction d as [|[k' v'] d IH]; simpl.
  - by rewrite decide_False.
  - destruct (decide (k = k')) as [->|Hne']; simpl.
    + by rewrite !decide_False.
    + destruct (decide (k0 = k')); [done | apply IH].
Qed.

Lemma dict_get_elem_of {V} (k : endpoints) (v : V) (d : list (endpoints * V)) :
  dict_get k d = Some v → (k, v) ∈ d.
Proof.
  induction d as [|[k' v'] d IH]; simpl; [done|].
  destruct (decide (k = k')) as [->|Hne].
  - intros [= ->]. by left.
  - intros H. right. by apply IH.
Qed.

Lemma elem_of_dict_set {V} (k k0 : endpoints) (v v0 : V)
    (d : list (endpoints * V)) :
  (k0, v0) ∈ dict_set k v d → (k0, v0) = (k, v) ∨ (k0, v0) ∈ d.
Proof.
  induction d as [|[k' v'] d IH]; simpl.
  - intros H. apply list_elem_of_singleton in H. by left.
  - destruct (decide (k = k')) as [->|Hne]; intros H;
      apply elem_of_cons in H as [H|H].
    + by left.
    + right. by right.
    + right. rewrite H. by left.
    + destruct (IH H) as [?|?]; [by left|]. right. by right.
Qed.

Lemma dict_set_keys {V} (k : endpoints) (v : V) (d : list (endpoints * V)) :
  map fst (dict_set k v d)
  = if decide (k ∈ map fst d) then map fst d else map fst d ++ [k].
Proof.
  induction d as [|[k' v'] d IH]; cbn [dict_set map fst].
  - destruct (decide (k ∈ [])) as [H|_]; [by apply elem_of_nil in H | done].
  - destruct (decide (k = k')) as [->|Hne]; cbn [map fst].
    + rewrite decide_True; [done | by left].
    + rewrite IH. destruct (decide (k ∈ map fst d)) as [Hin|Hnin].
      * rewrite decide_True; [done | by right].
      * rewrite decide_False; [done|].
        intros H. apply elem_of_cons in H as [?|?]; done.
Qed.

Lemma dict_set_keys_NoDup {V} (k : endpoints) (v : V) (d : list (endpoints * V)) :
  NoDup (map fst d) → NoDup (map fst (dict_set k v d)).
Proof.
  intros Hnd. rewrite dict_set_keys. case_decide; [done|].
  apply NoDup_app. split_and!; [done | | apply NoDup_singleton].
  intros x Hx Hk. apply list_elem_of_singleton in Hk as ->. done.
Qed.

(** *** De-duplication *)

Lemma seen_ok_set (processed : list DetectedRelationship)
    (seen : list (endpoints * DetectedRelationship)) (rel : DetectedRelationship) :
  seen_ok processed seen →
  (∀ kept, dict_get (key_of rel) seen = Some kept →
           (confidence kept <= confidence rel)%Q) →
  seen_ok (processed ++ [rel]) (dict_set (key_of rel) rel seen).
Proof.
  intros (Hnd & Hin & Hmax) Hkept. split_and!.
  - by apply dict_set_keys_NoDup.
  - intros k v Hkv. apply elem_of_dict_set in Hkv as [[= -> ->]|Hkv].
    + split; [done|]. apply elem_of_app. right. by left.
    + destruct (Hin k v Hkv) as [? ?]. split; [done|].
      apply elem_of_app. by left.
  - intros c Hc. apply elem_of_app in Hc as [Hc|Hc].
    + destruct (Hmax c Hc) as (r & Hr & Hle).
      destruct (decide (key_of c = key_of rel)) as [Heq|Hne].
      * exists rel. rewrite Heq, dict_get_set_eq. split; [done|].
        eapply Qle_trans; [exact Hle|]. apply Hkept. by rewrite <- Heq.
      * exists r. by rewrite dict_get_set_ne.
    + apply list_elem_of_singleton in Hc as ->. exists rel.
      rewrite dict_get_set_eq. split; [done | apply Qle_refl].
Qed.

Lemma seen_ok_step (processed : list DetectedRelationship)
    (seen : list (endpoints * DetectedRelationship)) (rel : DetectedRelationship) :
  seen_ok processed seen → seen_ok (processed ++ [rel]) (dedup_step seen rel).
Proof.
  intros Hok. unfold dedup_step.
  destruct (dict_get (key_of rel) seen) as [kept|] eqn:Hget.
  - destruct (Qgtb (confidence rel) (confidence kept)) eqn:Hgt.
    + apply seen_ok_set; [done|]. intros kept' Hk.
      rewrite Hget in Hk. injection Hk as <-.
      apply Qlt_le_weak. by apply Qgtb_true.
    + destruct Hok as (Hnd & Hin & Hmax). split_and!; [done | |].
      * intros k v Hkv. destruct (Hin k v Hkv) as [? ?]. split; [done|].
        apply elem_of_app. by left.
      * intros c Hc. apply elem_of_app in Hc as [Hc|Hc]; [by apply Hmax|].
        apply list_elem_of_singleton in Hc as ->. exists kept.
        split; [done | by apply Qgtb_false].
  - apply seen_ok_set; [done|]. intros kept' Hk. congruence.
Qed.

Lemma seen_ok_foldl (rels processed : list DetectedRelationship)
    (seen : list (endpoints * DetectedRelationship)) :
  seen_ok processed seen →
  seen_ok (processed ++ rels) (foldl dedup_step seen rels).
Proof.
  revert processed seen. induction rels as [|rel rels IH]; intros processed seen Hok.
  - by rewrite app_nil_r.
  - simpl. replace (processed ++ rel :: rels) with ((processed ++ [rel]) ++ rels)
      by (by rewrite <- app_assoc).
    apply IH. by apply seen_ok_step.
Qed.

Lemma deduplicate_spec (rels : list DetectedRelationship) :
  NoDup (map key_of (_deduplicate_relationships rels))
  ∧ (∀ r, r ∈ _deduplicate_relationships rels → r ∈ rels)
  ∧ (∀ c, c ∈ rels →
       ∃ r, r ∈ _deduplicate_relationships rels
            ∧ key_of r = key_of c ∧ (confidence c <= confidence r)%Q).
Proof.
  unfold _deduplicate_relationships.
  assert (Hok : seen_ok rels (foldl dedup_step [] rels)).
  { apply (seen_ok_foldl rels [] []). split_and!.
    - constructor.
    - intros k v H. by apply elem_of_nil in H.
    - intros c H. by apply elem_of_nil in H. }
  destruct Hok as (Hnd & Hin & Hmax).
  set (seen := foldl dedup_step [] rels) in *.
  assert (Hkeys : map key_of (map snd seen) = map fst seen).
  { rewrite map_map. apply map_ext_in. intros [k v] Hkv. simpl.
    apply list_elem_of_In in Hkv. by destruct (Hin k v Hkv). }
  split_and!.
  - by rewrite Hkeys.
  - intros r Hr. apply elem_of_map in Hr as ([k v] & -> & Hkv).
    by destruct (Hin k v Hkv).
  - intros c Hc. destruct (Hmax c Hc) as (r & Hget & Hle).
    apply dict_get_elem_of in Hget. exists r. split_and!; [|by destruct (Hin _ _ Hget)|done].
    apply elem_of_map. by exists (key_of c, r).
Qed.

(** *** Sorting *)

Lemma insert_by_confidence_perm (rel : DetectedRelationship)
    (sorted : list DetectedRelationship) :
  Permutation (insert_by_confidence rel sorted) (rel :: sorted).
Proof.
  induction sorted as [|r rest IH]; simpl; [done|].
  destruct (Qgtb (confidence r) (confidence rel)); [|done].
  rewrite IH. apply perm_swap.
Qed.

Lemma sort_by_confidence_perm (rels : list DetectedRelationship) :
  Permutation (sort_by_confidence rels) rels.
Proof.
  induction rels as [|r rels IH]; simpl; [done|].
  rewrite insert_by_confidence_perm. by constructor.
Qed.

Lemma insert_by_confidence_descending (rel : DetectedRelationship)
    (sorted : list DetectedRelationship) :
  StronglySorted (λ x y, (confidence y <= confidence x)%Q) sorted →
  StronglySorted (λ x y, (confidence y <= confidence x)%Q)
                 (insert_by_confidence rel sorted).
Proof.
  induction 1 as [|r rest Hrest IH Hall]; simpl.
  - repeat constructor.
  - destruct (Qgtb (confidence r) (confidence rel)) eqn:E.
    + constructor; [done|].
      rewrite insert_by_confidence_perm. constructor; [|done].
      apply Qlt_le_weak. by apply Qgtb_true.
    + apply Qgtb_false in E. constructor; [by constructor|].
      constructor; [done|].
      eapply Forall_impl; [exact Hall|]. intros y Hy. simpl in Hy.
      eapply Qle_trans; eauto.
Qed.

Lemma sort_by_confidence_descending (rels : list DetectedRelationship) :
  StronglySorted (λ x y, (confidence y <= confidence x)%Q)
                 (sort_by_confidence rels).
Proof.
  induction rels as [|r rels IH]; simpl; [constructor|].
  by apply insert_by_confidence_descending.
Qed.

(** *** Splitting a reference *)

Lemma split_nonempty (sep : ascii) (s : string) : split sep s ≠ [].
Proof.
  destruct s as [|c rest]; simpl; [done|].
  destruct (decide (c = sep)); [done|]. by destruct (split sep rest).
Qed.

Lemma split_without_separator (sep : ascii) (s : string) :
  occurs sep s = false → split sep s = [s].
Proof.
  induction s as [|c rest IH]; simpl; [done|].
  destruct (decide (c = sep)); [done|]. intros H. by rewrite (IH H).
Qed.

Lemma split_app (sep : ascii) (t c : string) :
  split sep (t +:+ String sep c) = split sep t ++ split sep c.
Proof.
  induction t as [|a t IH]; simpl.
  - by rewrite decide_True.
  - destruct (decide (a = sep)); [by rewrite IH|].
    rewrite IH. pose proof (split_nonempty sep t).
    by destruct (split sep t).
Qed.

Lemma join_split (sep : ascii) (s : string) :
  join (String sep "") (split sep s) = s.
Proof.
  induction s as [|a s IH]; simpl; [done|].
  pose proof (split_nonempty sep s) as Hne.
  destruct (decide (a = sep)) as [->|Hneq].
  - destruct (split sep s) as [|q qs]; [done|].
    change (join (String sep "") ("" :: q :: qs))
      with ("" +:+ String sep "" +:+ join (String sep "") (q :: qs)).
    by rewrite IH.
  - destruct (split sep s) as [|p [|q qs]]; [done| |].
    + simpl in *. by rewrite IH.
    + change (join (String sep "") (String a p :: q :: qs))
        with (String a (p +:+ String sep "" +:+ join (String sep "") (q :: qs))).
      by rewrite <- IH.
Qed.

Lemma create_fk_relationship_split (from_table_id : string) (column : Column)
    (t c : string) :
  occurs "." c = false →
  let r := _create_fk_relationship from_table_id column (t +:+ "." +:+ c) in
  to_table_id r = t ∧ to_column r = c.
Proof.
  intros Hc. unfold _create_fk_relationship. cbn [to_table_id to_column].
  change (t +:+ "." +:+ c) with (t +:+ String "." c).
  rewrite split_app, (split_without_separator _ _ Hc).
  rewrite removelast_last, last_last. split; [apply join_split | done].
Qed.

(** *** Candidates and their confidence *)

Section DetectorProperties.

Variable re_match : string → string → option (list string).
Variable lower : string → string.
Variable upper : string → string.

Lemma calculate_confidence_range (from_column to_column : Column)
    (entity_name table_name : string) :
  (0.5 <= _calculate_confidence upper from_column to_column entity_name table_name
   <= 1.0)%Q.
Proof.
  unfold _calculate_confidence.
  destruct (col_is_primary_key to_column);
    destruct (decide (upper (col_datatype from_column)
                      = upper (col_datatype to_column)));
    destruct (decide (table_name = entity_name +:+ "s"));
    vm_compute; split; discriminate.
Qed.

Lemma naming_convention_candidates (from_table : Table) (from_column : Column)
    (table_by_name : gmap string Table)
    (columns_by_table : gmap string (list Column)) (r : DetectedRelationship) :
  r ∈ _detect_by_naming_convention re_match lower upper from_table from_column
        table_by_name columns_by_table →
  detection_method r = "naming_convention"
  ∧ (0.5 <= confidence r <= 1.0)%Q.
Proof.
  unfold _detect_by_naming_convention.
  rewrite elem_of_flat_map. intros (pattern & _ & Hr).
  destruct (re_match pattern (lower (col_name from_column)))
    as [[|entity_name groups]|]; try (by apply elem_of_nil in Hr).
  rewrite elem_of_flat_map in Hr. destruct Hr as (candidate_name & _ & Hr).
  destruct (table_by_name !! candidate_name) as [target_table|];
    [|by apply elem_of_nil in Hr].
  rewrite elem_of_flat_map in Hr. destruct Hr as (target_col & _ & Hr).
  destruct (_ || _); [|by apply elem_of_nil in Hr].
  destruct (_are_types_compatible _ _ _); [|by apply elem_of_nil in Hr].
  apply list_elem_of_singleton in Hr as ->. split; [done|].
  apply calculate_confidence_range.
Qed.

Lemma detect_column_candidates (table : Table) (column : Column)
    (table_by_name : gmap string Table)
    (columns_by_table : gmap string (list Column)) (r : DetectedRelationship) :
  r ∈ detect_column re_match lower upper table column table_by_name
        columns_by_table →
  (detection_method r = "explicit_fk" ∧ confidence r = 1.0%Q)
  ∨ (detection_method r = "naming_convention" ∧ (0.5 <= confidence r <= 1.0)%Q).
Proof.
  unfold detect_column. intros Hr.
  destruct (col_is_foreign_key column);
    [destruct (col_foreign_key_ref column) as [[|c ref]|]|];
    try (right; by eapply naming_convention_candidates).
  left. by apply list_elem_of_singleton in Hr as ->.
Qed.

Lemma candidates_confidence (tables : list Table)
    (columns_by_table : gmap string (list Column)) (r : DetectedRelationship) :
  r ∈ candidates re_match lower upper tables columns_by_table →
  (detection_method r = "explicit_fk" ∧ confidence r = 1.0%Q)
  ∨ (detection_method r = "naming_convention" ∧ (0.5 <= confidence r <= 1.0)%Q).
Proof.
  unfold candidates. rewrite elem_of_flat_map. intros (table & _ & Hr).
  rewrite elem_of_flat_map in Hr. destruct Hr as (column & _ & Hr).
  by eapply detect_column_candidates.
Qed.

(** C2. Whatever the tables and columns: every relationship emitted is
    one of the generated candidates; a candidate of method [explicit_fk]
    has confidence exactly 1.0 and one of method [naming_convention] has
    confidence in [0.5, 1.0]; and after de-duplication (and sorting) no two
    emitted relationships share their four endpoints, and for every
    candidate the emitted relationship of the same endpoints has at least
    the candidate's confidence. *)
Theorem detect_relationships_confidence (tables : list Table)
    (columns_by_table : gmap string (list Column)) :
  let generated := candidates re_match lower upper tables columns_by_table in
  let emitted :=
    detect_relationships re_match lower upper tables columns_by_table in
  (∀ r, r ∈ emitted → r ∈ generated)
  ∧ (∀ r, r ∈ generated →
       detection_method r = "explicit_fk" → confidence r = 1.0%Q)
  ∧ (∀ r, r ∈ generated →
       detection_method r = "naming_convention" →
       (0.5 <= confidence r <= 1.0)%Q)
  ∧ NoDup (map key_of emitted)
  ∧ (∀ c, c ∈ generated →
       ∃ r, r ∈ emitted ∧ key_of r = key_of c
            ∧ (confidence c <= confidence r)%Q).
Proof.
  intros generated emitted.
  destruct (deduplicate_spec generated) as (Hnd & Hsub & Hmax).
  assert (Hperm : Permutation emitted (_deduplicate_relationships generated))
    by apply sort_by_confidence_perm.
  split_and!.
  - intros r Hr. apply Hsub. by rewrite <- Hperm.
  - intros r Hr Hm.
    destruct (candidates_confidence _ _ _ Hr) as [[_ ?]|[Hm' _]]; [done|].
    rewrite Hm in Hm'. discriminate.
  - intros r Hr Hm.
    destruct (candidates_confidence _ _ _ Hr) as [[Hm' _]|[_ ?]]; [|done].
    rewrite Hm in Hm'. discriminate.
  - assert (Hkeys : map key_of emitted
                     ≡ₚ map key_of (_deduplicate_relationships generated))
      by (by apply Permutation_map).
    by rewrite Hkeys.
  - intros c Hc. destruct (Hmax c Hc) as (r & Hr & Hk & Hle).
    exists r. split_and!; try done. by rewrite Hperm.
Qed.

End DetectorProperties.

Example scenario_a :
  ∃ r,
    detect_relationships py_re_match str_lower str_upper [orders; customers]
      (shop_columns false None) = [r]
    ∧ detection_method r = "naming_convention"
    ∧ (0.8 <= confidence r)%Q.
Proof.
  eexists. split; [vm_compute; reflexivity|]. split; [done|]. vm_compute. discriminate.
Qed.

(** ** The data sampler *)


(** C6. [analyze_cardinality a b] treats a side as unique exactly when its
    cardinality ratio exceeds 0.95, and answers "1:1" when both sides are
    unique, "N:1" when only [a] is, "1:N" when only [b] is and "N:M" when
    neither is; the four ratio pairs of the specification follow. *)
Theorem analyze_cardinality_shape (a b : DataSampleResult) :
  let unique s := (0.95 < cardinality_ratio s)%Q in
  (analyze_cardinality a b = "1:1" ↔ unique a ∧ unique b)
  ∧ (analyze_cardinality a b = "N:1" ↔ unique a ∧ ¬ unique b)
  ∧ (analyze_cardinality a b = "1:N" ↔ ¬ unique a ∧ unique b)
  ∧ (analyze_cardinality a b = "N:M" ↔ ¬ unique a ∧ ¬ unique b)
  ∧ ((cardinality_ratio a == 0.99)%Q → (cardinality_ratio b == 0.99)%Q →
     analyze_cardinality a b = "1:1")
  ∧ ((cardinality_ratio a == 0.99)%Q → (cardinality_ratio b == 0.40)%Q →
     analyze_cardinality a b = "N:1")
  ∧ ((cardinality_ratio a == 0.40)%Q → (cardinality_ratio b == 0.99)%Q →
     analyze_cardinality a b = "1:N")
  ∧ ((cardinality_ratio a == 0.40)%Q → (cardinality_ratio b == 0.40)%Q →
     analyze_cardinality a b = "N:M").
Proof.
  intros unique. unfold analyze_cardinality.
  assert (Hhi : ∀ q, (q == 0.99)%Q → Qgtb q 0.95 = true).
  { intros q E. by rewrite (Qgtb_Qeq _ _ _ E). }
  assert (Hlo : ∀ q, (q == 0.40)%Q → Qgtb q 0.95 = false).
  { intros q E. by rewrite (Qgtb_Qeq _ _ _ E). }
  split_and!; try (intros Ea Eb;
    first [rewrite (Hhi _ Ea) | rewrite (Hlo _ Ea)];
    first [rewrite (Hhi _ Eb) | rewrite (Hlo _ Eb)]; reflexivity).
  all: unfold unique;
    destruct (Qgtb (cardinality_ratio a) 0.95) eqn:Ha;
    destruct (Qgtb (cardinality_ratio b) 0.95) eqn:Hb; simpl;
    first [apply Qgtb_true in Ha | apply Qgtb_false in Ha];
    first [apply Qgtb_true in Hb | apply Qgtb_false in Hb];
    (split; [intros E; try discriminate E | intros [H1 H2]]);
    repeat match goal with
           | H : ¬ (_ < _)%Q |- _ => apply Qnot_lt_le in H
           | |- _ ∧ _ => split
           | |- ¬ (_ < _)%Q => apply Qle_not_lt
           end;
    try done;
    try match goal with
        | Hlt : (?x < ?y)%Q, Hle : (?y <= ?x)%Q |- _ =>
          exfalso; exact (Qlt_not_le _ _ Hlt Hle)
        end.
Qed.

Lemma sample_column_returns (self : DataSampler) (ds t c : string) :
  ∃ o, sample_column self ds t c = Ok o.
Proof.
  unfold sample_column, sample_column_body, try_except, bind.
  destruct (connector self _) as [[|row rows]|e]; eauto.
Qed.

Lemma list_to_set_nonempty (x : Value) (l : list Value) :
  (list_to_set (x :: l) : gset Value) ≠ ∅.
Proof. simpl. set_solver. Qed.

Lemma detect_value_overlap_jaccard (a b : DataSampleResult) :
  (detect_value_overlap a b
   == jaccard (list_to_set (sample_values a)) (list_to_set (sample_values b)))%Q.
Proof.
  unfold detect_value_overlap, jaccard.
  destruct (sample_values a) as [|x xs] eqn:Ea.
  { rewrite decide_True by (left; done). reflexivity. }
  destruct (sample_values b) as [|y ys] eqn:Eb.
  { rewrite decide_True by (right; done). reflexivity. }
  pose proof (list_to_set_nonempty x xs) as Hx.
  pose proof (list_to_set_nonempty y ys) as Hy.
  destruct (decide (_ ∨ _)) as [[?|?]|_]; [contradiction..|].
  rewrite decide_True; [reflexivity|].
  assert (size (list_to_set (x :: xs) ∪ list_to_set (y :: ys) : gset Value) ≠ 0%nat).
  { intros Hz. apply size_empty_inv in Hz. set_solver. }
  lia.
Qed.

(** C7. [validate_relationship] never raises.  Neither does
    [sample_column]; when it yields a sample for both columns the result
    is a judgment whose [valid] field is true exactly when the Jaccard
    overlap of the two sampled value sets exceeds 0.1, and when it yields
    none for either column the result is invalid with the reason
    "Could not sample columns". *)
Theorem validate_relationship_never_raises (self : DataSampler)
    (ds from_t from_c to_t to_c : string) :
  ∃ v sa sb,
    validate_relationship self ds from_t from_c to_t to_c = Ok v
    ∧ sample_column self ds from_t from_c = Ok sa
    ∧ sample_column self ds to_t to_c = Ok sb
    ∧ match sa, sb with
      | Some a, Some b =>
        (∃ overlap shape fs ts,
            v = Judged (valid_of v) overlap shape fs ts
            ∧ (overlap == jaccard (list_to_set (sample_values a))
                                  (list_to_set (sample_values b)))%Q)
        ∧ (valid_of v = true
           ↔ (0.1 < jaccard (list_to_set (sample_values a))
                             (list_to_set (sample_values b)))%Q)
      | _, _ => v = Invalid "Could not sample columns" ∧ valid_of v = false
      end.
Proof.
  destruct (sample_column_returns self ds from_t from_c) as [sa Ha].
  destruct (sample_column_returns self ds to_t to_c) as [sb Hb].
  unfold validate_relationship, validate_relationship_body.
  rewrite Ha, Hb. simpl.
  destruct sa as [a|], sb as [b|]; simpl.
  all: do 3 eexists; split_and!; try reflexivity; simpl; try done.
  pose proof (detect_value_overlap_jaccard a b) as Hj.
  split.
  - eexists _, _, _, _. split; [reflexivity | exact Hj].
  - simpl. rewrite Qgtb_true. by rewrite Hj.
Qed.

Example scenario_d_valid :
  ∃ overlap shape fs ts,
    validate_relationship scenario_d "shop" "orders" "customer_id" "customers" "id"
    = Ok (Judged true overlap shape fs ts)
    ∧ (overlap == 0.5)%Q.
Proof. eexists _, _, _, _. split; [vm_compute; reflexivity | reflexivity]. Qed.

Example failing_sampler_invalid :
  validate_relationship failing_sampler "shop" "orders" "customer_id" "customers" "id"
  = Ok (Invalid "Could not sample columns").
Proof. reflexivity. Qed.

(** * Further properties *)

(** ** The graph engine *)

(** *** Breadth-first search for a path *)

Section ShortestPath.

Variable calls : list call.
Variable a b : string.
Variable k : Z.

Lemma path_inv_drop (en : entry) (queue : list entry) (visited : gset string)
    (vd : gmap string nat) :
  path_inv (edges_of calls) a b k (en :: queue) visited vd →
  en.1.1.1 ≠ b →
  (Z.of_nat (length en.1.1.2) > k)%Z ∨ en.1.1.1 ∈ visited →
  path_inv (edges_of calls) a b k queue visited vd.
Proof.
  intros [Hdom Htgt Hlen Hbound Hsort Hspread Hbehind Hexp Hstart] Hnb Hdrop.
  assert (Hseen : en.1.1.1 ∈ visited →
            ∃ dv, vd !! en.1.1.1 = Some dv ∧ (dv ≤ depth en)%nat).
  { intros Hx. rewrite <- Hdom in Hx. apply elem_of_dom in Hx as [dv Hdv].
    exists dv. split; [done|]. apply (Hbehind en.1.1.1 dv en); [done | by left]. }
  assert (Hdeep : (Z.of_nat (length en.1.1.2) > k)%Z →
            (k < Z.of_nat (S (depth en)))%Z).
  { rewrite (Hlen en) by (by left). lia. }
  split; try done.
  - intros p Hp. apply Hlen. by right.
  - intros p Hp. apply Hbound. by right.
  - by apply StronglySorted_inv in Hsort as [? _].
  - intros p q Hp Hq. apply Hspread; by right.
  - intros x dx p Hx Hp. apply (Hbehind x dx p); [done | by right].
  - intros z dz e Hz He Hfrom Hcond.
    destruct (Hexp z dz e Hz He Hfrom Hcond) as [?|(en' & Hin & Hid & Hd)];
      [by left|].
    apply elem_of_cons in Hin as [->|Hin]; [|right; by exists en'].
    destruct Hdrop as [Hdeep'|Hx].
    + exfalso. apply Hdeep in Hdeep'. destruct Hcond as [?|Hb]; [lia|].
      apply Hnb. by rewrite Hid.
    + destruct (Hseen Hx) as (dv & Hdv & Hle). left. exists dv.
      rewrite <- Hid. split; [done | lia].
  - intros Hk. destruct (Hstart Hk) as [?|(en' & Hin & Hid & Hd)]; [by left|].
    apply elem_of_cons in Hin as [->|Hin]; [|right; by exists en'].
    destruct Hdrop as [Hdeep'|Hx].
    + exfalso. apply Hdeep in Hdeep'. lia.
    + destruct (Hseen Hx) as (dv & Hdv & Hle). left.
      rewrite <- Hid. rewrite Hdv. f_equal. lia.
Qed.

Lemma path_inv_visit (x : string) (path : list string) (es : list GraphEdge)
    (s : Q) (queue : list entry) (visited : gset string) (vd : gmap string nat) :
  path_inv (edges_of calls) a b k ((x, path, es, s) :: queue) visited vd →
  x ≠ b →
  ¬ ((Z.of_nat (length path) > k)%Z ∨ x ∈ visited) →
  path_inv (edges_of calls) a b k
    (queue ++ map (λ edge, (to_node edge, path ++ [to_node edge],
                            es ++ [edge], (s * strength edge)%Q))
                  (filter (λ edge, to_node edge ∉ ({[x]} ∪ visited : gset string))
                          (get_outgoing_edges (build calls) x)))
    ({[x]} ∪ visited) (<[x := length es]> vd).
Proof.
  intros [Hdom Htgt Hlen Hbound Hsort Hspread Hbehind Hexp Hstart] Hnb Hgo.
  set (en := (x, path, es, s) : entry) in *.
  set (new := map _ _).
  assert (Hx : x ∉ visited) by tauto.
  assert (Hk : (Z.of_nat (S (length es)) ≤ k)%Z).
  { pose proof (Hlen en) as Hl. unfold depth in Hl. simpl in Hl.
    rewrite <- Hl by (by left). lia. }
  assert (Hnone : vd !! x = None).
  { apply not_elem_of_dom. by rewrite Hdom. }
  apply StronglySorted_inv in Hsort as [Hsort Hmin].
  rewrite Forall_forall in Hmin.
  assert (Hnew : ∀ p : entry, p ∈ new →
            depth p = S (length es) ∧ length p.1.1.2 = S (depth p)
            ∧ (p.1.1.1 ∉ ({[x]} ∪ visited : gset string))).
  { intros p Hp. apply elem_of_map in Hp as (e & -> & He).
    apply list_elem_of_filter in He as [He _]. unfold depth. simpl.
    rewrite !length_app. simpl.
    pose proof (Hlen en) as Hl. unfold depth in Hl. simpl in Hl.
    rewrite Hl by (by left). split_and!; [lia | lia | done]. }
  split.
  - rewrite dom_insert_L. by rewrite Hdom.
  - intros Hb. apply elem_of_union in Hb as [Hb|Hb]; [|done].
    apply elem_of_singleton in Hb. by apply Hnb.
  - intros p Hp. apply elem_of_app in Hp as [Hp|Hp].
    + apply Hlen. by right.
    + by destruct (Hnew p Hp) as (_ & ? & _).
  - intros p Hp. apply elem_of_app in Hp as [Hp|Hp].
    + apply Hbound. by right.
    + destruct (Hnew p Hp) as (-> & _). right. lia.
  - apply StronglySorted_app; [done | |].
    + unfold new. clear. induction (filter _ _) as [|e l IH]; simpl;
        constructor; [done|].
      apply Forall_forall. intros p Hp.
      apply elem_of_map in Hp as (e' & -> & _). unfold depth. simpl.
      rewrite !length_app. simpl. lia.
    + intros p q Hp Hq. destruct (Hnew q Hq) as (-> & _).
      apply (Hspread en p); [by left | by right].
  - intros p q Hp Hq.
    apply elem_of_app in Hp as [Hp|Hp]; apply elem_of_app in Hq as [Hq|Hq].
    + apply Hspread; by right.
    + destruct (Hnew q Hq) as (-> & _). specialize (Hmin p Hp).
      unfold depth in Hmin at 1. simpl in Hmin. lia.
    + destruct (Hnew p Hp) as (-> & _).
      assert (depth q ≤ S (depth en))%nat
        by (apply Hspread; [by left | by right]).
      unfold depth in H at 2. simpl in H. lia.
    + destruct (Hnew p Hp) as (-> & _). destruct (Hnew q Hq) as (-> & _). lia.
  - intros y dy p Hy Hp.
    assert (dy ≤ length es)%nat as Hdy.
    { destruct (decide (x = y)) as [<-|Hne].
      - rewrite lookup_insert_eq in Hy. injection Hy as <-. lia.
      - rewrite lookup_insert_ne in Hy by done.
        apply (Hbehind y dy en); [done | by left]. }
    apply elem_of_app in Hp as [Hp|Hp].
    + specialize (Hmin p Hp). unfold depth in Hmin at 1. simpl in Hmin. lia.
    + destruct (Hnew p Hp) as (-> & _). lia.
  - intros z dz e Hz He Hfrom Hcond. destruct (decide (x = z)) as [<-|Hne].
    + rewrite lookup_insert_eq in Hz. injection Hz as <-.
      destruct (decide (to_node e ∈ ({[x]} ∪ visited : gset string))) as [Hw|Hw].
      * left. apply elem_of_union in Hw as [Hw|Hw].
        -- apply elem_of_singleton in Hw. rewrite Hw.
           exists (length es). rewrite lookup_insert_eq. split; [done | lia].
        -- assert (x ≠ to_node e) by (intros Heq; rewrite Heq in Hx; done).
           rewrite <- Hdom in Hw. apply elem_of_dom in Hw as [dw Hdw].
           exists dw. rewrite lookup_insert_ne by done. split; [done|].
           assert (dw ≤ depth en)%nat
             by (apply (Hbehind (to_node e) dw en); [done | by left]).
           unfold depth in H0. simpl in H0. lia.
      * right.
        exists (to_node e, path ++ [to_node e], es ++ [e], (s * strength e)%Q).
        split_and!; [|done|].
        -- apply elem_of_app. right. apply elem_of_map. exists e.
           split; [done|]. apply list_elem_of_filter. split; [done|].
           by apply elem_of_outgoing_build.
        -- unfold depth. simpl. rewrite length_app. simpl. lia.
    + rewrite lookup_insert_ne in Hz by done.
      destruct (Hexp z dz e Hz He Hfrom Hcond)
        as [(dw & Hdw & Hle)|(en' & Hin & Hid & Hd)].
      * left. exists dw. split; [|done].
        rewrite lookup_insert_ne; [done|]. intros Heq. congruence.
      * apply elem_of_cons in Hin as [->|Hin].
        -- left. exists (length es). simpl in Hid. rewrite <- Hid.
           rewrite lookup_insert_eq. split; [done|].
           unfold depth in Hd. simpl in Hd. lia.
        -- right. exists en'. split_and!; try done. apply elem_of_app. by left.
  - intros Hk0. destruct (Hstart Hk0) as [Hs|(en' & Hin & Hid & Hd)].
    + left. rewrite lookup_insert_ne; [done|]. intros Heq. congruence.
    + apply elem_of_cons in Hin as [->|Hin].
      * left. simpl in Hid. rewrite <- Hid, lookup_insert_eq.
        unfold depth in Hd. simpl in Hd. by rewrite Hd.
      * right. exists en'. split_and!; try done. apply elem_of_app. by left.
Qed.

Lemma path_inv_covered (queue : list entry) (visited : gset string)
    (vd : gmap string nat) (es : list GraphEdge) (y : string) :
  path_inv (edges_of calls) a b k queue visited vd →
  dpath (edges_of calls) a es y →
  (0 < k)%Z →
  (∀ en : entry, en ∈ queue → (length es < depth en)%nat) →
  (Z.of_nat (length es) < k)%Z ∨ (y = b ∧ (Z.of_nat (length es) ≤ k)%Z) →
  ∃ dy, vd !! y = Some dy ∧ (dy ≤ length es)%nat.
Proof.
  intros [Hdom Htgt Hlen Hbound Hsort Hspread Hbehind Hexp Hstart] Hpath Hk.
  induction Hpath as [|es x e Hpath IH He Hfrom]; intros Hfloor Hcase.
  - destruct (Hstart Hk) as [Hs|(en & Hin & _ & Hd)].
    + exists O. by split.
    + specialize (Hfloor en Hin). simpl in Hfloor. lia.
  - rewrite length_app in *. simpl in *.
    destruct IH as (dx & Hdx & Hle).
    { intros en Hin. specialize (Hfloor en Hin). lia. }
    { left. lia. }
    destruct (Hexp x dx e Hdx He Hfrom) as [(dw & Hdw & ?)|(en & Hin & _ & Hd)].
    + destruct Hcase as [?|[? ?]]; [left; lia | by right].
    + exists dw. split; [done | lia].
    + specialize (Hfloor en Hin). lia.
Qed.

Lemma dpath_nil_inv (E : list GraphEdge) (x y : string) :
  dpath E x [] y → y = x.
Proof.
  inversion 1 as [|es z e _ _ _ Hnil]; [done|].
  by apply app_nil in Hnil as [_ ?].
Qed.

Lemma find_path_loop_bfs (fuel : nat) (queue : list entry)
    (visited : gset string) (vd : gmap string nat) (r : option GraphPath) :
  a ≠ b →
  path_inv (edges_of calls) a b k queue visited vd →
  find_path_loop fuel (build calls) a b k queue visited = Some r →
  match r with
  | Some p =>
    ∀ es, dpath (edges_of calls) a es b →
          (length (path_edges p) ≤ length es)%nat
  | None =>
    ∀ es, dpath (edges_of calls) a es b → ¬ (Z.of_nat (length es) ≤ k)%Z
  end.
Proof.
  intros Hab. revert queue visited vd.
  induction fuel as [|fuel IH]; intros queue visited vd Hinv; [done|].
  destruct queue as [|[[[x path] es] s] queue]; simpl.
  - intros [= <-] es' Hpath Hle.
    assert (0 < length es')%nat.
    { destruct es'; [|simpl; lia]. apply dpath_nil_inv in Hpath. by subst. }
    destruct (path_inv_covered [] visited vd es' b Hinv Hpath)
      as (dy & Hdy & _); [lia | | by right |].
    { intros en Hin. by apply elem_of_nil in Hin. }
    apply (pinv_target _ _ _ _ _ _ _ Hinv).
    rewrite <- (pinv_dom _ _ _ _ _ _ _ Hinv). apply elem_of_dom. by exists dy.
  - destruct (decide (x = b)) as [->|Hxb].
    + intros [= <-]. simpl. intros es' Hpath.
      destruct (decide (length es ≤ length es')%nat) as [?|Hlt]; [done|].
      exfalso.
      set (en := (b, path, es, s) : entry) in *.
      assert (Hfront : depth en = length es) by done.
      destruct (pinv_bound _ _ _ _ _ _ _ Hinv en) as [Hz|Hbk]; [by left|lia|].
      pose proof (pinv_sorted _ _ _ _ _ _ _ Hinv) as Hsort.
      apply StronglySorted_inv in Hsort as [_ Hmin].
      rewrite Forall_forall in Hmin.
      destruct (path_inv_covered (en :: queue) visited vd es' b Hinv Hpath)
        as (dy & Hdy & _); [lia | | left; lia |].
      { intros en' Hin. apply elem_of_cons in Hin as [->|Hin]; [lia|].
        specialize (Hmin en' Hin). simpl in Hmin. lia. }
      apply (pinv_target _ _ _ _ _ _ _ Hinv).
      rewrite <- (pinv_dom _ _ _ _ _ _ _ Hinv). apply elem_of_dom. by exists dy.
    + destruct (decide (_ ∨ _)) as [Hskip|Hgo].
      * apply (IH _ _ vd). by apply (path_inv_drop (x, path, es, s)).
      * apply (IH _ _ (<[x := length es]> vd)). by apply path_inv_visit.
Qed.

Lemma path_inv_init :
  path_inv (edges_of calls) a b k [(a, [a], [], 1%Q)] ∅ ∅.
Proof.
  split.
  - by rewrite dom_empty_L.
  - apply not_elem_of_empty.
  - intros en Hin. by apply list_elem_of_singleton in Hin as ->.
  - intros en Hin. apply list_elem_of_singleton in Hin as ->. by left.
  - repeat constructor.
  - intros p q Hp Hq. apply list_elem_of_singleton in Hp as ->.
    apply list_elem_of_singleton in Hq as ->. unfold depth. simpl. lia.
  - intros x dx p Hx. by rewrite lookup_empty in Hx.
  - intros z dz e Hz. by rewrite lookup_empty in Hz.
  - intros _. right. exists (a, [a], [], 1%Q). split_and!; [by left | done | done].
Qed.

End ShortestPath.

Lemma find_path_returns (calls : list call) (a b : string) (k : Z) :
  ∃ r, find_path (build calls) a b k = Some r.
Proof.
  unfold find_path. case_decide; [eauto|].
  apply find_path_loop_returns.
  - apply Forall_singleton. apply universe_start.
  - unfold measure, budget. simpl.
    replace (universe (build calls) a ∖ ∅) with (universe (build calls) a)
      by (apply set_eq; intros y; rewrite elem_of_difference;
          split; [intros ?; split; [done | apply not_elem_of_empty] | tauto]).
    lia.
Qed.

(** X1. A path [find_path] returns is a shortest one: no directed path
    from [a] to [b] has fewer edges. *)
Theorem find_path_shortest (calls : list call) (a b : string) (k : Z)
    (p : GraphPath) :
  find_path (build calls) a b k = Some (Some p) →
  ∀ es, dpath (edges_of calls) a es b →
        (length (path_edges p) ≤ length es)%nat.
Proof.
  unfold find_path. case_decide; [done|]. intros Hp.
  destruct (decide (a = b)) as [<-|Hab].
  - unfold budget in Hp. simpl in Hp. rewrite decide_True in Hp by done.
    injection Hp as <-. simpl. intros. lia.
  - exact (find_path_loop_bfs calls a b k _ _ _ ∅ (Some p) Hab
             (path_inv_init calls a b k) Hp).
Qed.

Lemma scenario_b_path :
  dpath (edges_of scenario_b_calls) "A"
        [edge "A" "B" 1.0%Q; edge "B" "C" 0.6%Q] "C".
Proof.
  apply (dpath_snoc _ _ [edge "A" "B" 1.0%Q] "B" (edge "B" "C" 0.6%Q));
    [|by right; left | done].
  apply (dpath_snoc _ _ [] "A" (edge "A" "B" 1.0%Q)); [constructor|by left|done].
Qed.

Lemma find_path_shortest_witness :
  find_path scenario_b "A" "C" 2
  = Some (Some {| start_node := "A"; end_node := "C";
                  path_nodes := ["A"; "B"; "C"];
                  path_edges := [edge "A" "B" 1.0%Q; edge "B" "C" 0.6%Q];
                  total_strength := (1 * 1.0 * 0.6)%Q |})
  ∧ ∀ es, dpath (edges_of scenario_b_calls) "A" es "C" → (2 ≤ length es)%nat.
Proof.
  split; [reflexivity|].
  exact (find_path_shortest scenario_b_calls "A" "C" 2
           {| start_node := "A"; end_node := "C";
              path_nodes := ["A"; "B"; "C"];
              path_edges := [edge "A" "B" 1.0%Q; edge "B" "C" 0.6%Q];
              total_strength := (1 * 1.0 * 0.6)%Q |} eq_refl).
Defined.

(** X2. [find_path] is complete within its bound: for nodes [a] and [b] of
    the graph joined by a directed path of at most [k] edges, it returns a
    path. *)
Theorem find_path_complete (calls : list call) (a b : string) (k : Z)
    (es : list GraphEdge) :
  a ∈ dom (nodes (build calls)) →
  b ∈ dom (nodes (build calls)) →
  dpath (edges_of calls) a es b →
  (Z.of_nat (length es) ≤ k)%Z →
  ∃ p, find_path (build calls) a b k = Some (Some p).
Proof.
  intros Ha Hb Hpath Hle.
  destruct (find_path_returns calls a b k) as [[p|] Hr]; [by exists p|].
  exfalso. revert Hr. unfold find_path. rewrite decide_False by tauto.
  destruct (decide (a = b)) as [<-|Hab].
  - unfold budget. simpl. by rewrite decide_True.
  - intros Hr.
    by apply (find_path_loop_bfs calls a b k _ _ _ ∅ None Hab
                (path_inv_init calls a b k) Hr es).
Qed.

Lemma find_path_complete_witness :
  ∃ p, find_path (build scenario_b_calls) "A" "C" 2 = Some (Some p).
Proof.
  assert (Ha : "A" ∈ dom (nodes (build scenario_b_calls)))
    by (apply elem_of_dom; vm_compute; eauto).
  assert (Hc : "C" ∈ dom (nodes (build scenario_b_calls)))
    by (apply elem_of_dom; vm_compute; eauto).
  exact (find_path_complete scenario_b_calls "A" "C" 2 _ Ha Hc
           scenario_b_path ltac:(simpl; lia)).
Defined.

(** *** Related entities: bounds and filters *)

(** X3. With a maximal depth of zero or less [get_related_entities]
    returns the empty list, whatever the graph and the start: the start
    itself is never reported and nothing beyond it is visited. *)
Theorem get_related_entities_no_depth (g : GraphEngine) (a : string)
    (ety : option EntityType) (rel : option RelationType) (d : Z) :
  d ≤ 0 → get_related_entities g a ety rel d = Some (Ok []).
Proof.
  intros Hd. unfold get_related_entities. case_decide; [|done].
  unfold budget. simpl.
  rewrite decide_False by apply not_elem_of_empty.
  rewrite decide_False by (intros Hne; by apply Hne).
  rewrite decide_False by lia. reflexivity.
Qed.

Lemma get_related_entities_no_depth_witness :
  get_related_entities scenario_c "A" None None 0 = Some (Ok []).
Proof.
  exact (get_related_entities_no_depth scenario_c "A" None None 0
           ltac:(lia)).
Defined.

Lemma related_loop_filter (g : GraphEngine) (a : string) (t : EntityType)
    (rel : option RelationType) (d : Z) (fuel : nat)
    (queue : list (string * Z)) (visited : gset string)
    (related : list GraphNode) :
  related_loop fuel g a (Some t) rel d queue visited
               (filter (λ n, entity_type n = t) related)
  = result_map (filter (λ n, entity_type n = t))
      <$> related_loop fuel g a None rel d queue visited related.
Proof.
  revert queue visited related.
  induction fuel as [|fuel IH]; intros queue visited related; [done|].
  destruct queue as [|[x dx] queue]; simpl; [done|].
  destruct (decide (x ∈ visited)) as [Hv|Hv]; [apply IH|].
  destruct (decide (x ≠ a)) as [Hxa|Hxa]; [|apply IH].
  destruct (nodes g !! x) as [nd|]; [|done].
  destruct (decide (entity_type nd = t)) as [Ht|Ht].
  - rewrite <- IH. f_equal. rewrite filter_app, filter_cons, filter_nil.
    by rewrite decide_True.
  - rewrite <- IH. f_equal. rewrite filter_app, filter_cons, filter_nil.
    rewrite decide_False by done. by rewrite app_nil_r.
Qed.

(** X4. Asking [get_related_entities] for one entity type gives the
    answer without a type filter, restricted to the nodes of that type
    and in the same order; the filter does not change which nodes the
    traversal reaches nor whether it raises. *)
Theorem get_related_entities_type_filter (g : GraphEngine) (a : string)
    (t : EntityType) (rel : option RelationType) (d : Z) :
  get_related_entities g a (Some t) rel d
  = result_map (filter (λ n, entity_type n = t))
      <$> get_related_entities g a None rel d.
Proof.
  unfold get_related_entities. case_decide; [|done].
  apply (related_loop_filter g a t rel d _ _ _ []).
Qed.

(** *** Adjacency and neighbours *)

(** X5. In a graph built by [add_node] and [add_edge], the outgoing
    edges of [k] are the inserted directed edges that leave [k] and its
    incoming edges are those that enter [k], both in insertion order. *)
Theorem adjacency_lists_by_endpoint (calls : list call) (k : string) :
  get_outgoing_edges (build calls) k
  = filter (λ e, from_node e = k) (edges_of calls)
  ∧ get_incoming_edges (build calls) k
    = filter (λ e, to_node e = k) (edges_of calls).
Proof. split; [apply outgoing_build | apply incoming_build]. Qed.

Lemma adjacent_sym (E : list GraphEdge) (rel : option RelationType)
    (x y : string) :
  adjacent E rel x y → adjacent E rel y x.
Proof.
  intros (e & He & Hrel & Hends). exists e. split_and!; [done | done |].
  destruct Hends as [[? ?]|[? ?]]; [right | left]; by split.
Qed.

(** X6. Being a neighbour is symmetric: [y] is among the neighbours of
    [x] exactly when [x] is among those of [y], with or without a
    relation filter, also for edges inserted in one direction only. *)
Theorem get_neighbors_symmetric (calls : list call) (rel : option RelationType)
    (x y : string) :
  y ∈ get_neighbors (build calls) x rel ↔ x ∈ get_neighbors (build calls) y rel.
Proof. rewrite !elem_of_get_neighbors. split; apply adjacent_sym. Qed.

Lemma edges_of_app (calls more : list call) :
  edges_of (calls ++ more) = edges_of calls ++ edges_of more.
Proof. unfold edges_of. by rewrite flat_map_app. Qed.

(** X7. Further calls of [add_node] and [add_edge] never remove a
    neighbour. *)
Theorem get_neighbors_monotone (calls more : list call)
    (rel : option RelationType) (x y : string) :
  y ∈ get_neighbors (build calls) x rel →
  y ∈ get_neighbors (build (calls ++ more)) x rel.
Proof.
  rewrite !elem_of_get_neighbors. intros (e & He & Hrest). exists e.
  split; [|done]. rewrite edges_of_app. apply elem_of_app. by left.
Qed.

Lemma get_neighbors_monotone_witness :
  "B" ∈ get_neighbors (build (scenario_b_calls ++ scenario_c_calls)) "A" None.
Proof.
  apply (get_neighbors_monotone scenario_b_calls scenario_c_calls None "A" "B").
  apply elem_of_get_neighbors. exists (edge "A" "B" 1.0%Q).
  split_and!; [by left | done | by left].
Defined.

(** *** Statistics *)

Lemma sum_list_length_concat {A} (ls : list (list A)) :
  sum_list (map (λ l : list A, length l) ls) = length (concat ls).
Proof.
  induction ls as [|l ls IH]; simpl; [done|]. rewrite length_app. lia.
Qed.

Lemma length_stored_delete (d : gmap string (list GraphEdge)) (k : string) :
  length (stored d)
  = (length (default [] (d !! k)) + length (stored (delete k d)))%nat.
Proof.
  unfold stored. destruct (d !! k) as [l|] eqn:Hk; simpl.
  - rewrite <- (insert_delete_id d k l Hk) at 1.
    rewrite map_to_list_insert by apply lookup_delete_eq.
    simpl. by rewrite length_app.
  - by rewrite delete_id.
Qed.

Lemma length_stored_append_at (d : gmap string (list GraphEdge)) (k : string)
    (e : GraphEdge) :
  length (stored (append_at d k e)) = S (length (stored d)).
Proof.
  rewrite (length_stored_delete (append_at d k e) k).
  rewrite (length_stored_delete d k).
  unfold append_at. rewrite lookup_insert_eq, delete_insert_eq. simpl.
  rewrite length_app. simpl. lia.
Qed.

Lemma length_stored_build (calls : list call) :
  length (stored (edges (build calls))) = length (edges_of calls).
Proof.
  induction calls as [|c calls IH] using rev_ind; [done|].
  rewrite build_snoc, edges_of_snoc, length_app, <- IH.
  destruct c as [n|e [|]]; simpl.
  - lia.
  - rewrite !length_stored_append_at. lia.
  - rewrite length_stored_append_at. lia.
Qed.

Lemma dom_nodes_build (calls : list call) :
  dom (nodes (build calls)) = list_to_set (node_ids_of calls).
Proof.
  induction calls as [|c calls IH] using rev_ind.
  - cbn. by rewrite dom_empty_L.
  - rewrite build_snoc. unfold node_ids_of. rewrite flat_map_app.
    rewrite list_to_set_app_L. fold (node_ids_of calls). rewrite <- IH.
    destruct c as [n|e [|]]; simpl.
    + rewrite dom_insert_L, union_empty_r_L. apply union_comm_L.
    + by rewrite union_empty_r_L.
    + by rewrite union_empty_r_L.
Qed.

Lemma length_filter_entity_types (l : list GraphNode) :
  (length (filter (λ n, entity_type n = CUSTOMER) l)
   + length (filter (λ n, entity_type n = INVOICE) l)
   + length (filter (λ n, entity_type n = CONTACT) l)
   + length (filter (λ n, entity_type n = INTERACTION) l))%nat
  = length l.
Proof.
  induction l as [|n l IH]; [done|].
  rewrite !filter_cons. destruct (entity_type n);
    repeat case_decide; try done; simpl; lia.
Qed.

(** X8. In the statistics of [get_stats] the counts of customers,
    invoices, contacts and interactions add up to the count of nodes. *)
Theorem get_stats_types_partition (g : GraphEngine) :
  stats_customers (get_stats g) + stats_invoices (get_stats g)
  + stats_contacts (get_stats g) + stats_interactions (get_stats g)
  = stats_nodes (get_stats g).
Proof.
  unfold get_stats, count_entity_type. simpl.
  pose proof (length_filter_entity_types (map snd (map_to_list (nodes g)))) as H.
  rewrite length_map, length_map_to_list in H. lia.
Qed.

(** X9. For a graph built by [add_node] and [add_edge], [get_stats]
    counts every directed edge inserted (two for a bidirectional
    insertion, repeated insertions included) and the distinct node ids
    inserted. *)
Theorem get_stats_counts_calls (calls : list call) :
  stats_edges (get_stats (build calls)) = Z.of_nat (length (edges_of calls))
  ∧ stats_nodes (get_stats (build calls))
    = Z.of_nat (size (list_to_set (node_ids_of calls) : gset string)).
Proof.
  unfold get_stats. simpl. split.
  - rewrite sum_list_length_concat. fold (stored (edges (build calls))).
    by rewrite length_stored_build.
  - by rewrite <- dom_nodes_build, size_dom.
Qed.

(** *** Graphs built from customer data *)

Lemma foldl_run_call_flat_map {A} (f : A → list call) (g : GraphEngine)
    (l : list A) :
  foldl run_call g (flat_map f l) = foldl (λ g x, foldl run_call g (f x)) g l.
Proof.
  revert g. induction l as [|x l IH]; intros g; simpl; [done|].
  by rewrite foldl_app, IH.
Qed.

Lemma edges_of_entities {A} (f : A → GraphNode) (h : A → GraphEdge)
    (l : list A) :
  edges_of (flat_map (λ x, [AddNode (f x); AddEdge (h x) true]) l)
  = flat_map (λ x, [h x; reverse (h x)]) l.
Proof. induction l as [|x l IH]; [done|]. cbn. by f_equal; f_equal. Qed.

Lemma node_ids_of_entities {A} (f : A → GraphNode) (h : A → GraphEdge)
    (l : list A) :
  node_ids_of (flat_map (λ x, [AddNode (f x); AddEdge (h x) true]) l)
  = map (λ x, node_id (f x)) l.
Proof. induction l as [|x l IH]; [done|]. cbn. by f_equal. Qed.

Lemma related_inv_init (calls : list call) (rel : option RelationType)
    (a : string) (d : Z) :
  related_inv (build calls) (edges_of calls) rel a d [(a, 0)] ∅ [] ∅.
Proof.
  split.
  - by rewrite dom_empty_L.
  - intros x dx Hx. apply list_elem_of_singleton in Hx as [= -> ->].
    split_and!; [lia | constructor | by left].
  - intros x dx Hx. by rewrite lookup_empty in Hx.
  - repeat constructor.
  - intros p q Hp Hq. apply list_elem_of_singleton in Hp as ->.
    apply list_elem_of_singleton in Hq as ->. simpl. lia.
  - intros x dx p Hx. by rewrite lookup_empty in Hx.
  - intros z dz w Hz. by rewrite lookup_empty in Hz.
  - right. by left.
  - constructor.
  - intros x. simpl. split; [intros H; by apply elem_of_nil in H|].
    intros [H _]. by apply not_elem_of_empty in H.
  - intros n H. by apply elem_of_nil in H.
Qed.

Lemma related_entities_closed (calls : list call) (rel : option RelationType)
    (a : string) (d : Z) :
  a ∈ dom (nodes (build calls)) →
  (∀ x, within (edges_of calls) rel a d x → x ∈ dom (nodes (build calls))) →
  ∃ l, get_related_entities (build calls) a None rel d = Some (Ok l)
       ∧ NoDup (map node_id l)
       ∧ (∀ n, n ∈ l → nodes (build calls) !! node_id n = Some n)
       ∧ (∀ x, x ∈ map node_id l ↔ x ≠ a ∧ within (edges_of calls) rel a d x).
Proof.
  intros Ha Hclosed. unfold get_related_entities.
  rewrite decide_True by done.
  destruct (related_loop_returns (build calls) a None rel d
              (budget (build calls) a) [(a, 0)] ∅ []) as [r Hr].
  { apply Forall_singleton. apply universe_start. }
  { unfold measure, budget. simpl.
    replace (universe (build calls) a ∖ ∅) with (universe (build calls) a)
      by (apply set_eq; intros y; rewrite elem_of_difference;
          split; [intros ?; split; [done | apply not_elem_of_empty] | tauto]).
    lia. }
  rewrite Hr.
  destruct (related_loop_correct calls rel a d _ _ _ _ ∅ r Hclosed
              (related_inv_init calls rel a d) Hr)
    as (l & -> & Hnd & Hnodes & Hiff).
  by exists l.
Qed.

Section CustomerGraph.

Variable isoformat : Z → string.
Variable customer : Customer.
Variable invoices : list Invoice.
Variable contacts : list Contact.
Variable interactions : list Interaction.

Lemma build_from_customer_data_calls (g : GraphEngine) :
  build_from_customer_data isoformat g customer invoices contacts interactions
  = foldl run_call g
      (customer_data_calls isoformat customer invoices contacts interactions).
Proof.
  unfold build_from_customer_data, customer_data_calls. simpl.
  by rewrite !foldl_app, !foldl_run_call_flat_map.
Qed.

Lemma edges_of_customer_data :
  edges_of
    (customer_data_calls isoformat customer invoices contacts interactions)
  = flat_map (λ i, [invoice_edge customer i;
                    reverse (invoice_edge customer i)]) invoices
    ++ flat_map (λ c, [contact_edge customer c;
                       reverse (contact_edge customer c)]) contacts
    ++ flat_map (λ i, [interaction_edge isoformat customer i;
                       reverse (interaction_edge isoformat customer i)])
                interactions.
Proof.
  unfold customer_data_calls.
  change (AddNode ?n :: ?l) with ([AddNode n] ++ l).
  by rewrite !edges_of_app, !edges_of_entities.
Qed.

Lemma customer_edge_shape (e : GraphEdge) :
  e ∈ edges_of
        (customer_data_calls isoformat customer invoices contacts interactions)
  →
  (0.4 <= strength e <= 1)%Q
  ∧ ((from_node e = customer_id customer
      ∧ to_node e ∈ entity_ids invoices contacts interactions)
     ∨ (to_node e = customer_id customer
        ∧ from_node e ∈ entity_ids invoices contacts interactions)).
Proof.
  rewrite edges_of_customer_data. unfold entity_ids.
  rewrite !elem_of_app, !elem_of_flat_map.
  intros [(i & Hi & He)|[(c & Hc & He)|(i & Hi & He)]];
    apply elem_of_cons in He as [->|He];
    try (apply list_elem_of_singleton in He as ->); simpl.
  - split; [case_decide; vm_compute; split; discriminate|].
    left. split; [done|]. left. apply elem_of_map. by exists i.
  - split; [case_decide; vm_compute; split; discriminate|].
    right. split; [done|]. left. apply elem_of_map. by exists i.
  - split; [vm_compute; split; discriminate|].
    left. split; [done|]. right. left. apply elem_of_map. by exists c.
  - split; [vm_compute; split; discriminate|].
    right. split; [done|]. right. left. apply elem_of_map. by exists c.
  - split; [unfold sentiment_strength; destruct (interaction_sentiment i);
            repeat case_decide; vm_compute; split; discriminate|].
    left. split; [done|]. right. right. apply elem_of_map. by exists i.
  - split; [unfold sentiment_strength; destruct (interaction_sentiment i);
            repeat case_decide; vm_compute; split; discriminate|].
    right. split; [done|]. right. right. apply elem_of_map. by exists i.
Qed.

(** X10. The graph [build_from_customer_data] builds from nothing is a
    star around the customer: every stored edge joins the customer and one
    of the invoices, contacts or interactions, in one direction or the
    other, with a strength between 0.4 and 1; and [get_stats] counts two
    directed edges for each invoice, contact and interaction. *)
Theorem build_from_customer_data_star :
  let g := build_from_customer_data isoformat init customer invoices contacts
             interactions in
  (∀ k e, e ∈ get_all_edges g k →
     (0.4 <= strength e <= 1)%Q
     ∧ ((from_node e = customer_id customer
         ∧ to_node e ∈ entity_ids invoices contacts interactions)
        ∨ (to_node e = customer_id customer
           ∧ from_node e ∈ entity_ids invoices contacts interactions)))
  ∧ stats_edges (get_stats g)
    = 2 * Z.of_nat (length invoices + length contacts + length interactions).
Proof.
  intros g. unfold g. rewrite build_from_customer_data_calls.
  fold (build (customer_data_calls isoformat customer invoices contacts
                 interactions)).
  split.
  - intros k e He. apply customer_edge_shape.
    unfold get_all_edges in He. rewrite outgoing_build, incoming_build in He.
    apply elem_of_app in He as [He|He];
      by apply list_elem_of_filter in He as [_ He].
  - unfold get_stats. simpl. rewrite sum_list_length_concat.
    fold (stored (edges (build (customer_data_calls isoformat customer invoices
                                  contacts interactions)))).
    rewrite length_stored_build, edges_of_customer_data, !length_app.
    assert (Hlen : ∀ {A} (h : A → GraphEdge) (l : list A),
      length (flat_map (λ x, [h x; reverse (h x)]) l) = (2 * length l)%nat).
    { intros A h l. induction l as [|x l IH]; simpl; lia. }
    rewrite !Hlen. lia.
Qed.


Lemma elem_of_edges_of_customer_data (e : GraphEdge) :
  e ∈ edges_of
        (customer_data_calls isoformat customer invoices contacts interactions)
  ↔ ∃ e0, (e = e0 ∨ e = reverse e0)
          ∧ ((∃ i, i ∈ invoices ∧ e0 = invoice_edge customer i)
             ∨ (∃ c, c ∈ contacts ∧ e0 = contact_edge customer c)
             ∨ (∃ i, i ∈ interactions
                     ∧ e0 = interaction_edge isoformat customer i)).
Proof.
  rewrite edges_of_customer_data, !elem_of_app, !elem_of_flat_map. split.
  - intros [(i & Hi & He)|[(c & Hc & He)|(i & Hi & He)]].
    + exists (invoice_edge customer i). split; [|eauto].
      apply elem_of_cons in He as [->|He]; [by left|].
      apply list_elem_of_singleton in He as ->. by right.
    + exists (contact_edge customer c). split; [|eauto 6].
      apply elem_of_cons in He as [->|He]; [by left|].
      apply list_elem_of_singleton in He as ->. by right.
    + exists (interaction_edge isoformat customer i). split; [|eauto 6].
      apply elem_of_cons in He as [->|He]; [by left|].
      apply list_elem_of_singleton in He as ->. by right.
  - intros (e0 & He & [(i & Hi & ->)|[(c & Hc & ->)|(i & Hi & ->)]]);
      [left | right; left | right; right];
      (eexists; split; [eassumption|]);
      destruct He as [->| ->]; [by left | right; by left
                               | by left | right; by left
                               | by left | right; by left].
Qed.

Lemma customer_adjacent (y : string) :
  adjacent (edges_of (customer_data_calls isoformat customer invoices contacts
                        interactions))
           None (customer_id customer) y
  ↔ y ∈ entity_ids invoices contacts interactions.
Proof.
  split.
  - intros (e & He & _ & Hends).
    apply customer_edge_shape in He as [_ Hshape].
    destruct Hends as [[Hf Ht]|[Ht Hf]], Hshape as [[Hf' Ht']|[Ht' Hf']];
      congruence.
  - unfold entity_ids. intros Hy.
    apply elem_of_app in Hy as [Hy|Hy]; [|apply elem_of_app in Hy as [Hy|Hy]];
      apply elem_of_map in Hy as (i & -> & Hi).
    + exists (invoice_edge customer i). split_and!; [|done|by left].
      apply elem_of_edges_of_customer_data. eexists. split; [by left|]. eauto.
    + exists (contact_edge customer i). split_and!; [|done|by left].
      apply elem_of_edges_of_customer_data. eexists. split; [by left|].
      eauto 6.
    + exists (interaction_edge isoformat customer i).
      split_and!; [|done|by left].
      apply elem_of_edges_of_customer_data. eexists. split; [by left|].
      eauto 6.
Qed.

Lemma customer_adjacent_entity (x y : string) :
  x ≠ customer_id customer →
  adjacent (edges_of (customer_data_calls isoformat customer invoices contacts
                        interactions))
           None x y →
  y = customer_id customer.
Proof.
  intros Hx (e & He & _ & Hends).
  apply customer_edge_shape in He as [_ Hshape].
  destruct Hends as [[Hf Ht]|[Ht Hf]], Hshape as [[Hf' Ht']|[Ht' Hf']];
    congruence.
Qed.

(** X11. In the graph [build_from_customer_data] builds from nothing,
    the neighbours of the customer are exactly the ids of the invoices,
    contacts and interactions given; filtered by a relation type they are
    exactly the invoice ids, the contact ids or the interaction ids; and
    any other id has no neighbour but the customer. *)
Theorem build_from_customer_data_neighbors :
  let g := build_from_customer_data isoformat init customer invoices contacts
             interactions in
  (∀ y, y ∈ get_neighbors g (customer_id customer) None
        ↔ y ∈ entity_ids invoices contacts interactions)
  ∧ (∀ y, y ∈ get_neighbors g (customer_id customer) (Some CUSTOMER_INVOICE)
          ↔ y ∈ map invoice_id invoices)
  ∧ (∀ y, y ∈ get_neighbors g (customer_id customer) (Some CUSTOMER_CONTACT)
          ↔ y ∈ map contact_id contacts)
  ∧ (∀ y, y ∈ get_neighbors g (customer_id customer)
                (Some CUSTOMER_INTERACTION)
          ↔ y ∈ map interaction_id interactions)
  ∧ (∀ x y rel, x ≠ customer_id customer → y ∈ get_neighbors g x rel →
                y = customer_id customer).
Proof.
  intros g. unfold g. rewrite build_from_customer_data_calls.
  fold (build (customer_data_calls isoformat customer invoices contacts
                 interactions)).
  split_and!.
  - intros y. rewrite elem_of_get_neighbors. apply customer_adjacent.
  - intros y. rewrite elem_of_get_neighbors, elem_of_map. split.
    + intros (e & He & Hrel & Hends). specialize (Hrel _ eq_refl).
      apply elem_of_edges_of_customer_data in He
        as (e0 & He & [(i & Hi & ->)|[(c & Hc & ->)|(i & Hi & ->)]]);
        destruct He as [->| ->]; try discriminate Hrel; simpl in Hends;
        exists i; (split; [|done]);
        destruct Hends as [[Hf Ht]|[Ht Hf]]; congruence.
    + intros (i & -> & Hi). exists (invoice_edge customer i).
      split_and!; [|by intros ? [= <-]|by left].
      apply elem_of_edges_of_customer_data. eexists. split; [by left|]. eauto.
  - intros y. rewrite elem_of_get_neighbors, elem_of_map. split.
    + intros (e & He & Hrel & Hends). specialize (Hrel _ eq_refl).
      apply elem_of_edges_of_customer_data in He
        as (e0 & He & [(i & Hi & ->)|[(c & Hc & ->)|(i & Hi & ->)]]);
        destruct He as [->| ->]; try discriminate Hrel; simpl in Hends;
        exists c; (split; [|done]);
        destruct Hends as [[Hf Ht]|[Ht Hf]]; congruence.
    + intros (c & -> & Hc). exists (contact_edge customer c).
      split_and!; [|by intros ? [= <-]|by left].
      apply elem_of_edges_of_customer_data. eexists. split; [by left|].
      eauto 6.
  - intros y. rewrite elem_of_get_neighbors, elem_of_map. split.
    + intros (e & He & Hrel & Hends). specialize (Hrel _ eq_refl).
      apply elem_of_edges_of_customer_data in He
        as (e0 & He & [(i & Hi & ->)|[(c & Hc & ->)|(i & Hi & ->)]]);
        destruct He as [->| ->]; try discriminate Hrel; simpl in Hends;
        exists i; (split; [|done]);
        destruct Hends as [[Hf Ht]|[Ht Hf]]; congruence.
    + intros (i & -> & Hi). exists (interaction_edge isoformat customer i).
      split_and!; [|by intros ? [= <-]|by left].
      apply elem_of_edges_of_customer_data. eexists. split; [by left|].
      eauto 6.
  - intros x y rel Hx Hy. apply elem_of_get_neighbors in Hy.
    apply (customer_adjacent_entity x y Hx).
    destruct Hy as (e & He & _ & Hends). exists e. by split_and!.
Qed.


Lemma dom_nodes_customer_data :
  dom (nodes (build (customer_data_calls isoformat customer invoices contacts
                       interactions)))
  = list_to_set (customer_id customer
                 :: entity_ids invoices contacts interactions).
Proof.
  rewrite dom_nodes_build. f_equal. unfold customer_data_calls, entity_ids.
  change (AddNode ?n :: ?l) with ([AddNode n] ++ l).
  unfold node_ids_of. rewrite !flat_map_app.
  fold (node_ids_of (flat_map (λ invoice, [AddNode (invoice_node invoice);
                           AddEdge (invoice_edge customer invoice) true])
              invoices)).
  fold (node_ids_of (flat_map (λ contact, [AddNode (contact_node contact);
                           AddEdge (contact_edge customer contact) true])
              contacts)).
  fold (node_ids_of (flat_map (λ interaction,
                 [AddNode (interaction_node interaction);
                  AddEdge (interaction_edge isoformat customer interaction)
                          true])
              interactions)).
  by rewrite !node_ids_of_entities.
Qed.

(** X12. In the graph [build_from_customer_data] builds from nothing,
    [get_related_entities] from the customer with a depth of at least one
    raises no [KeyError]: it returns stored nodes with pairwise distinct
    ids, which are exactly the ids of the invoices, contacts and
    interactions other than the customer's own id. *)
Theorem build_from_customer_data_related (d : Z) :
  1 ≤ d →
  let g := build_from_customer_data isoformat init customer invoices contacts
             interactions in
  ∃ l, get_related_entities g (customer_id customer) None None d = Some (Ok l)
       ∧ NoDup (map node_id l)
       ∧ (∀ n, n ∈ l → get_node g (node_id n) = Some n)
       ∧ (∀ x, x ∈ map node_id l
               ↔ x ≠ customer_id customer
                 ∧ x ∈ entity_ids invoices contacts interactions).
Proof.
  intros Hd g. unfold g. rewrite build_from_customer_data_calls.
  fold (build (customer_data_calls isoformat customer invoices contacts
                 interactions)).
  set (calls := customer_data_calls isoformat customer invoices contacts
                  interactions).
  assert (Hclosed : ∀ x, within (edges_of calls) None (customer_id customer) d x
                         → x ∈ dom (nodes (build calls))).
  { intros x. apply within_closed.
    - unfold calls. rewrite dom_nodes_customer_data.
      apply elem_of_list_to_set. by left.
    - apply Forall_forall. intros e He. unfold calls.
      rewrite dom_nodes_customer_data.
      rewrite !elem_of_list_to_set, !elem_of_cons.
      apply customer_edge_shape in He as [_ [[-> Ht]|[-> Hf]]]; auto. }
  destruct (related_entities_closed calls None (customer_id customer) d)
    as (l & Hl & Hnd & Hnodes & Hiff); [|done|].
  { unfold calls. rewrite dom_nodes_customer_data.
    apply elem_of_list_to_set. by left. }
  exists l. split_and!; [done | done | done |].
  intros x. rewrite Hiff. split; intros [Hx Hw]; (split; [done|]).
  - apply Hclosed in Hw. unfold calls in Hw.
    rewrite dom_nodes_customer_data in Hw.
    apply elem_of_list_to_set, elem_of_cons in Hw as [?|?]; done.
  - exists 1%nat. split; [lia|].
    apply (walk_S _ _ _ _ (customer_id customer)); [constructor|].
    by apply customer_adjacent.
Qed.

End CustomerGraph.

Lemma build_from_customer_data_related_witness :
  ∃ l, get_related_entities
         (build_from_customer_data (λ _, "") init
            (mkCustomer "CUST-001" "Acme" None None None None None)
            [mkInvoice "INV-001" "CUST-001" 100 None None None (Some "paid")
                       None]
            [] [])
         "CUST-001" None None 1 = Some (Ok l)
       ∧ NoDup (map node_id l)
       ∧ (∀ n, n ∈ l →
            get_node (build_from_customer_data (λ _, "") init
                        (mkCustomer "CUST-001" "Acme" None None None None None)
                        [mkInvoice "INV-001" "CUST-001" 100 None None None
                                   (Some "paid") None]
                        [] [])
                     (node_id n) = Some n)
       ∧ (∀ x, x ∈ map node_id l
               ↔ x ≠ "CUST-001"
                 ∧ x ∈ entity_ids
                         [mkInvoice "INV-001" "CUST-001" 100 None None None
                                    (Some "paid") None] [] []).
Proof.
  apply (build_from_customer_data_related (λ _, "")
           (mkCustomer "CUST-001" "Acme" None None None None None)
           [mkInvoice "INV-001" "CUST-001" 100 None None None (Some "paid")
                      None]
           [] [] 1).
  lia.
Defined.

(** *** Related entities: the order of the result *)

Lemma StronglySorted_weaken {A} (R R' : A → A → Prop) (l : list A) :
  (∀ x y, x ∈ l → y ∈ l → R x y → R' x y) →
  StronglySorted R l → StronglySorted R' l.
Proof.
  intros Himpl Hl. induction Hl as [|x l Hl IH Hx]; constructor.
  - apply IH. intros y z Hy Hz. apply Himpl; by right.
  - rewrite Forall_forall in Hx. apply Forall_forall. intros y Hy.
    apply Himpl; [by left | by right | by apply Hx].
Qed.

Lemma StronglySorted_filter {A} (R : A → A → Prop) (P : A → Prop)
    `{∀ x, Decision (P x)} (l : list A) :
  StronglySorted R l → StronglySorted R (filter P l).
Proof.
  induction 1 as [|x l Hl IH Hx]; [constructor|].
  rewrite filter_cons. destruct (decide (P x)); [|done].
  constructor; [done|]. rewrite Forall_forall in Hx. apply Forall_forall.
  intros y Hy. apply list_elem_of_filter in Hy as [_ Hy]. by apply Hx.
Qed.

Section RelatedOrder.

Variable calls : list call.
Variable rel : option RelationType.
Variable a : string.
Variable d : Z.

Lemma related_inv_nearest (visited : gset string) (related : list GraphNode)
    (vd : gmap string Z) (n : nat) (y : string) :
  related_inv (build calls) (edges_of calls) rel a d [] visited related vd →
  walk (edges_of calls) rel a n y → Z.of_nat n ≤ d →
  ∃ dy, vd !! y = Some dy ∧ dy ≤ Z.of_nat n.
Proof.
  intros [Hdom Hq Hv Hsort Hspread Hbehind Hexp Hstart Hnd Hids Hnodes] Hwalk.
  induction Hwalk as [|n z w Hwalk IH Hadj]; intros Hle.
  - destruct Hstart as [(ds & Hds & ?)|Hin]; [|by apply elem_of_nil in Hin].
    exists ds. split; [done | lia].
  - destruct IH as (dz & Hdz & Hdzn); [lia|].
    destruct (Hexp z dz w Hdz) as [(dw & Hdw & ?)|Hin];
      [lia | done | | by apply elem_of_nil in Hin].
    exists dw. split; [done | lia].
Qed.

Lemma related_loop_ordered (fuel : nat) (queue : list (string * Z))
    (visited : gset string) (related : list GraphNode) (vd : gmap string Z)
    (l : list GraphNode) :
  related_inv (build calls) (edges_of calls) rel a d queue visited related vd →
  StronglySorted (by_depth vd) related →
  related_loop fuel (build calls) a None rel d queue visited related
  = Some (Ok l) →
  ∃ visited' vd',
    related_inv (build calls) (edges_of calls) rel a d [] visited' l vd'
    ∧ StronglySorted (by_depth vd') l.
Proof.
  revert queue visited related vd.
  induction fuel as [|fuel IH]; intros queue visited related vd Hinv Hord;
    [done|].
  destruct queue as [|[x dx] queue]; simpl.
  { intros [= <-]. by exists visited, vd. }
  destruct (decide (x ∈ visited)) as [Hx|Hx].
  { apply (IH _ _ _ vd); [by eapply related_inv_skip | done]. }
  assert (Hnone : vd !! x = None).
  { apply not_elem_of_dom. by rewrite (inv_dom _ _ _ _ _ _ _ _ _ Hinv). }
  assert (Hkeep : StronglySorted (by_depth (<[x := dx]> vd)) related).
  { apply (StronglySorted_weaken (by_depth vd)); [|done].
    intros n m Hn Hm Hnm dn dm Hdn Hdm.
    assert (Hid : ∀ n', n' ∈ related → node_id n' ≠ x).
    { intros n' Hn' Heq.
      destruct (proj1 (inv_related_ids _ _ _ _ _ _ _ _ _ Hinv (node_id n')))
        as [Hv _]; [apply elem_of_map; by exists n'|].
      by rewrite Heq in Hv. }
    rewrite lookup_insert_ne in Hdn by (intros Heq; by apply (Hid n Hn)).
    rewrite lookup_insert_ne in Hdm by (intros Heq; by apply (Hid m Hm)).
    by apply Hnm. }
  assert (Hnext : ∀ related',
    (if decide (x ≠ a)
     then ∃ n, nodes (build calls) !! x = Some n ∧ related' = related ++ [n]
     else related' = related) →
    related_loop fuel (build calls) a None rel d
      (if decide (dx < d)
       then queue ++ map (λ n, (n, dx + 1))
                         (filter (λ n, n ∉ ({[x]} ∪ visited : gset string))
                                 (get_neighbors (build calls) x rel))
       else queue)
      ({[x]} ∪ visited) related' = Some (Ok l) →
    ∃ visited' vd',
      related_inv (build calls) (edges_of calls) rel a d [] visited' l vd'
      ∧ StronglySorted (by_depth vd') l).
  { intros related' Hrel. apply (IH _ _ _ (<[x := dx]> vd)).
    - pose proof (related_inv_visit calls rel a d x dx queue visited related vd
                    _ related' Hinv Hx eq_refl Hrel) as Hinv'.
      destruct (decide (dx < d)); [done | by rewrite app_nil_r in Hinv'].
    - destruct (decide (x ≠ a)) as [Hxa|Hxa]; [|by rewrite Hrel].
      destruct Hrel as (n & Hn & ->).
      apply StronglySorted_app; [done | repeat constructor |].
      intros n1 n2 Hn1 Hn2 d1 d2 Hd1 Hd2.
      apply list_elem_of_singleton in Hn2 as ->.
      rewrite (nodes_build_keyed _ _ _ Hn), lookup_insert_eq in Hd2.
      injection Hd2 as <-.
      assert (node_id n1 ≠ x) as Hne.
      { intros Heq.
        destruct (proj1 (inv_related_ids _ _ _ _ _ _ _ _ _ Hinv (node_id n1)))
          as [Hv _]; [apply elem_of_map; by exists n1|].
        by rewrite Heq in Hv. }
      rewrite lookup_insert_ne in Hd1 by done.
      apply (inv_behind _ _ _ _ _ _ _ _ _ Hinv (node_id n1) d1 (x, dx));
        [done | by left]. }
  destruct (decide (x ≠ a)) as [Hxa|Hxa].
  - destruct (nodes (build calls) !! x) as [n|] eqn:Hn; [|done].
    apply Hnext. by exists n.
  - by apply Hnext.
Qed.

End RelatedOrder.

(** X13. [get_related_entities] lists the nodes breadth first: whenever
    it returns a list, with or without filters, a node of the list is at
    most as many hops from the start as every node listed after it. *)
Theorem get_related_entities_breadth_first (calls : list call) (a : string)
    (ety : option EntityType) (rel : option RelationType) (d : Z)
    (l : list GraphNode) :
  get_related_entities (build calls) a ety rel d = Some (Ok l) →
  StronglySorted (λ n m, nearer (edges_of calls) rel a (node_id n) (node_id m))
                 l.
Proof.
  assert (Hnone : ∀ l0,
    get_related_entities (build calls) a None rel d = Some (Ok l0) →
    StronglySorted
      (λ n m, nearer (edges_of calls) rel a (node_id n) (node_id m)) l0).
  { intros l0. unfold get_related_entities.
    destruct (decide (a ∈ dom (nodes (build calls)))) as [Ha|Ha];
      [|intros [= <-]; constructor].
    intros Hl0.
    destruct (related_loop_ordered calls rel a d _ _ _ _ ∅ l0
                (related_inv_init calls rel a d) ltac:(constructor) Hl0)
      as (visited & vd & Hinv & Hord).
    apply (StronglySorted_weaken (by_depth vd)); [|done].
    intros n m Hn Hm Hnm j Hwalk.
    assert (Hdepth : ∀ n', n' ∈ l0 →
      ∃ dn, vd !! node_id n' = Some dn
            ∧ met (edges_of calls) rel a d (node_id n') dn).
    { intros n' Hn'.
      assert (node_id n' ∈ visited) as Hv.
      { destruct (proj1 (inv_related_ids _ _ _ _ _ _ _ _ _ Hinv
                                 (node_id n'))) as [Hv _]; [|done].
        apply elem_of_map. by exists n'. }
      rewrite <- (inv_dom _ _ _ _ _ _ _ _ _ Hinv) in Hv.
      apply elem_of_dom in Hv as [dn Hdn]. exists dn. split; [done|].
      by apply (inv_visited_met _ _ _ _ _ _ _ _ _ Hinv). }
    destruct (Hdepth n Hn) as (dn & Hdn & H0 & Hwn & Hbound).
    destruct (Hdepth m Hm) as (dm & Hdm & _).
    specialize (Hnm dn dm Hdn Hdm).
    exists (Z.to_nat dn). split; [|done].
    destruct (decide (Z.of_nat j ≤ d)) as [Hj|Hj].
    - destruct (related_inv_nearest calls rel a d _ _ _ j (node_id m)
                  Hinv Hwalk Hj) as (dm' & Hdm' & Hle).
      rewrite Hdm in Hdm'. injection Hdm' as <-. lia.
    - lia. }
  destruct ety as [t|]; [|apply Hnone].
  intros Hl. unfold get_related_entities in *.
  destruct (decide (a ∈ dom (nodes (build calls)))) as [Ha|Ha];
    [|injection Hl as <-; constructor].
  pose proof (related_loop_filter (build calls) a t rel d
                (budget (build calls) a) [(a, 0)] ∅ []) as Hfilter.
  rewrite filter_nil in Hfilter. rewrite Hfilter in Hl.
  destruct (related_loop (budget (build calls) a) (build calls) a None rel d
              [(a, 0)] ∅ []) as [[l0|e]|]; try discriminate.
  injection Hl as <-. apply StronglySorted_filter. by apply Hnone.
Qed.

Lemma get_related_entities_breadth_first_witness :
  StronglySorted
    (λ n m, nearer (edges_of scenario_c_calls) None "A" (node_id n) (node_id m))
    [node "B"; node "C"].
Proof.
  apply (get_related_entities_breadth_first scenario_c_calls "A" None None 2).
  vm_compute. reflexivity.
Defined.

(** *** Relationship strength in both directions *)

Lemma direct_strengths_mirror (calls : list call) (a b : string) :
  Forall (λ c, match c with AddEdge _ false => False | _ => True end) calls →
  map strength (filter (λ e, from_node e = a ∧ to_node e = b) (edges_of calls))
  = map strength
      (filter (λ e, from_node e = b ∧ to_node e = a) (edges_of calls)).
Proof.
  induction 1 as [|c calls Hc _ IH]; [done|].
  change (c :: calls) with ([c] ++ calls).
  rewrite edges_of_app, !filter_app, !map_app, IH. f_equal.
  destruct c as [n|e [|]]; [done | | done]. cbn.
  repeat case_decide; simpl; try done; tauto.
Qed.

(** X14. In a graph whose edges were all inserted as bidirectional,
    [calculate_relationship_strength] gives the same strength from [a] to
    [b] as from [b] to [a]. *)
Theorem calculate_relationship_strength_symmetric (calls : list call)
    (a b : string) :
  Forall (λ c, match c with AddEdge _ false => False | _ => True end) calls →
  calculate_relationship_strength (build calls) a b
  = calculate_relationship_strength (build calls) b a.
Proof.
  intros Hbi. unfold calculate_relationship_strength.
  rewrite !direct_edges_build.
  pose proof (direct_strengths_mirror calls a b Hbi) as Hmirror.
  destruct (filter (λ e, from_node e = a ∧ to_node e = b) (edges_of calls))
    as [|e rest];
    destruct (filter (λ e, from_node e = b ∧ to_node e = a) (edges_of calls))
    as [|e' rest']; try discriminate Hmirror.
  - cbv zeta.
    by rewrite (comm_L (∩) (list_to_set (get_neighbors (build calls) a None))).
  - simpl in Hmirror. injection Hmirror as -> ->. done.
Qed.

Lemma calculate_relationship_strength_symmetric_witness :
  calculate_relationship_strength
    (build [AddNode (node "A"); AddNode (node "B");
            AddEdge (edge "A" "B" 0.6%Q) true]) "A" "B"
  = calculate_relationship_strength
      (build [AddNode (node "A"); AddNode (node "B");
              AddEdge (edge "A" "B" 0.6%Q) true]) "B" "A".
Proof.
  apply (calculate_relationship_strength_symmetric
           [AddNode (node "A"); AddNode (node "B");
            AddEdge (edge "A" "B" 0.6%Q) true] "A" "B").
  repeat constructor.
Defined.

(** ** The relationship detector *)

(** *** Order of the result *)

Lemma filter_insert_by_confidence (q : Q) (rel : DetectedRelationship)
    (sorted : list DetectedRelationship) :
  filter (λ r, Qeq_bool (confidence r) q = true)
         (insert_by_confidence rel sorted)
  = filter (λ r, Qeq_bool (confidence r) q = true) (rel :: sorted).
Proof.
  induction sorted as [|r rest IH]; [done|]. simpl.
  destruct (Qgtb (confidence r) (confidence rel)) eqn:Hgt; [|done].
  apply Qgtb_true in Hgt.
  rewrite (filter_cons _ r), IH, !filter_cons.
  destruct (decide (Qeq_bool (confidence r) q = true)) as [Hr|Hr];
    destruct (decide (Qeq_bool (confidence rel) q = true)) as [Hrel|Hrel];
    try done.
  apply Qeq_bool_iff in Hr, Hrel. rewrite Hr, Hrel in Hgt.
  by apply Qlt_irrefl in Hgt.
Qed.

Lemma filter_sort_by_confidence (q : Q) (rels : list DetectedRelationship) :
  filter (λ r, Qeq_bool (confidence r) q = true) (sort_by_confidence rels)
  = filter (λ r, Qeq_bool (confidence r) q = true) rels.
Proof.
  induction rels as [|r rels IH]; [done|].
  unfold sort_by_confidence. simpl. rewrite filter_insert_by_confidence.
  fold (sort_by_confidence rels). by rewrite !filter_cons, IH.
Qed.

(** *** De-duplication of distinct relationships *)

Lemma dict_get_fresh {V} (k : endpoints) (d : list (endpoints * V)) :
  k ∉ map fst d → dict_get k d = None.
Proof.
  induction d as [|[k' v] d IH]; [done|]. simpl. intros Hk.
  rewrite not_elem_of_cons in Hk. destruct Hk as [Hne Hk].
  rewrite decide_False by done. by apply IH.
Qed.

Lemma dict_set_fresh {V} (k : endpoints) (v : V) (d : list (endpoints * V)) :
  k ∉ map fst d → dict_set k v d = d ++ [(k, v)].
Proof.
  induction d as [|[k' v'] d IH]; [done|]. simpl. intros Hk.
  rewrite not_elem_of_cons in Hk. destruct Hk as [Hne Hk].
  rewrite decide_False by done. by rewrite IH.
Qed.

Lemma foldl_dedup_step_fresh (rels : list DetectedRelationship)
    (seen : list (endpoints * DetectedRelationship)) :
  NoDup (map fst seen ++ map key_of rels) →
  foldl dedup_step seen rels = seen ++ map (λ r, (key_of r, r)) rels.
Proof.
  revert seen. induction rels as [|r rels IH]; intros seen Hnd; simpl.
  - by rewrite app_nil_r.
  - assert (Hfresh : key_of r ∉ map fst seen).
    { apply NoDup_app in Hnd as (_ & Hdisj & _). intros Hin.
      apply (Hdisj _ Hin). by left. }
    unfold dedup_step at 2. rewrite dict_get_fresh, dict_set_fresh by done.
    rewrite IH.
    + by rewrite <- app_assoc.
    + rewrite map_app. simpl. rewrite <- app_assoc. done.
Qed.

Lemma deduplicate_distinct (rels : list DetectedRelationship) :
  NoDup (map key_of rels) → _deduplicate_relationships rels = rels.
Proof.
  intros Hnd. unfold _deduplicate_relationships.
  rewrite foldl_dedup_step_fresh by done. simpl.
  rewrite map_map. simpl. apply map_id.
Qed.

(** X15. [_deduplicate_relationships] is idempotent, and it returns a
    list unchanged, order included, when no two of its relationships share
    their four endpoints. *)
Theorem deduplicate_relationships_idempotent
    (rels : list DetectedRelationship) :
  _deduplicate_relationships (_deduplicate_relationships rels)
  = _deduplicate_relationships rels
  ∧ (NoDup (map key_of rels) → _deduplicate_relationships rels = rels).
Proof.
  split; [|apply deduplicate_distinct].
  apply deduplicate_distinct. apply deduplicate_spec.
Qed.

(** *** References without a separator *)

Lemma split_pieces (sep : ascii) (s : string) :
  Forall (λ piece, occurs sep piece = false) (split sep s).
Proof.
  induction s as [|c rest IH]; simpl.
  - by constructor.
  - destruct (decide (c = sep)) as [->|Hne].
    + by constructor.
    + pose proof (split_nonempty sep rest) as Hnil.
      destruct (split sep rest) as [|piece pieces]; [done|].
      apply Forall_cons in IH as [Hp Hps]. constructor; [|done].
      simpl. by rewrite decide_False.
Qed.

Lemma split_with_separator (sep : ascii) (s : string) :
  occurs sep s = true → (2 ≤ length (split sep s))%nat.
Proof.
  induction s as [|c rest IH]; simpl; [done|].
  pose proof (split_nonempty sep rest) as Hnil.
  destruct (decide (c = sep)) as [->|Hne].
  - intros _. destruct (split sep rest); [done|]. simpl. lia.
  - intros H. specialize (IH H).
    destruct (split sep rest) as [|piece pieces]; [done|]. done.
Qed.

Lemma string_app_assoc (s1 s2 s3 : string) :
  (s1 +:+ s2) +:+ s3 = s1 +:+ s2 +:+ s3.
Proof.
  induction s1 as [|c s1 IH]; [done|].
  change (String c ((s1 +:+ s2) +:+ s3) = String c (s1 +:+ s2 +:+ s3)).
  by f_equal.
Qed.

Lemma join_cons (sep p : string) (parts : list string) :
  parts ≠ [] → join sep (p :: parts) = p +:+ sep +:+ join sep parts.
Proof. by destruct parts. Qed.

Lemma join_removelast_last (sep : string) (parts : list string) :
  (2 ≤ length parts)%nat →
  join sep (removelast parts) +:+ sep +:+ List.last parts "" = join sep parts.
Proof.
  induction parts as [|p parts IH]; [simpl; lia|].
  destruct parts as [|q parts]; [simpl; lia|]. intros _.
  destruct parts as [|r parts]; [done|].
  specialize (IH ltac:(simpl; lia)).
  rewrite (join_cons sep p (q :: r :: parts)) by done.
  rewrite <- IH.
  change (removelast (p :: q :: r :: parts))
    with (p :: removelast (q :: r :: parts)).
  change (List.last (p :: q :: r :: parts) "")
    with (List.last (q :: r :: parts) "").
  rewrite join_cons; [by rewrite !string_app_assoc|].
  change (removelast (q :: r :: parts)) with (q :: removelast (r :: parts)).
  done.
Qed.

(** *** Sorting, references and datatypes *)

Section DetectorFurther.

Variable re_match : string → string → option (list string).
Variable lower : string → string.
Variable upper : string → string.

(** X16. The list [detect_relationships] returns is in order of
    decreasing confidence, and the sort is stable: the relationships of any
    one confidence come in the order de-duplication left them in. *)
Theorem detect_relationships_sorted (tables : list Table)
    (columns_by_table : gmap string (list Column)) :
  let emitted :=
    detect_relationships re_match lower upper tables columns_by_table in
  StronglySorted (λ x y, (confidence y <= confidence x)%Q) emitted
  ∧ ∀ q, filter (λ r, Qeq_bool (confidence r) q = true) emitted
         = filter (λ r, Qeq_bool (confidence r) q = true)
             (_deduplicate_relationships
                (candidates re_match lower upper tables columns_by_table)).
Proof.
  intros emitted. split.
  - apply sort_by_confidence_descending.
  - intros q. apply filter_sort_by_confidence.
Qed.

(** X17. Whatever the reference string, the target column
    [_create_fk_relationship] extracts contains no separator; a reference
    without a separator gives an empty target table id and the whole
    reference as the column; and a reference with a separator is the table
    id, a separator and the column, put together again. *)
Theorem create_fk_relationship_reference (from_table_id : string)
    (column : Column) (fk_ref : string) :
  let r := _create_fk_relationship from_table_id column fk_ref in
  occurs "." (to_column r) = false
  ∧ (occurs "." fk_ref = false → to_table_id r = "" ∧ to_column r = fk_ref)
  ∧ (occurs "." fk_ref = true →
     to_table_id r +:+ "." +:+ to_column r = fk_ref).
Proof.
  intros r. unfold r, _create_fk_relationship. cbn [to_table_id to_column].
  split_and!.
  - pose proof (split_pieces "." fk_ref) as Hall.
    pose proof (split_nonempty "." fk_ref) as Hne.
    destruct (exists_last Hne) as (front & piece & Heq).
    rewrite Heq in Hall |- *.
    rewrite last_last. rewrite Forall_app, Forall_singleton in Hall.
    by destruct Hall.
  - intros Hno. by rewrite (split_without_separator _ _ Hno).
  - intros Hdot. rewrite join_removelast_last
      by (by apply split_with_separator).
    apply join_split.
Qed.

(** X18. [_are_types_compatible] is an equivalence on datatype names: it
    is reflexive, symmetric and transitive. *)
Theorem are_types_compatible_equivalence :
  (∀ a, _are_types_compatible upper a a = true)
  ∧ (∀ a b, _are_types_compatible upper a b = _are_types_compatible upper b a)
  ∧ (∀ a b c, _are_types_compatible upper a b = true →
              _are_types_compatible upper b c = true →
              _are_types_compatible upper a c = true).
Proof.
  assert (Hdisj : ∀ x, x ∈ int_types → x ∈ string_types → False).
  { intros x Hi Hs. unfold int_types in Hi. unfold string_types in Hs.
    repeat (apply elem_of_cons in Hi as [->|Hi];
            [repeat (apply elem_of_cons in Hs as [Hs|Hs]; [discriminate|]);
             by apply elem_of_nil in Hs|]).
    by apply elem_of_nil in Hi. }
  assert (Hspec : ∀ a b,
    _are_types_compatible upper a b = true
    ↔ (upper a ∈ int_types ∧ upper b ∈ int_types)
      ∨ (upper a ∈ string_types ∧ upper b ∈ string_types)
      ∨ upper a = upper b).
  { intros a b. unfold _are_types_compatible.
    destruct (bool_decide (upper a ∈ int_types)) eqn:Hai;
      destruct (bool_decide (upper b ∈ int_types)) eqn:Hbi;
      destruct (bool_decide (upper a ∈ string_types)) eqn:Has;
      destruct (bool_decide (upper b ∈ string_types)) eqn:Hbs;
      simpl;
      repeat match goal with
             | H : bool_decide _ = true |- _ => apply bool_decide_eq_true in H
             | H : bool_decide _ = false |- _ => apply bool_decide_eq_false in H
             end;
      try (split; [intros _; tauto | done]);
      (destruct (decide (upper a = upper b)); split; [tauto | | done | ];
       intros [[? ?]|[[? ?]|?]]; done). }
  split_and!.
  - intros a. apply Hspec. by right; right.
  - intros a b. destruct (_are_types_compatible upper b a) eqn:Hba.
    + apply Hspec. apply Hspec in Hba. destruct Hba as [[? ?]|[[? ?]|?]]; auto.
    + destruct (_are_types_compatible upper a b) eqn:Hab; [|done].
      apply Hspec in Hab. rewrite <- Hba. symmetry. apply Hspec.
      destruct Hab as [[? ?]|[[? ?]|?]]; auto.
  - intros a b c Hab Hbc. apply Hspec in Hab, Hbc. apply Hspec.
    destruct Hab as [[Ha Hb]|[[Ha Hb]|Hab]],
             Hbc as [[Hb' Hc]|[[Hb' Hc]|Hbc]]; auto.
    + destruct (Hdisj _ Hb Hb').
    + rewrite <- Hbc. auto.
    + destruct (Hdisj _ Hb' Hb).
    + rewrite <- Hbc. auto.
    + rewrite Hab. auto.
    + rewrite Hab. auto.
    + right. right. congruence.
Qed.

End DetectorFurther.

(** *** Where the relationships come from *)

Lemma table_by_name_lookup (tables : list Table) (name : string) (t : Table) :
  foldl (λ d t, <[tbl_name t := t]> d) (∅ : gmap string Table) tables
    !! name = Some t →
  t ∈ tables ∧ tbl_name t = name.
Proof.
  induction tables as [|t' tables IH] using rev_ind.
  - cbn. by rewrite lookup_empty.
  - rewrite foldl_app. simpl.
    destruct (decide (tbl_name t' = name)) as [<-|Hne].
    + rewrite lookup_insert_eq. intros [= <-]. split; [|done].
      apply elem_of_app. right. by left.
    + rewrite lookup_insert_ne by done. intros H.
      destruct (IH H) as [Hin Hname]. split; [|done].
      apply elem_of_app. by left.
Qed.

Section DetectorProvenance.

Variable re_match : string → string → option (list string).
Variable lower : string → string.
Variable upper : string → string.

Lemma naming_convention_target (source : Table) (source_col : Column)
    (table_by_name : gmap string Table)
    (columns_by_table : gmap string (list Column)) (r : DetectedRelationship) :
  r ∈ _detect_by_naming_convention re_match lower upper source source_col
        table_by_name columns_by_table →
  from_table_id r = tbl_id source
  ∧ from_column r = col_name source_col
  ∧ detection_method r = "naming_convention"
  ∧ ∃ name target target_col,
      table_by_name !! name = Some target
      ∧ target_col ∈ default [] (columns_by_table !! tbl_id target)
      ∧ to_table_id r = tbl_id target
      ∧ to_column r = col_name target_col
      ∧ _are_types_compatible upper (col_datatype source_col)
                              (col_datatype target_col) = true.
Proof.
  unfold _detect_by_naming_convention.
  intros Hr. apply elem_of_flat_map in Hr as (pattern & _ & Hr).
  destruct (re_match pattern (lower (col_name source_col)))
    as [[|entity_name groups]|]; try by apply elem_of_nil in Hr.
  apply elem_of_flat_map in Hr as (name & _ & Hr).
  destruct (table_by_name !! name) as [target|] eqn:Htarget;
    [|by apply elem_of_nil in Hr].
  apply elem_of_flat_map in Hr as (target_col & Hcol & Hr).
  destruct (col_is_primary_key target_col
            || bool_decide (lower (col_name target_col)
                              ∈ ["id"; entity_name +:+ "_id"]));
    [|by apply elem_of_nil in Hr].
  destruct (_are_types_compatible upper (col_datatype source_col)
                                  (col_datatype target_col)) eqn:Hcompat;
    [|by apply elem_of_nil in Hr].
  apply list_elem_of_singleton in Hr as ->. simpl.
  split_and!; try done. by exists name, target, target_col.
Qed.

(** X19. Every relationship [detect_relationships] returns starts at a
    column listed for one of the given tables.  It is either the explicit
    foreign key of that column, flagged and with its reference, or a
    naming-convention match whose target is a column listed for one of the
    given tables, of a datatype compatible with the source column's. *)
Theorem detect_relationships_provenance (tables : list Table)
    (columns_by_table : gmap string (list Column)) (r : DetectedRelationship) :
  r ∈ detect_relationships re_match lower upper tables columns_by_table →
  ∃ table column,
    table ∈ tables
    ∧ column ∈ default [] (columns_by_table !! tbl_id table)
    ∧ from_table_id r = tbl_id table
    ∧ from_column r = col_name column
    ∧ ((detection_method r = "explicit_fk"
        ∧ col_is_foreign_key column = true
        ∧ ∃ fk_ref, col_foreign_key_ref column = Some fk_ref
                    ∧ r = _create_fk_relationship (tbl_id table) column fk_ref)
       ∨ (detection_method r = "naming_convention"
          ∧ ∃ target target_col,
              target ∈ tables
              ∧ target_col ∈ default [] (columns_by_table !! tbl_id target)
              ∧ to_table_id r = tbl_id target
              ∧ to_column r = col_name target_col
              ∧ _are_types_compatible upper (col_datatype column)
                                      (col_datatype target_col) = true)).
Proof.
  intros Hr. unfold detect_relationships in Hr.
  rewrite sort_by_confidence_perm in Hr.
  destruct (deduplicate_spec
              (candidates re_match lower upper tables columns_by_table))
    as (_ & Hsub & _).
  apply Hsub in Hr. unfold candidates in Hr.
  apply elem_of_flat_map in Hr as (table & Htable & Hr).
  apply elem_of_flat_map in Hr as (column & Hcolumn & Hr).
  exists table, column. split; [done|]. split; [done|].
  assert (Hnaming :
    r ∈ _detect_by_naming_convention re_match lower upper table column
          (foldl (λ d t, <[tbl_name t := t]> d) ∅ tables) columns_by_table →
    from_table_id r = tbl_id table
    ∧ from_column r = col_name column
    ∧ ((detection_method r = "explicit_fk"
        ∧ col_is_foreign_key column = true
        ∧ ∃ fk_ref, col_foreign_key_ref column = Some fk_ref
                    ∧ r = _create_fk_relationship (tbl_id table) column fk_ref)
       ∨ (detection_method r = "naming_convention"
          ∧ ∃ target target_col,
              target ∈ tables
              ∧ target_col ∈ default [] (columns_by_table !! tbl_id target)
              ∧ to_table_id r = tbl_id target
              ∧ to_column r = col_name target_col
              ∧ _are_types_compatible upper (col_datatype column)
                                      (col_datatype target_col) = true))).
  { intros H. apply naming_convention_target in H
      as (Hft & Hfc & Hm & name & target & target_col & Hlook & Hcol & Htt
          & Htc & Hcompat).
    split_and!; [done | done |]. right. split; [done|].
    exists target, target_col. split_and!; try done.
    by apply table_by_name_lookup in Hlook as [? _]. }
  unfold detect_column in Hr.
  destruct (col_is_foreign_key column) eqn:Hflag; [|by apply Hnaming].
  destruct (col_foreign_key_ref column) as [[|c fk_ref]|] eqn:Href;
    [by apply Hnaming | | by apply Hnaming].
  apply list_elem_of_singleton in Hr as ->.
  split_and!; [done | done |]. left. split_and!; [done | done |].
  by exists (String c fk_ref).
Qed.

End DetectorProvenance.

Lemma detect_relationships_provenance_witness :
  ∃ r,
    r ∈ detect_relationships py_re_match str_lower str_upper
          [orders; customers] (shop_columns false None)
    ∧ ∃ table column,
        table ∈ [orders; customers]
        ∧ column ∈ default [] (shop_columns false None !! tbl_id table)
        ∧ from_table_id r = tbl_id table
        ∧ from_column r = col_name column
        ∧ ((detection_method r = "explicit_fk"
            ∧ col_is_foreign_key column = true
            ∧ ∃ fk_ref,
                col_foreign_key_ref column = Some fk_ref
                ∧ r = _create_fk_relationship (tbl_id table) column fk_ref)
           ∨ (detection_method r = "naming_convention"
              ∧ ∃ target target_col,
                  target ∈ [orders; customers]
                  ∧ target_col
                      ∈ default [] (shop_columns false None !! tbl_id target)
                  ∧ to_table_id r = tbl_id target
                  ∧ to_column r = col_name target_col
                  ∧ _are_types_compatible str_upper (col_datatype column)
                                          (col_datatype target_col) = true)).
Proof.
  assert (∃ r, head (detect_relationships py_re_match str_lower str_upper
                       [orders; customers] (shop_columns false None))
               = Some r) as [r Hr]
    by (vm_compute; eauto).
  apply head_Some_elem_of in Hr. exists r. split; [done|].
  by apply (detect_relationships_provenance py_re_match str_lower str_upper
              [orders; customers] (shop_columns false None) r).
Defined.

(** *** What the naming convention finds *)

Lemma table_by_name_distinct (tables : list Table) (t : Table) :
  NoDup (map tbl_name tables) →
  t ∈ tables →
  foldl (λ d t, <[tbl_name t := t]> d) (∅ : gmap string Table) tables
    !! tbl_name t = Some t.
Proof.
  induction tables as [|t' tables IH] using rev_ind; intros Hnd Hin.
  - by apply elem_of_nil in Hin.
  - rewrite foldl_app. simpl. rewrite map_app in Hnd.
    apply NoDup_app in Hnd as (Hnd & Hdisj & _).
    apply elem_of_app in Hin as [Hin|Hin].
    + rewrite lookup_insert_ne; [by apply IH|].
      intros Heq. apply (Hdisj (tbl_name t)).
      * apply elem_of_map. by exists t.
      * rewrite <- Heq. by left.
    + apply list_elem_of_singleton in Hin as ->. by rewrite lookup_insert_eq.
Qed.

Section NamingConvention.

Variable re_match : string → string → option (list string).
Variable lower : string → string.
Variable upper : string → string.

(** X20. The naming convention finds what it promises.  Let the tables
    have distinct names and let a column, not an explicit foreign key, have
    a name that matches one of the id patterns with entity name [e].  If a
    table is named [e], [e]s or [e]es and one of its columns is a primary
    key or is named [id] or [e_id], with a compatible datatype, then
    [detect_relationships] returns a relationship from the one column to
    the other, of at least the confidence computed for that pair. *)
Theorem naming_convention_detected (tables : list Table)
    (columns_by_table : gmap string (list Column))
    (table target : Table) (column target_col : Column)
    (pattern entity_name : string) (groups : list string) :
  NoDup (map tbl_name tables) →
  table ∈ tables →
  column ∈ default [] (columns_by_table !! tbl_id table) →
  col_is_foreign_key column = false
  ∨ col_foreign_key_ref column = None
  ∨ col_foreign_key_ref column = Some "" →
  pattern ∈ id_patterns →
  re_match pattern (lower (col_name column)) = Some (entity_name :: groups) →
  target ∈ tables →
  tbl_name target
    ∈ [entity_name +:+ "s"; entity_name; entity_name +:+ "es"] →
  target_col ∈ default [] (columns_by_table !! tbl_id target) →
  col_is_primary_key target_col = true
  ∨ lower (col_name target_col) ∈ ["id"; entity_name +:+ "_id"] →
  _are_types_compatible upper (col_datatype column) (col_datatype target_col)
  = true →
  ∃ r,
    r ∈ detect_relationships re_match lower upper tables columns_by_table
    ∧ key_of r
      = (tbl_id table, col_name column, tbl_id target, col_name target_col)
    ∧ (_calculate_confidence upper column target_col entity_name
                             (tbl_name target) <= confidence r)%Q.
Proof.
  intros Hnd Htable Hcolumn Hnofk Hpattern Hmatch Htarget Hname Hcol Hkey
         Hcompat.
  set (r0 :=
    {| from_table_id := tbl_id table;
       from_column := col_name column;
       to_table_id := tbl_id target;
       to_column := col_name target_col;
       confidence :=
         _calculate_confidence upper column target_col entity_name
                               (tbl_name target);
       detection_method := "naming_convention";
       metadata :=
         <[ "pattern" := AStr pattern ]>
         (<[ "entity_name" := AStr entity_name ]>
         (<[ "to_datatype" := AStr (col_datatype target_col) ]>
         {[ "from_datatype" := AStr (col_datatype column) ]})) |}).
  assert (Hnaming :
    r0 ∈ _detect_by_naming_convention re_match lower upper table column
           (foldl (λ d t, <[tbl_name t := t]> d) ∅ tables) columns_by_table).
  { unfold _detect_by_naming_convention.
    apply elem_of_flat_map. exists pattern. split; [done|]. rewrite Hmatch.
    apply elem_of_flat_map. exists (tbl_name target). split; [done|].
    rewrite (table_by_name_distinct tables target Hnd Htarget).
    apply elem_of_flat_map. exists target_col. split; [done|].
    assert (col_is_primary_key target_col
            || bool_decide (lower (col_name target_col)
                              ∈ ["id"; entity_name +:+ "_id"]) = true) as ->.
    { destruct Hkey as [-> | Hkey]; [done|].
      rewrite (bool_decide_eq_true_2 _ Hkey). apply orb_true_r. }
    rewrite Hcompat. by left. }
  assert (Hcand : r0 ∈ candidates re_match lower upper tables columns_by_table).
  { unfold candidates. apply elem_of_flat_map. exists table. split; [done|].
    apply elem_of_flat_map. exists column. split; [done|].
    unfold detect_column.
    destruct Hnofk as [-> | [-> | ->]]; [done | |];
      by destruct (col_is_foreign_key column). }
  destruct (deduplicate_spec
              (candidates re_match lower upper tables columns_by_table))
    as (_ & _ & Hmax).
  destruct (Hmax r0 Hcand) as (r & Hr & Hk & Hle).
  exists r. split_and!; [|done|done].
  unfold detect_relationships. by rewrite sort_by_confidence_perm.
Qed.

End NamingConvention.

Lemma naming_convention_detected_witness :
  ∃ r,
    r ∈ detect_relationships py_re_match str_lower str_upper
          [orders; customers] (shop_columns false None)
    ∧ key_of r
      = (tbl_id orders, col_name (orders_customer_id false None),
         tbl_id customers, col_name customers_id)
    ∧ (_calculate_confidence str_upper (orders_customer_id false None)
                             customers_id "customer" (tbl_name customers)
       <= confidence r)%Q.
Proof.
  apply (naming_convention_detected py_re_match str_lower str_upper
           [orders; customers] (shop_columns false None)
           orders customers (orders_customer_id false None) customers_id
           "^(.+)_id$" "customer" []).
  - repeat constructor; vm_compute; intros H;
      repeat (apply elem_of_cons in H as [H|H]; [discriminate|]);
      by apply elem_of_nil in H.
  - by left.
  - vm_compute. by left.
  - by left.
  - right. by left.
  - reflexivity.
  - right. by left.
  - by left.
  - vm_compute. by left.
  - by left.
  - reflexivity.
Defined.

(** ** The data sampler *)

Lemma size_list_to_set_positive (x : Value) (l : list Value) (B : gset Value) :
  (0 < size (list_to_set (x :: l) ∪ B))%nat.
Proof.
  assert (size (list_to_set (x :: l) ∪ B) ≠ 0%nat); [|lia].
  intros Hz. apply size_empty_inv in Hz.
  assert (Hx : x ∈ list_to_set (x :: l) ∪ B).
  { apply elem_of_union. left. apply elem_of_list_to_set. by left. }
  rewrite Hz in Hx. by apply not_elem_of_empty in Hx.
Qed.

(** X21. [detect_value_overlap] is symmetric in its two samples and
    lies between 0 and 1; it is 1 when both samples hold the same values
    (and are not empty) and 0 when they share none. *)
Theorem detect_value_overlap_symmetric_bounded (a b : DataSampleResult) :
  detect_value_overlap a b = detect_value_overlap b a
  ∧ (0 <= detect_value_overlap a b <= 1)%Q
  ∧ (sample_values a ≠ [] →
     (list_to_set (sample_values a) : gset Value)
     = list_to_set (sample_values b) →
     (detect_value_overlap a b == 1)%Q)
  ∧ ((list_to_set (sample_values a) : gset Value)
     ## list_to_set (sample_values b) →
     (detect_value_overlap a b == 0)%Q).
Proof.
  unfold detect_value_overlap.
  destruct (sample_values a) as [|x xs] eqn:Ea;
    destruct (sample_values b) as [|y ys] eqn:Eb.
  - split; [done|]. split; [split; discriminate|]. split; done.
  - split; [done|]. split; [split; discriminate|]. split; done.
  - split; [done|]. split; [split; discriminate|]. split; [|done].
    intros _ Hset. exfalso.
    assert (Hx : x ∈ (list_to_set (x :: xs) : gset Value))
      by (apply elem_of_list_to_set; by left).
    rewrite Hset in Hx. by apply not_elem_of_empty in Hx.
  - cbv zeta.
    pose proof (size_list_to_set_positive x xs (list_to_set (y :: ys))) as Hu.
    pose proof (size_list_to_set_positive y ys (list_to_set (x :: xs))) as Hu'.
    rewrite !decide_True by lia.
    set (A := (list_to_set (x :: xs) : gset Value)) in *.
    set (B := (list_to_set (y :: ys) : gset Value)) in *.
    assert (Hle : (size (A ∩ B) ≤ size (A ∪ B))%nat).
    { apply subseteq_size. intros z Hz. apply elem_of_intersection in Hz.
      apply elem_of_union. tauto. }
    assert (Hpos : (0 < inject_Z (Z.of_nat (size (A ∪ B))))%Q).
    { change 0%Q with (inject_Z 0). rewrite <- Zlt_Qlt. lia. }
    split; [|split; [|split]].
    + by rewrite (comm_L (∩) B A), (comm_L (∪) B A).
    + split.
      * apply Qle_shift_div_l; [done|]. rewrite Qmult_0_l.
        change 0%Q with (inject_Z 0). rewrite <- Zle_Qle. lia.
      * apply Qle_shift_div_r; [done|]. rewrite Qmult_1_l.
        rewrite <- Zle_Qle. lia.
    + intros _ Hset. rewrite <- Hset in *.
      replace (A ∩ A) with A by (apply set_eq; intros z;
        rewrite elem_of_intersection; tauto).
      replace (A ∪ A) with A in * by (apply set_eq; intros z;
        rewrite elem_of_union; tauto).
      field. intros Hz. rewrite Hz in Hpos. by apply Qlt_irrefl in Hpos.
    + intros Hdisj.
      replace (A ∩ B) with (∅ : gset Value).
      * rewrite size_empty. simpl. unfold Qdiv. apply Qmult_0_l.
      * symmetry. apply disjoint_intersection_L. exact Hdisj.
Qed.

(** X22. A sample [sample_column] returns carries the table id
    [dataset.table] and the column name asked for; its cardinality ratio is
    0 when the total count is not positive, so that nothing is divided by
    zero, and lies between 0 and 1 when the distinct count does not exceed
    the total count.  (The bounds are those of the rounded quotient as
    well: rounding is monotone and keeps 0 and 1.) *)
Theorem sample_column_ratio (self : DataSampler) (ds t c : string)
    (s : DataSampleResult) :
  sample_column self ds t c = Ok (Some s) →
  table_id s = ds +:+ "." +:+ t
  ∧ column_name s = c
  ∧ (total_count s ≤ 0 → cardinality_ratio s = 0%Q)
  ∧ (0 ≤ distinct_count s ≤ total_count s →
     (0 <= cardinality_ratio s <= 1)%Q).
Proof.
  unfold sample_column, sample_column_body, try_except, bind.
  destruct (connector self _) as [[|row rows]|e]; try discriminate.
  intros [= <-]. cbn [table_id column_name total_count distinct_count
                       cardinality_ratio].
  set (total := default 0 (row_total_count row)).
  set (distinct := default 0 (row_distinct_count row)).
  split; [done|]. split; [done|]. split.
  - intros Hle. by rewrite decide_False by lia.
  - intros [Hd Ht]. destruct (decide (total > 0)) as [Hpos|Hnpos].
    + assert (Hq : (0 < inject_Z total)%Q)
        by (change 0%Q with (inject_Z 0); rewrite <- Zlt_Qlt; lia).
      split.
      * apply Qle_shift_div_l; [done|]. rewrite Qmult_0_l.
        change 0%Q with (inject_Z 0). by rewrite <- Zle_Qle.
      * apply Qle_shift_div_r; [done|]. rewrite Qmult_1_l.
        by rewrite <- Zle_Qle.
    + split; discriminate.
Qed.

Lemma sample_column_ratio_witness :
  ∃ s, sample_column scenario_d "shop" "orders" "customer_id" = Ok (Some s)
       ∧ table_id s = "shop" +:+ "." +:+ "orders"
       ∧ column_name s = "customer_id"
       ∧ (total_count s ≤ 0 → cardinality_ratio s = 0%Q)
       ∧ (0 ≤ distinct_count s ≤ total_count s →
          (0 <= cardinality_ratio s <= 1)%Q).
Proof.
  eexists. split; [reflexivity|].
  apply (sample_column_ratio scenario_d "shop" "orders" "customer_id").
  reflexivity.
Defined.

(** X23. Over query rows that hold integer counts and a list of values:
    whenever [get_column_profile] returns, it returns the error
    "Could not sample column" exactly when [sample_column] gave no sample;
    otherwise the profile never marks the column as both a likely key and
    a likely foreign key, and it carries at most ten sample values, the
    first ones of the sample. *)
Theorem get_column_profile_flags (self : DataSampler) (ds t c : string)
    (p : ColumnProfile) :
  get_column_profile self ds t c = Ok p →
  match p with
  | ProfileError error =>
    error = "Could not sample column"
    ∧ sample_column self ds t c = Ok None
  | Profile _ _ _ _ _ _ is_likely_key is_likely_fk values =>
    is_likely_key && is_likely_fk = false
    ∧ (length values ≤ 10)%nat
    ∧ ∃ s, sample_column self ds t c = Ok (Some s)
           ∧ values `prefix_of` sample_values s
  end.
Proof.
  unfold get_column_profile.
  destruct (sample_column_returns self ds t c) as [[s|] Hs]; rewrite Hs; simpl;
    intros [= <-]; [|done].
  split_and!.
  - destruct (Qgtb (cardinality_ratio s) 0.95) eqn:Hkey; [|done].
    destruct (Qgtb 0.95 (cardinality_ratio s)) eqn:Hfk;
      [|by rewrite !andb_false_r].
    apply Qgtb_true in Hkey, Hfk. exfalso.
    eapply Qlt_irrefl, Qlt_trans; eassumption.
  - rewrite length_take. lia.
  - exists s. split; [done|]. apply prefix_take.
Qed.

Lemma get_column_profile_flags_witness :
  ∃ p, get_column_profile scenario_d "shop" "orders" "customer_id" = Ok p
       ∧ match p with
         | ProfileError error =>
           error = "Could not sample column"
           ∧ sample_column scenario_d "shop" "orders" "customer_id" = Ok None
         | Profile _ _ _ _ _ _ is_likely_key is_likely_fk values =>
           is_likely_key && is_likely_fk = false
           ∧ (length values ≤ 10)%nat
           ∧ ∃ s, sample_column scenario_d "shop" "orders" "customer_id"
                  = Ok (Some s)
                  ∧ values `prefix_of` sample_values s
         end.
Proof.
  eexists. split; [reflexivity|].
  apply (get_column_profile_flags scenario_d "shop" "orders" "customer_id").
  reflexivity.
Defined.

(** * Outcomes of the traversal, and explicit foreign keys in the result *)

(** *** Related entities: the three outcomes *)

Section RelatedOutcomes.

Variable calls : list call.
Variable rel : option RelationType.
Variable a : string.
Variable d : Z.



End RelatedOutcomes.


(** *** Explicit foreign keys in the result *)

Lemma NoDup_map_inj {A B} (f : A → B) (l : list A) (x y : A) :
  NoDup (map f l) → x ∈ l → y ∈ l → f x = f y → x = y.
Proof.
  induction l as [|z l IH]; simpl; intros Hnd Hx Hy Hf;
    [by apply elem_of_nil in Hx|].
  apply NoDup_cons in Hnd as [Hz Hnd].
  apply elem_of_cons in Hx as [->|Hx]; apply elem_of_cons in Hy as [->|Hy].
  - done.
  - exfalso. apply Hz. rewrite Hf. apply elem_of_map. by exists y.
  - exfalso. apply Hz. rewrite <- Hf. apply elem_of_map. by exists x.
  - by apply IH.
Qed.

Section ExplicitForeignKeys.

Variable re_match : string → string → option (list string).
Variable lower : string → string.
Variable upper : string → string.

Lemma detect_column_source (table : Table) (column : Column)
    (table_by_name : gmap string Table)
    (columns_by_table : gmap string (list Column)) (r : DetectedRelationship) :
  r ∈ detect_column re_match lower upper table column table_by_name
        columns_by_table →
  from_table_id r = tbl_id table ∧ from_column r = col_name column.
Proof.
  unfold detect_column. intros Hr.
  assert (Hnaming :
    r ∈ _detect_by_naming_convention re_match lower upper table column
          table_by_name columns_by_table →
    from_table_id r = tbl_id table ∧ from_column r = col_name column).
  { intros H. apply naming_convention_target in H as (? & ? & _). done. }
  destruct (col_is_foreign_key column); [|by apply Hnaming].
  destruct (col_foreign_key_ref column) as [[|c fk_ref]|];
    [by apply Hnaming | | by apply Hnaming].
  by apply list_elem_of_singleton in Hr as ->.
Qed.

(** C4, amended. Let a column listed for one of the given tables be
    flagged as a foreign key and carry a reference that is not empty.  The
    reference is split on its last separator: what comes before it is the
    target table id (which may contain separators, and is empty when the
    reference has none) and what comes after it is the target column.  The
    column loop of [detect_relationships] appends for that column exactly
    this one relationship, of confidence 1.0 and method [explicit_fk], and
    no naming-convention candidate.  [detect_relationships] returns a
    relationship of these four endpoints with confidence 1.0; when the
    columns listed for the table have distinct names it is the
    [explicit_fk] relationship itself, and the only relationship returned
    for that column. *)
Theorem explicit_fk_split_on_last_dot (tables : list Table)
    (columns_by_table : gmap string (list Column))
    (table : Table) (column : Column) (fk_ref : string) :
  table ∈ tables →
  column ∈ default [] (columns_by_table !! tbl_id table) →
  col_is_foreign_key column = true →
  col_foreign_key_ref column = Some fk_ref →
  fk_ref ≠ "" →
  let fk := _create_fk_relationship (tbl_id table) column fk_ref in
  let emitted :=
    detect_relationships re_match lower upper tables columns_by_table in
  from_table_id fk = tbl_id table
  ∧ from_column fk = col_name column
  ∧ (∀ t c, fk_ref = t +:+ "." +:+ c → occurs "." c = false →
            to_table_id fk = t ∧ to_column fk = c)
  ∧ (occurs "." fk_ref = false → to_table_id fk = "" ∧ to_column fk = fk_ref)
  ∧ occurs "." (to_column fk) = false
  ∧ (occurs "." fk_ref = true →
     to_table_id fk +:+ "." +:+ to_column fk = fk_ref)
  ∧ confidence fk = 1.0%Q
  ∧ detection_method fk = "explicit_fk"
  ∧ (∀ table_by_name,
       detect_column re_match lower upper table column table_by_name
         columns_by_table = [fk])
  ∧ (∃ r, r ∈ emitted ∧ key_of r = key_of fk ∧ (confidence r == 1.0)%Q)
  ∧ (NoDup (map col_name (default [] (columns_by_table !! tbl_id table))) →
     fk ∈ emitted
     ∧ ∀ r, r ∈ emitted →
            from_table_id r = tbl_id table → from_column r = col_name column →
            r = fk).
Proof.
  intros Htable Hcolumn Hflag Href Hne fk emitted.
  assert (Hloop : ∀ table', tbl_id table' = tbl_id table → ∀ table_by_name,
    detect_column re_match lower upper table' column table_by_name
      columns_by_table = [fk]).
  { intros table' Hid table_by_name. unfold detect_column.
    rewrite Hflag, Href, Hid. by destruct fk_ref. }
  assert (Hcand : fk ∈ candidates re_match lower upper tables columns_by_table).
  { unfold candidates. apply elem_of_flat_map. exists table. split; [done|].
    apply elem_of_flat_map. exists column. split; [done|].
    rewrite (Hloop table eq_refl). by left. }
  destruct (deduplicate_spec
              (candidates re_match lower upper tables columns_by_table))
    as (_ & Hsub & Hmax).
  assert (Hperm : Permutation emitted
            (_deduplicate_relationships
               (candidates re_match lower upper tables columns_by_table)))
    by apply sort_by_confidence_perm.
  assert (Hemitted : ∃ r, r ∈ emitted ∧ key_of r = key_of fk
                          ∧ (confidence r == 1.0)%Q).
  { destruct (Hmax fk Hcand) as (r & Hr & Hk & Hle).
    exists r. split_and!; [by rewrite Hperm | done |].
    apply Qle_antisym; [|exact Hle].
    destruct (candidates_confidence re_match lower upper _ _ _ (Hsub r Hr))
      as [[_ ->]|[_ [_ ?]]]; [apply Qle_refl | done]. }
  assert (Hsplit_pieces : occurs "." (to_column fk) = false).
  { unfold fk, _create_fk_relationship. cbn [to_column].
    pose proof (split_pieces "." fk_ref) as Hall.
    pose proof (split_nonempty "." fk_ref) as Hnil.
    destruct (exists_last Hnil) as (front & piece & Heq).
    rewrite Heq in Hall |- *.
    rewrite last_last. rewrite Forall_app, Forall_singleton in Hall.
    by destruct Hall. }
  split_and!; try done.
  - intros t c -> Hc.
    by apply (create_fk_relationship_split (tbl_id table) column t c Hc).
  - intros Hno. unfold fk, _create_fk_relationship. cbn [to_table_id to_column].
    by rewrite (split_without_separator _ _ Hno).
  - intros Hdot. unfold fk, _create_fk_relationship.
    cbn [to_table_id to_column].
    rewrite join_removelast_last by (by apply split_with_separator).
    apply join_split.
  - by apply Hloop.
  - intros Hnames.
    assert (Honly : ∀ r, r ∈ emitted →
      from_table_id r = tbl_id table → from_column r = col_name column →
      r = fk).
    { intros r Hr Hft Hfc. rewrite Hperm in Hr. apply Hsub in Hr.
      unfold candidates in Hr.
      apply elem_of_flat_map in Hr as (table' & Htable' & Hr).
      apply elem_of_flat_map in Hr as (column' & Hcolumn' & Hr).
      destruct (detect_column_source _ _ _ _ _ Hr) as [Hft' Hfc'].
      assert (Hid : tbl_id table' = tbl_id table) by congruence.
      rewrite Hid in Hcolumn'.
      assert (column' = column) as ->.
      { apply (NoDup_map_inj col_name _ _ _ Hnames Hcolumn' Hcolumn).
        congruence. }
      rewrite (Hloop table' Hid) in Hr.
      by apply list_elem_of_singleton in Hr. }
    split; [|done].
    destruct Hemitted as (r & Hr & Hk & _).
    assert (r = fk) as <-; [|done].
    apply Honly; [done | |]; unfold key_of in Hk; by injection Hk.
Qed.

End ExplicitForeignKeys.

Lemma explicit_fk_split_on_last_dot_witness :
  let tables := [orders; customers] in
  let columns_by_table := shop_columns true (Some "shop.customers.id") in
  let column := orders_customer_id true (Some "shop.customers.id") in
  let fk := _create_fk_relationship (tbl_id orders) column "shop.customers.id" in
  let emitted :=
    detect_relationships py_re_match str_lower str_upper tables
      columns_by_table in
  from_table_id fk = tbl_id orders
  ∧ from_column fk = col_name column
  ∧ (∀ t c, "shop.customers.id" = t +:+ "." +:+ c → occurs "." c = false →
            to_table_id fk = t ∧ to_column fk = c)
  ∧ (occurs "." "shop.customers.id" = false →
     to_table_id fk = "" ∧ to_column fk = "shop.customers.id")
  ∧ occurs "." (to_column fk) = false
  ∧ (occurs "." "shop.customers.id" = true →
     to_table_id fk +:+ "." +:+ to_column fk = "shop.customers.id")
  ∧ confidence fk = 1.0%Q
  ∧ detection_method fk = "explicit_fk"
  ∧ (∀ table_by_name,
       detect_column py_re_match str_lower str_upper orders column
         table_by_name columns_by_table = [fk])
  ∧ (∃ r, r ∈ emitted ∧ key_of r = key_of fk ∧ (confidence r == 1.0)%Q)
  ∧ (NoDup (map col_name (default [] (columns_by_table !! tbl_id orders))) →
     fk ∈ emitted
     ∧ ∀ r, r ∈ emitted →
            from_table_id r = tbl_id orders →
            from_column r = col_name column →
            r = fk).
Proof.
  apply (explicit_fk_split_on_last_dot py_re_match str_lower str_upper
           [orders; customers] (shop_columns true (Some "shop.customers.id"))
           orders (orders_customer_id true (Some "shop.customers.id"))
           "shop.customers.id").
  - by left.
  - vm_compute. by left.
  - reflexivity.
  - reflexivity.
  - discriminate.
Defined.

(** C4 as stated fails in three ways.  A column that carries a reference
    but is not flagged as a foreign key goes through naming-convention
    inference, and the reference is ignored; so does a flagged column whose
    reference is the empty string.  And when a table lists a column name
    twice, first without a flag and then flagged with the reference that
    naming convention infers, the explicit relationship meets a
    naming-convention candidate of the same endpoints and of confidence
    1.0 that came first: de-duplication keeps the earlier one, and no
    [explicit_fk] relationship is returned. *)
Lemma explicit_fk_needs_flag_counterexample :
  (col_foreign_key_ref (orders_customer_id false (Some "crm.accounts.key"))
   = Some "crm.accounts.key"
   ∧ ∃ r,
       detect_relationships py_re_match str_lower str_upper [orders; customers]
         (shop_columns false (Some "crm.accounts.key")) = [r]
       ∧ detection_method r = "naming_convention"
       ∧ detection_method r ≠ "explicit_fk"
       ∧ to_table_id r = "shop.customers"
       ∧ to_column r = "id")
  ∧ (∃ r,
       detect_relationships py_re_match str_lower str_upper [orders; customers]
         (shop_columns true (Some "")) = [r]
       ∧ detection_method r = "naming_convention")
  ∧ (orders_customer_id true (Some "shop.customers.id")
       ∈ default [] (shop_columns_twice "shop.customers.id" !! tbl_id orders)
     ∧ ∃ r,
         detect_relationships py_re_match str_lower str_upper
           [orders; customers] (shop_columns_twice "shop.customers.id") = [r]
         ∧ detection_method r = "naming_convention"
         ∧ detection_method r ≠ "explicit_fk"
         ∧ key_of r
           = key_of (_create_fk_relationship (tbl_id orders)
                       (orders_customer_id true (Some "shop.customers.id"))
                       "shop.customers.id")).
Proof.
  split_and!.
  - reflexivity.
  - eexists. split; [vm_compute; reflexivity|]. done.
  - eexists. split; [vm_compute; reflexivity|]. done.
  - vm_compute. right. by left.
  - eexists. split; [vm_compute; reflexivity|]. done.
Qed.
